(** * princeprocessor (pp.c): a shallow embedding of the PRINCE enumerator

    The development follows [src/pp.c] top to bottom: the data structures,
    the helpers ([in_superchop], [out_flush], [out_push], the two qsort
    comparators, the [elem_*] functions) and then the stages of [main]
    (word loading, chain generation, keyspace computation, the two sorts,
    skip/limit validation and the enumeration loop).

    Conventions.
    - [int] and [u8] values that index arrays are [nat]; [u64] word counts and
      GMP integers ([mpz_t]) are [Z].
    - A C array that is filled front to back is the list of its filled
      prefix: [elem_t.buf] together with [elem_t.cnt] is the list of parts,
      [words_buf] together with [words_cnt] the list of stored words.
    - What the program takes from the C library ([BUFSIZ], [qsort]) is a
      parameter, packaged in the class [libc].
    - The arrays with their allocation counters ([check_realloc_words],
      [check_realloc_elems]) are in the module [Alloc]; the stages that
      fill them are shown to agree with the stages on filled prefixes. *)

From Stdlib Require Import ZArith List Lia Permutation Sorted Bool Arith.
From Stdlib Require Import Strings.Byte Strings.String.
From stdpp Require Import base list.
Import ListNotations.

(* ================================================================= *)
(** ** Constants and data structures *)

Definition IN_LEN_MIN : nat := 1.
Definition IN_LEN_MAX : nat := 16.
Definition PW_MIN : nat := IN_LEN_MIN.
Definition PW_MAX : nat := IN_LEN_MAX.
Definition ELEM_CNT_MIN : Z := 1.
Definition ELEM_CNT_MAX : Z := 8.

(** [u8] arithmetic wraps modulo 256. *)
Definition u8 (n : nat) : nat := n mod 256.

(** [word_t]: a buffer of [IN_LEN_MAX] bytes. *)
Abbreviation word_t := (list byte).

(** [elem_t]: [buf] holds the [cnt] parts written so far. *)
Record elem_t : Type := mk_elem {
  buf : list nat;
  ks_cnt : Z;
  ks_pos : Z
}.

Definition cnt (e : elem_t) : nat := length (buf e).

(** [db_entry_t]: the words of one length and the chains of one output
    length (the allocation counters are left out). *)
Record db_entry_t : Type := mk_db_entry {
  words_buf : list word_t;
  elems_buf : list elem_t;
  elems_pos : nat
}.

Definition words_cnt (d : db_entry_t) : Z := Z.of_nat (length (words_buf d)).
Definition elems_cnt (d : db_entry_t) : nat := length (elems_buf d).

(** A [calloc]ed entry. *)
Definition db_entry_zero : db_entry_t := mk_db_entry [] [] 0.

#[global] Instance db_entry_inhabited : Inhabited db_entry_t :=
  populate db_entry_zero.

(** [pw_order_t] *)
Record pw_order_t : Type := mk_pw_order {
  len : nat;
  ocnt : Z
}.

(** Default word-length distribution. *)
Definition DEF_WORDLEN_DIST_CNT : nat := 25.

Definition DEF_WORDLEN_DIST : list Z :=
  [0; 15; 56; 350; 3315; 43721; 276252; 201748; 226412; 119885; 75075;
   26323; 13373; 6353; 3540; 1877; 972; 311; 151; 81; 66; 21; 16; 13; 13]%Z.

(* ================================================================= *)
(** ** Chain generation and filtering *)

(** One turn of the loop of [elem_gen_with_idx]; the state is the written
    prefix of [buf] and [elem_key]. *)
Definition elem_gen_step (elems_idx : nat) (st : list nat * nat)
    (elems_shr : nat) : list nat * nat :=
  let '(b, elem_key) := st in
  if negb (Nat.land (Nat.shiftr elems_idx elems_shr) 1 =? 0)
  then (b ++ [elem_key], 1)
  else (b, u8 (elem_key + 1)).

(** [elem_gen_with_idx]. The two [mpz_t] fields are not touched by the C
    function; [main] sets both to 0 when it stores the element, and that is
    the value given here. The list stands for [buf] as long as it has at
    most [IN_LEN_MAX] parts and the index for an [int]: this is the source
    function for [len1 < IN_LEN_MAX] and an index below [2 ^ 31], which
    covers the calls of [main]. *)
Definition elem_gen_with_idx (len1 elems_idx : nat) : elem_t :=
  let '(b, elem_key) :=
    fold_left (elem_gen_step elems_idx) (seq 0 len1) ([], 1) in
  mk_elem (b ++ [elem_key]) 0 0.

Definition elem_valid_with_db (elem_buf : elem_t)
    (db_entries : list db_entry_t) : bool :=
  forallb (fun elem_key => negb (words_cnt (db_entries !!! elem_key) =? 0)%Z)
          (buf elem_buf).

Definition elem_valid_with_cnt_min (elem_buf : elem_t) (elem_cnt_min : Z)
    : bool :=
  negb (Z.of_nat (cnt elem_buf) <? elem_cnt_min)%Z.

Definition elem_valid_with_cnt_max (elem_buf : elem_t) (elem_cnt_max : Z)
    : bool :=
  negb (Z.of_nat (cnt elem_buf) >? elem_cnt_max)%Z.

(** Appending one element to [elems_buf] ([elems_cnt++]). *)
Definition add_elem (d : db_entry_t) (e : elem_t) : db_entry_t :=
  mk_db_entry (words_buf d) (elems_buf d ++ [e]) (elems_pos d).

(** Body of the inner loop of "init elems". *)
Definition init_elems_idx (elem_cnt_min elem_cnt_max : Z) (pw_len : nat)
    (db_entries : list db_entry_t) (elems_idx : nat) : list db_entry_t :=
  let elem_buf_new := elem_gen_with_idx (pw_len - 1) elems_idx in
  if negb (elem_valid_with_db elem_buf_new db_entries) then db_entries
  else if negb (elem_valid_with_cnt_min elem_buf_new elem_cnt_min)
  then db_entries
  else if negb (elem_valid_with_cnt_max elem_buf_new elem_cnt_max)
  then db_entries
  else <[pw_len := add_elem (db_entries !!! pw_len) elem_buf_new]> db_entries.

(** Body of the outer loop: all [1 << pw_len1] indices of one length. *)
Definition init_elems_len (elem_cnt_min elem_cnt_max : Z)
    (db_entries : list db_entry_t) (pw_len : nat) : list db_entry_t :=
  fold_left (init_elems_idx elem_cnt_min elem_cnt_max pw_len)
            (seq 0 (Nat.shiftl 1 (pw_len - 1))) db_entries.

(** The lengths [pw_min .. pw_max] in loop order. *)
Definition pw_lens (pw_min pw_max : nat) : list nat :=
  seq pw_min (pw_max + 1 - pw_min).

Definition init_elems (pw_min pw_max : nat) (elem_cnt_min elem_cnt_max : Z)
    (db_entries : list db_entry_t) : list db_entry_t :=
  fold_left (init_elems_len elem_cnt_min elem_cnt_max)
            (pw_lens pw_min pw_max) db_entries.

(* ================================================================= *)
(** ** Memory helpers *)

(** [memcpy (dst + off, src, n)]; [None] when the copy would leave either
    buffer. *)
Definition memcpy (dst : list byte) (off : nat) (src : list byte) (n : nat)
    : option (list byte) :=
  if (off + n <=? length dst) && (n <=? length src)
  then Some (take off dst ++ take n src ++ drop (off + n) dst)
  else None.

(** [dst[i] = c]; [None] when [i] is outside the array. *)
Definition store (dst : list byte) (i : nat) (c : byte) : option (list byte) :=
  if i <? length dst then Some (<[i := c]> dst) else None.

(** An uninitialised array of [n] bytes: its contents are whatever [junk]
    holds. *)
Definition uninit (junk : list byte) (n : nat) : list byte :=
  take n (junk ++ replicate n x00).

(* ================================================================= *)
(** ** Loading the words *)

(** [strlen] of the buffer filled by [fgets]: the bytes before the first
    NUL. *)
Fixpoint strlen (s : list byte) : nat :=
  match s with
  | [] => 0
  | c :: s' => if Byte.eqb c x00 then 0 else S (strlen s')
  end.

(** The [while (len)] loop of [in_superchop]. *)
Fixpoint superchop_len (b : list byte) (len : nat) : nat :=
  match len with
  | 0 => 0
  | S len' =>
      match b !! len' with
      | Some c =>
          if Byte.eqb c x0a then superchop_len b len'
          else if Byte.eqb c x0d then superchop_len b len'
          else len
      | None => len
      end
  end.

(** [in_superchop]: the chopped string and its length. *)
Definition in_superchop (b : list byte) : list byte * nat :=
  let len := superchop_len b (strlen b) in
  (take len b, len).

(** A fresh slot of [words_buf]: [check_realloc_words] zeroes new memory. *)
Definition word_zero : word_t := replicate IN_LEN_MAX x00.

(** [memcpy (word_buf->buf, input_buf, input_len)] into a zeroed slot; the
    copy is in bounds because [input_len <= IN_LEN_MAX] is checked first. *)
Definition word_of (input_buf : list byte) (input_len : nat) : word_t :=
  take input_len input_buf ++ drop input_len word_zero.

Definition add_word (d : db_entry_t) (w : word_t) : db_entry_t :=
  mk_db_entry (words_buf d ++ [w]) (elems_buf d) (elems_pos d).

(** Body of the reading loop, for one line returned by [fgets]. *)
Definition load_line (db_entries : list db_entry_t) (line : list byte)
    : list db_entry_t :=
  let '(input_buf, input_len) := in_superchop line in
  if input_len <? IN_LEN_MIN then db_entries
  else if IN_LEN_MAX <? input_len then db_entries
  else <[input_len := add_word (db_entries !!! input_len)
                               (word_of input_buf input_len)]> db_entries.

Definition load_words (stdin : list (list byte))
    (db_entries : list db_entry_t) : list db_entry_t :=
  fold_left load_line stdin db_entries.

(** [calloc (IN_LEN_MAX + 1, sizeof (db_entry_t))] *)
Definition db_entries_init : list db_entry_t :=
  replicate (IN_LEN_MAX + 1) db_entry_zero.

(* ================================================================= *)
(** ** Length distribution *)

Definition wordlen_dist_entry (wl_dist_len : bool)
    (db_entries : list db_entry_t) (pw_len : nat) : Z :=
  if wl_dist_len then words_cnt (db_entries !!! pw_len)
  else if pw_len <? DEF_WORDLEN_DIST_CNT then DEF_WORDLEN_DIST !!! pw_len
  else 1%Z.

Definition init_wordlen_dist (wl_dist_len : bool)
    (db_entries : list db_entry_t) : list Z :=
  fold_left
    (fun wordlen_dist pw_len =>
       <[pw_len := wordlen_dist_entry wl_dist_len db_entries pw_len]>
         wordlen_dist)
    (pw_lens IN_LEN_MIN IN_LEN_MAX)
    (replicate (IN_LEN_MAX + 1) 0%Z).

(* ================================================================= *)
(** ** Keyspace *)

Definition elem_ks (elem_buf : elem_t) (db_entries : list db_entry_t) : Z :=
  fold_left
    (fun ks elem_key => (ks * words_cnt (db_entries !!! elem_key))%Z)
    (buf elem_buf) 1%Z.

#[global] Instance elem_inhabited : Inhabited elem_t :=
  populate (mk_elem [] 0 0).

Definition set_elems (d : db_entry_t) (es : list elem_t) : db_entry_t :=
  mk_db_entry (words_buf d) es (elems_pos d).

Definition set_ks_cnt (e : elem_t) (k : Z) : elem_t :=
  mk_elem (buf e) k (ks_pos e).

Definition set_ks_pos (e : elem_t) (k : Z) : elem_t :=
  mk_elem (buf e) (ks_cnt e) k.

(** Inner loop body of "Calculate keyspace stuff"; the state is the
    database and [total_ks_cnt]. *)
Definition calc_keyspace_idx (pw_len : nat) (st : list db_entry_t * Z)
    (elems_idx : nat) : list db_entry_t * Z :=
  let '(db_entries, total_ks_cnt) := st in
  let db_entry := db_entries !!! pw_len in
  let elem_buf := elems_buf db_entry !!! elems_idx in
  let ks := elem_ks elem_buf db_entries in
  (<[pw_len :=
       set_elems db_entry
         (<[elems_idx := set_ks_cnt elem_buf (ks_cnt elem_buf + ks)%Z]>
            (elems_buf db_entry))]> db_entries,
   (total_ks_cnt + ks)%Z).

Definition calc_keyspace_len (st : list db_entry_t * Z) (pw_len : nat)
    : list db_entry_t * Z :=
  fold_left (calc_keyspace_idx pw_len)
            (seq 0 (elems_cnt (st.1 !!! pw_len))) st.

Definition calc_keyspace (pw_min pw_max : nat)
    (db_entries : list db_entry_t) : list db_entry_t * Z :=
  fold_left calc_keyspace_len (pw_lens pw_min pw_max) (db_entries, 0%Z).

(* ================================================================= *)
(** ** The C library *)

(** A comparison function as [qsort] requires it: the sign of [compar x y]
    is a total preorder on the elements. *)
Definition consistent {A : Type} (compar : A -> A -> Z) : Prop :=
  (forall x y, (compar x y < 0)%Z <-> (0 < compar y x)%Z) /\
  (forall x y z, (compar x y <= 0)%Z -> (compar y z <= 0)%Z ->
                 (compar x z <= 0)%Z).

(** What [pp.c] uses of the C library. [BUFSIZ] is at least 256. [qsort]
    rearranges the array, and sorts it when the comparison function is
    consistent; the order of elements that compare equal is unspecified,
    and so is the result for an inconsistent comparison function. *)
Class libc : Type := {
  BUFSIZ : nat;
  BUFSIZ_min : 256 <= BUFSIZ;
  qsort : forall {A : Type}, list A -> (A -> A -> Z) -> list A;
  qsort_Permutation :
    forall (A : Type) (base : list A) (compar : A -> A -> Z),
      Permutation (qsort base compar) base;
  qsort_Sorted :
    forall (A : Type) (base : list A) (compar : A -> A -> Z),
      consistent compar ->
      Sorted (fun x y => (compar x y <= 0)%Z) (qsort base compar)
}.

(** [mpz_cmp]: only the sign of the result is specified. *)
Definition mpz_cmp (a b : Z) : Z := Z.sgn (a - b).

Definition sort_by_cnt (o1 o2 : pw_order_t) : Z :=
  if (ocnt o1 <? ocnt o2)%Z then 1%Z else 0%Z.

Definition sort_by_ks (f1 f2 : elem_t) : Z :=
  mpz_cmp (ks_cnt f1) (ks_cnt f2).

(** "sort elems by ks" *)
Definition sort_elems_len `{libc} (db_entries : list db_entry_t)
    (pw_len : nat) : list db_entry_t :=
  let db_entry := db_entries !!! pw_len in
  <[pw_len := set_elems db_entry (qsort (elems_buf db_entry) sort_by_ks)]>
    db_entries.

Definition sort_elems `{libc} (pw_min pw_max : nat)
    (db_entries : list db_entry_t) : list db_entry_t :=
  fold_left sort_elems_len (pw_lens pw_min pw_max) db_entries.

(** "sort global order by pw length counts": the first [order_cnt] entries
    of [pw_orders]. *)
Definition init_pw_orders (pw_min pw_max : nat)
    (db_entries : list db_entry_t) : list pw_order_t :=
  map (fun pw_len => mk_pw_order pw_len (words_cnt (db_entries !!! pw_len)))
      (pw_lens pw_min pw_max).

Definition sort_pw_orders `{libc} (pw_min pw_max : nat)
    (db_entries : list db_entry_t) : list pw_order_t :=
  qsort (init_pw_orders pw_min pw_max db_entries) sort_by_cnt.

(* ================================================================= *)
(** ** Buffered output *)

(** [out_t]: [fp] is the sequence of bytes written to the file so far. *)
Record out_t : Type := mk_out {
  fp : list byte;
  obuf : list byte;
  olen : nat
}.

Definition out_flush (out : out_t) : out_t :=
  mk_out (fp out ++ take (olen out) (obuf out)) (obuf out) 0.

Definition out_push `{libc} (out : out_t) (pw_buf : list byte) (pw_len : nat)
    : option out_t :=
  match memcpy (obuf out) (olen out) pw_buf pw_len with
  | None => None
  | Some b =>
      let out' := mk_out (fp out) b (olen out + pw_len) in
      if (Z.of_nat BUFSIZ - 100 <=? Z.of_nat (olen out'))%Z
      then Some (out_flush out')
      else Some out'
  end.

(** [malloc (sizeof (out_t))], then [out->len = 0]. *)
Definition out_init `{libc} (junk : list byte) : out_t :=
  mk_out [] (uninit junk BUFSIZ) 0.

(* ================================================================= *)
(** ** The materializer *)

(** One turn of the loop of [elem_set_pwbuf]; the state is [ks_pos], the
    buffer and the offset reached by [pw_buf]. [mpz_fdiv_ui] and
    [mpz_div_ui] by zero, and a word index outside [words_buf], are
    faults. *)
Definition elem_set_pwbuf_step (db_entries : list db_entry_t)
    (st : option (Z * list byte * nat)) (elem_key : nat)
    : option (Z * list byte * nat) :=
  match st with
  | None => None
  | Some (ks_pos, pw_buf, off) =>
      let db_entry := db_entries !!! elem_key in
      let words_cnt := words_cnt db_entry in
      if (words_cnt =? 0)%Z then None
      else
        let words_idx := (ks_pos mod words_cnt)%Z in
        match words_buf db_entry !! Z.to_nat words_idx with
        | None => None
        | Some word =>
            match memcpy pw_buf off word elem_key with
            | None => None
            | Some pw_buf' =>
                Some ((ks_pos / words_cnt)%Z, pw_buf', off + elem_key)
            end
        end
  end.

Definition elem_set_pwbuf (elem_buf : elem_t) (db_entries : list db_entry_t)
    (ks_pos : Z) (pw_buf : list byte) : option (list byte) :=
  match fold_left (elem_set_pwbuf_step db_entries) (buf elem_buf)
                  (Some (ks_pos, pw_buf, 0)) with
  | None => None
  | Some (_, pw_buf', _) => Some pw_buf'
  end.

(* ================================================================= *)
(** ** The enumeration loop *)

(** [mpz_get_ui]: the low 64 bits of the absolute value. *)
Definition mpz_get_ui (z : Z) : Z := (Z.abs z mod 2 ^ 64)%Z.

(** What the loop changes: the database ([ks_pos], [elems_pos]),
    [total_ks_pos] and the output. *)
Record loop_t : Type := mk_loop {
  l_db : list db_entry_t;
  l_pos : Z;
  l_out : out_t
}.

(** Body of the innermost loop, [iter_pos_u64 < iter_max_u64]; the state is
    [total_ks_pos], [pw_buf] and the output. *)
Definition loop_iter `{libc} (elem_buf : elem_t)
    (db_entries : list db_entry_t) (skip : Z) (pw_len : nat)
    (st : option (Z * list byte * out_t)) (iter_pos_u64 : nat)
    : option (Z * list byte * out_t) :=
  match st with
  | None => None
  | Some (total_ks_pos, pw_buf, out) =>
      let ks_pos := (ks_pos elem_buf + Z.of_nat iter_pos_u64)%Z in
      if (skip <=? total_ks_pos)%Z then
        match elem_set_pwbuf elem_buf db_entries ks_pos pw_buf with
        | None => None
        | Some pw_buf' =>
            match out_push out pw_buf' (pw_len + 1) with
            | None => None
            | Some out' => Some ((total_ks_pos + 1)%Z, pw_buf', out')
            end
        end
      else Some ((total_ks_pos + 1)%Z, pw_buf, out)
  end.

(** [iter_max]: the batch drawn from the current chain. *)
Definition batch_size (elem_buf : elem_t) (words_cnt total_ks_left : Z) : Z :=
  let iter_max := (ks_cnt elem_buf - ks_pos elem_buf)%Z in
  let iter_max := if (iter_max >? words_cnt)%Z then words_cnt else iter_max in
  if (total_ks_left <? iter_max)%Z then total_ks_left else iter_max.

(** [elem_buf->ks_pos += iter_max], and the move to the next chain. *)
Definition advance (db_entry : db_entry_t) (elem_buf : elem_t) (iter_max : Z)
    : db_entry_t :=
  let elem_buf1 := set_ks_pos elem_buf (ks_pos elem_buf + iter_max)%Z in
  if (ks_pos elem_buf1 =? ks_cnt elem_buf1)%Z
  then mk_db_entry (words_buf db_entry)
         (<[elems_pos db_entry := set_ks_pos elem_buf1 0%Z]>
            (elems_buf db_entry))
         (elems_pos db_entry + 1)
  else mk_db_entry (words_buf db_entry)
         (<[elems_pos db_entry := elem_buf1]> (elems_buf db_entry))
         (elems_pos db_entry).

(** Body of the [for (order_pos ...)] loop. The result says whether the
    loop is left by [break]. *)
Definition loop_order `{libc} (junk : list byte) (wordlen_dist : list Z)
    (skip total_ks_cnt : Z) (st : loop_t) (pw_order : pw_order_t)
    : option (loop_t * bool) :=
  let pw_len := len pw_order in
  match store (uninit junk BUFSIZ) pw_len x0a with
  | None => None
  | Some pw_buf =>
      let db_entry := l_db st !!! pw_len in
      if elems_pos db_entry =? elems_cnt db_entry then Some (st, false)
      else
        match elems_buf db_entry !! elems_pos db_entry with
        | None => None
        | Some elem_buf =>
            let words_cnt := wordlen_dist !!! pw_len in
            let total_ks_left := (total_ks_cnt - l_pos st)%Z in
            let iter_max := batch_size elem_buf words_cnt total_ks_left in
            let iter_max_u64 := mpz_get_ui iter_max in
            match fold_left (loop_iter elem_buf (l_db st) skip pw_len)
                            (seq 0 (Z.to_nat iter_max_u64))
                            (Some (l_pos st, pw_buf, l_out st)) with
            | None => None
            | Some (total_ks_pos, _, out) =>
                Some (mk_loop
                        (<[pw_len := advance db_entry elem_buf iter_max]>
                           (l_db st))
                        total_ks_pos (out_flush out),
                      (total_ks_pos =? total_ks_cnt)%Z)
            end
        end
  end.

(** The [for] loop over [pw_orders], with its [break]. *)
Fixpoint loop_orders `{libc} (junk : list byte) (wordlen_dist : list Z)
    (skip total_ks_cnt : Z) (pw_orders : list pw_order_t) (st : loop_t)
    : option loop_t :=
  match pw_orders with
  | [] => Some st
  | pw_order :: rest =>
      match loop_order junk wordlen_dist skip total_ks_cnt st pw_order with
      | None => None
      | Some (st', true) => Some st'
      | Some (st', false) =>
          loop_orders junk wordlen_dist skip total_ks_cnt rest st'
      end
  end.

(** How a run ends. *)
Inductive outcome : Type :=
| Crash                          (* a fault: behaviour undefined *)
| Running (written : list byte)  (* still in the loop when fuel ran out *)
| Failed (diagnostic : string)   (* [return (-1)] after a message on stderr *)
| Keyspace (total : Z)           (* the total printed by [--keyspace] *)
| Finished (written : list byte) (* [return 0]; the bytes written to [fp] *).

(** The [while (total_ks_pos < total_ks_cnt)] loop, run for at most [fuel]
    rounds. *)
Fixpoint loop `{libc} (fuel : nat) (junk : list byte) (wordlen_dist : list Z)
    (skip total_ks_cnt : Z) (pw_orders : list pw_order_t) (st : loop_t)
    : outcome :=
  if (l_pos st <? total_ks_cnt)%Z then
    match fuel with
    | 0 => Running (fp (l_out st))
    | S fuel' =>
        match loop_orders junk wordlen_dist skip total_ks_cnt pw_orders st with
        | None => Crash
        | Some st' =>
            loop fuel' junk wordlen_dist skip total_ks_cnt pw_orders st'
        end
    end
  else Finished (fp (l_out st)).

(* ================================================================= *)
(** ** [main] *)

(** The variables set by the option parser. *)
Record params : Type := mk_params {
  keyspace : bool;
  pw_min : Z;
  pw_max : Z;
  elem_cnt_min : Z;
  elem_cnt_max : Z;
  wl_dist_len : bool;
  skip : Z;
  limit : Z
}.

(** The checks made before anything is allocated; the diagnostics are the
    format strings of the source, without the final newline. *)
Definition check_params (p : params) : option string :=
  if (pw_min p <=? 0)%Z
  then Some "Value of --pw-min (%d) must be greater than %d"%string
  else if (pw_min p <=? 0)%Z
  then Some "Value of --pw-max (%d) must be greater than %d"%string
  else if (elem_cnt_min p <=? 0)%Z
  then Some "Value of --elem-cnt-min (%d) must be greater than %d"%string
  else if (elem_cnt_max p <=? 0)%Z
  then Some "Value of --elem-cnt-max (%d) must be greater than %d"%string
  else if (pw_min p >? pw_max p)%Z
  then Some "Value of --pw-min (%d) must be smaller or equal than value of --pw-max (%d)"%string
  else if (elem_cnt_min p >? elem_cnt_max p)%Z
  then Some "Value of --elem-cnt-min (%d) must be smaller or equal than value of --elem-cnt-max (%d)"%string
  else if (pw_min p <? Z.of_nat IN_LEN_MIN)%Z
  then Some "Value of --pw-min (%d) must be greater or equal than %d"%string
  else if (pw_max p >? Z.of_nat IN_LEN_MAX)%Z
  then Some "Value of --pw-max (%d) must be smaller or equal than %d"%string
  else None.

(** "seek to some starting point": the diagnostic, or the value of
    [total_ks_cnt] the loop runs with. *)
Definition check_skip_limit (skip limit total_ks_cnt : Z) : string + Z :=
  if negb (skip =? 0)%Z && (mpz_cmp skip total_ks_cnt >? 0)%Z
  then inl "Value of --skip must be smaller than total keyspace"%string
  else if negb (limit =? 0)%Z then
    if (mpz_cmp limit total_ks_cnt >? 0)%Z
    then inl "Value of --limit must be smaller than total keyspace"%string
    else
      let tmp := (skip + limit)%Z in
      if (mpz_cmp tmp total_ks_cnt >? 0)%Z
      then inl "Value of --skip + --limit must be smaller than total keyspace"%string
      else inr tmp
  else inr total_ks_cnt.

(** Everything [main] prepares before the skip/limit checks. *)
Record setup_t : Type := mk_setup {
  s_db : list db_entry_t;
  s_wordlen_dist : list Z;
  s_total : Z;
  s_orders : list pw_order_t
}.

(** The stages up to "Calculate keyspace stuff": the database, the length
    distribution and [total_ks_cnt]. *)
Definition prepare (p : params) (stdin : list (list byte))
    : list db_entry_t * list Z * Z :=
  let pmin := Z.to_nat (pw_min p) in
  let pmax := Z.to_nat (pw_max p) in
  let db := load_words stdin db_entries_init in
  let db := init_elems pmin pmax (elem_cnt_min p) (elem_cnt_max p) db in
  let wordlen_dist := init_wordlen_dist (wl_dist_len p) db in
  let '(db, total_ks_cnt) := calc_keyspace pmin pmax db in
  (db, wordlen_dist, total_ks_cnt).

(** The two sorts that follow. *)
Definition setup `{libc} (p : params) (stdin : list (list byte)) : setup_t :=
  let pmin := Z.to_nat (pw_min p) in
  let pmax := Z.to_nat (pw_max p) in
  let '(db, wordlen_dist, total_ks_cnt) := prepare p stdin in
  let db := sort_elems pmin pmax db in
  mk_setup db wordlen_dist total_ks_cnt (sort_pw_orders pmin pmax db).

(** [main], after option parsing. [stdin] is the sequence of buffers filled
    by [fgets]; [junk] is the content of uninitialised memory. *)
Definition main `{libc} (fuel : nat) (junk : list byte) (p : params)
    (stdin : list (list byte)) : outcome :=
  match check_params p with
  | Some diagnostic => Failed diagnostic
  | None =>
      if keyspace p then Keyspace (prepare p stdin).2
      else
        let s := setup p stdin in
        match check_skip_limit (skip p) (limit p) (s_total s) with
        | inl diagnostic => Failed diagnostic
        | inr total_ks_cnt =>
            loop fuel junk (s_wordlen_dist s) (skip p) total_ks_cnt
                 (s_orders s) (mk_loop (s_db s) 0%Z (out_init junk))
        end
  end.

(* ================================================================= *)
(** ** Two implementations of [qsort]

    [msort] is the merge sort of the GNU C library ([msort_with_tmp]): the
    array is cut at [n / 2], both halves are sorted, and the merge takes
    from the left half while [compar b1 b2 <= 0]. [isort] is an insertion
    sort that moves an element to the right past everything it is not
    smaller than. *)

Fixpoint merge {A : Type} (compar : A -> A -> Z) (b1 : list A)
    : list A -> list A :=
  fix merge_right (b2 : list A) : list A :=
    match b1, b2 with
    | [], _ => b2
    | _, [] => b1
    | x1 :: b1', x2 :: b2' =>
        if (compar x1 x2 <=? 0)%Z
        then x1 :: merge compar b1' b2
        else x2 :: merge_right b2'
    end.

Fixpoint msort_with_tmp {A : Type} (fuel : nat) (compar : A -> A -> Z)
    (b : list A) : list A :=
  match fuel with
  | 0 => b
  | S fuel' =>
      let n := length b in
      if n <=? 1 then b
      else
        let n1 := n / 2 in
        merge compar (msort_with_tmp fuel' compar (take n1 b))
                     (msort_with_tmp fuel' compar (drop n1 b))
  end.

Definition msort {A : Type} (b : list A) (compar : A -> A -> Z) : list A :=
  msort_with_tmp (length b) compar b.

Fixpoint insert_right {A : Type} (compar : A -> A -> Z) (x : A)
    (b : list A) : list A :=
  match b with
  | [] => [x]
  | y :: b' =>
      if (compar x y <? 0)%Z then x :: b
      else y :: insert_right compar x b'
  end.

Definition isort {A : Type} (b : list A) (compar : A -> A -> Z) : list A :=
  fold_right (insert_right compar) [] b.

(* ================================================================= *)
(** ** Notions used to state the properties *)

(** A composition of [n]: positive parts that sum to [n]. *)
Definition composition (n : nat) (c : list nat) : Prop :=
  Forall (fun part => 1 <= part) c /\ list_sum c = n.

(** The canonical decoding of a split mask, as the specification words it:
    start with [current = 1]; for each bit position, emit [current] and
    reset it to 1 when the bit is set, else increment it; emit the trailing
    [current] after the walk. [s] is the next position, [k] the number of
    positions left. *)
Fixpoint decode_from (mask s k current : nat) : list nat :=
  match k with
  | 0 => [current]
  | S k' =>
      if Nat.testbit mask s
      then current :: decode_from mask (S s) k' 1
      else decode_from mask (S s) k' (current + 1)
  end.

Definition decode (n mask : nat) : list nat := decode_from mask 0 (n - 1) 1.

(** The filters of the chain generator, on a list of parts. *)
Definition kept (db_entries : list db_entry_t) (elem_cnt_min elem_cnt_max : Z)
    (c : list nat) : Prop :=
  Forall (fun part => (0 < words_cnt (db_entries !!! part))%Z) c /\
  (elem_cnt_min <= Z.of_nat (length c) <= elem_cnt_max)%Z.

(** The word bucket [B_k]: the [k] bytes of every word stored for length
    [k], in insertion order. *)
Definition bucket (db_entries : list db_entry_t) (k : nat)
    : list (list byte) :=
  map (take k) (words_buf (db_entries !!! k)).

(** The product of the bucket sizes of a list of parts. *)
Definition radix_product (db_entries : list db_entry_t) (parts : list nat)
    : Z :=
  fold_right (fun part acc => (words_cnt (db_entries !!! part) * acc)%Z)
             1%Z parts.

(** The mixed-radix digit of position [p] for part [i] of a chain:
    [p] divided by the product of the radices before [i], modulo the radix
    of part [i]. *)
Definition digit (db_entries : list db_entry_t) (parts : list nat) (p : Z)
    (i : nat) : Z :=
  ((p / radix_product db_entries (take i parts))
     mod words_cnt (db_entries !!! (parts !!! i)))%Z.

(** The candidate of a chain at position [p]: the concatenation of the
    words selected by the digits. *)
Definition candidate (db_entries : list db_entry_t) (parts : list nat)
    (p : Z) : list byte :=
  concat
    (map (fun i =>
            bucket db_entries (parts !!! i)
              !!! Z.to_nat (digit db_entries parts p i))
         (seq 0 (length parts))).

(* ================================================================= *)
(** ** Notions used in the proofs *)

(** Decoding a list of split bits. *)
Fixpoint walk (bits : list bool) (current : nat) : list nat :=
  match bits with
  | [] => [current]
  | true :: bits' => current :: walk bits' 1
  | false :: bits' => walk bits' (current + 1)
  end.

(** The split bits of a composition. *)
Fixpoint split_bits (c : list nat) : list bool :=
  match c with
  | [] => []
  | [part] => replicate (part - 1) false
  | part :: c' => replicate (part - 1) false ++ true :: split_bits c'
  end.

(** The mask with given bits, least significant first. *)
Fixpoint mask_of (bits : list bool) : nat :=
  match bits with
  | [] => 0
  | b :: bits' => 2 * mask_of bits' + Nat.b2n b
  end.

(** Entries whose words are all [IN_LEN_MAX] bytes long. *)
Definition words_ok (db_entries : list db_entry_t) : Prop :=
  forall k word, In word (words_buf (db_entries !!! k)) ->
                 length word = IN_LEN_MAX.

(** Two databases with the same words. *)
Definition same_words (db db' : list db_entry_t) : Prop :=
  length db' = length db /\
  forall k, words_buf (db' !!! k) = words_buf (db !!! k).

(** The three filters together. *)
Definition keepb (db_entries : list db_entry_t) (elem_cnt_min elem_cnt_max : Z)
    (e : elem_t) : bool :=
  elem_valid_with_db e db_entries &&
  elem_valid_with_cnt_min e elem_cnt_min &&
  elem_valid_with_cnt_max e elem_cnt_max.

(** The chains a length gets: the kept elements, by increasing index. *)
Definition kept_elems (db : list db_entry_t) (lo hi : Z) (pw_len : nat)
    : list elem_t :=
  List.filter (keepb db lo hi)
    (map (elem_gen_with_idx (pw_len - 1)) (seq 0 (2 ^ (pw_len - 1)))).

(** The sum of the [ks_cnt] of a list of elements. *)
Definition sum_ks (es : list elem_t) : Z :=
  fold_right (fun e acc => (ks_cnt e + acc)%Z) 0%Z es.

(** The keyspace stage adds the product of the bucket sizes to [ks_cnt]. *)
Definition add_ks (db : list db_entry_t) (e : elem_t) : elem_t :=
  set_ks_cnt e (ks_cnt e + radix_product db (buf e))%Z.

Definition sum_products (db : list db_entry_t) (es : list elem_t) : Z :=
  fold_right (fun e acc => (radix_product db (buf e) + acc)%Z) 0%Z es.

(** The entry of a length after the keyspace stage. *)
Definition keyspace_entry (db : list db_entry_t) (n : nat) (d : db_entry_t)
    : db_entry_t :=
  set_elems d (map (add_ks db) (elems_buf d)).

(** The total over the lengths of a list. *)
Definition total_products (db : list db_entry_t) (lens : list nat) : Z :=
  fold_right
    (fun n acc => (sum_products db (elems_buf (db !!! n)) + acc)%Z) 0%Z lens.

(** What holds of every chain stored for length [n]. *)
Record chain_ok (db : list db_entry_t) (lo hi : Z) (n : nat) (e : elem_t)
    : Prop := {
  chain_composition : composition n (buf e);
  chain_kept : kept db lo hi (buf e);
  chain_ks_cnt : ks_cnt e = radix_product db (buf e);
  chain_ks_pos : ks_pos e = 0%Z
}.

(** The bytes [elem_set_pwbuf] writes for the parts [parts] from position
    [pos]: digit by digit, dividing as it goes. *)
Fixpoint written_bytes (db : list db_entry_t) (parts : list nat) (pos : Z)
    : list byte :=
  match parts with
  | [] => []
  | k :: parts' =>
      let radix := words_cnt (db !!! k) in
      (bucket db k !!! Z.to_nat (pos mod radix)%Z)
        ++ written_bytes db parts' (pos / radix)%Z
  end.

(** The bytes pushed but not yet written. *)
Definition pending (out : out_t) : list byte := take (olen out) (obuf out).

(** Everything pushed so far, written or not. *)
Definition pushed (out : out_t) : list byte := fp out ++ pending out.

(** The line of chain [e] at position [q]. *)
Definition line_at (db : list db_entry_t) (e : elem_t) (q : Z) : list byte :=
  candidate db (buf e) q ++ [x0a].

(** The lines of a batch of [k] positions of chain [e]. *)
Definition batch_lines (db : list db_entry_t) (e : elem_t) (k : Z)
    : list (list byte) :=
  map (fun i => line_at db e (ks_pos e + Z.of_nat i)%Z) (seq 0 (Z.to_nat k)).

(** One turn of the [for] loop: the new database and position, the lines
    visited and the [break] flag. *)
Definition visit (wordlen_dist : list Z) (total_ks_cnt : Z)
    (st : list db_entry_t * Z) (o : pw_order_t)
    : list db_entry_t * Z * list (list byte) * bool :=
  let '(db, pos) := st in
  let d := db !!! len o in
  match elems_buf d !! elems_pos d with
  | None => (db, pos, [], false)
  | Some e =>
      let k := batch_size e (wordlen_dist !!! len o) (total_ks_cnt - pos)%Z in
      (<[len o := advance d e k]> db, (pos + k)%Z, batch_lines db e k,
       (pos + k =? total_ks_cnt)%Z)
  end.

Fixpoint visits (wordlen_dist : list Z) (total_ks_cnt : Z)
    (os : list pw_order_t) (st : list db_entry_t * Z)
    : list db_entry_t * Z * list (list byte) :=
  match os with
  | [] => (st, [])
  | o :: os' =>
      let '(db1, pos1, lines1, brk) := visit wordlen_dist total_ks_cnt st o in
      if brk then (db1, pos1, lines1)
      else
        let '(st2, lines2) :=
          visits wordlen_dist total_ks_cnt os' (db1, pos1) in
        (st2, lines1 ++ lines2)
  end.

(** At most [fuel] rounds; the flag tells whether the loop has ended. *)
Fixpoint rounds (fuel : nat) (wordlen_dist : list Z) (total_ks_cnt : Z)
    (os : list pw_order_t) (st : list db_entry_t * Z)
    : list db_entry_t * Z * list (list byte) * bool :=
  if (st.2 <? total_ks_cnt)%Z then
    match fuel with
    | 0 => (st, [], false)
    | S fuel' =>
        let '(st1, lines1) := visits wordlen_dist total_ks_cnt os st in
        let '(st2, lines2, fin) :=
          rounds fuel' wordlen_dist total_ks_cnt os st1 in
        (st2, lines1 ++ lines2, fin)
    end
  else (st, [], true).

(** What stays true of an entry while the loop runs: the current chain is
    inside its keyspace, every other chain is at position 0. *)
Record entry_ok (d : db_entry_t) : Prop := {
  entry_pos : elems_pos d <= elems_cnt d;
  entry_ks : Forall (fun e => (0 < ks_cnt e)%Z) (elems_buf d);
  entry_current :
    forall e, elems_buf d !! elems_pos d = Some e ->
              (0 <= ks_pos e < ks_cnt e)%Z;
  entry_rest :
    forall i e, elems_buf d !! i = Some e -> i <> elems_pos d ->
                ks_pos e = 0%Z
}.

(** The chains of the entry of length [n] are compositions of [n] over
    non-empty buckets. *)
Definition chains_of (db : list db_entry_t) (n : nat) : Prop :=
  Forall (fun parts =>
            composition n parts /\
            Forall (fun k => (0 < words_cnt (db !!! k))%Z) parts)
         (map buf (elems_buf (db !!! n))).

(** The positions the entry of a length can still give. *)
Definition remaining_of (d : db_entry_t) : Z :=
  (sum_ks (drop (elems_pos d) (elems_buf d))
   - match elems_buf d !! elems_pos d with
     | Some e => ks_pos e
     | None => 0
     end)%Z.

Definition remaining (db : list db_entry_t) (lens : list nat) : Z :=
  fold_right (fun n acc => (remaining_of (db !!! n) + acc)%Z) 0%Z lens.

(** [params] with another window. *)
Definition with_window (p : params) (skip limit : Z) : params :=
  mk_params (keyspace p) (pw_min p) (pw_max p) (elem_cnt_min p)
            (elem_cnt_max p) (wl_dist_len p) skip limit.

(** A call on the output buffer. *)
Inductive out_op : Type :=
| Push (pw_buf : list byte) (pw_len : nat)
| Flush.

(** Every write of a sequence of calls stays inside [out->buf]. *)
Fixpoint writes_in_bounds `{libc} (out : out_t) (ops : list out_op) : Prop :=
  match ops with
  | [] => True
  | Push pw_buf pw_len :: ops' =>
      olen out + pw_len <= BUFSIZ /\
      match out_push out pw_buf pw_len with
      | Some out' => writes_in_bounds out' ops'
      | None => False
      end
  | Flush :: ops' => writes_in_bounds (out_flush out) ops'
  end.

(** A push of a line: at most [IN_LEN_MAX + 1] bytes, all inside the source
    buffer. *)
Definition line_push (op : out_op) : Prop :=
  match op with
  | Push pw_buf pw_len => pw_len <= IN_LEN_MAX + 1 /\ pw_len <= length pw_buf
  | Flush => True
  end.

(** C4, the failing input: the word "a", [--pw-min=2 --pw-max=2] and
    [--wl-dist-len]. The chain (1,1) is stored and the keyspace is 1, but
    the priority of length 2 is the number of words of length 2, which is
    0: every batch is empty and the loop never ends. *)
Definition stall_params : params := mk_params false 2 2 1 8 true 0 0.
Definition stall_stdin : list (list byte) := [list_byte_of_string "a"].

(** The order [qsort] sorts by: the sign of the comparison function. *)
Definition le_compar {A : Type} (compar : A -> A -> Z) (x y : A) : Prop :=
  (compar x y <= 0)%Z.

(** The order of a key. *)
Definition le_key {A : Type} (key : A -> Z) (x y : A) : Prop :=
  (key x <= key y)%Z.

(** The chains of length [n] as the keyspace stage leaves them: in
    generation order, with their keyspace. *)
Definition unsorted_elems (p : params) (stdin : list (list byte)) (n : nat)
    : list elem_t :=
  let loaded := load_words stdin db_entries_init in
  map (add_ks loaded)
      (kept_elems loaded (elem_cnt_min p) (elem_cnt_max p) n).

(** The state of [out] between two calls. *)
Definition out_ok `{libc} (out : out_t) : Prop :=
  length (obuf out) = BUFSIZ /\ olen out + 100 < BUFSIZ.

(** The databases the loop goes through: the words and the parts of the
    chains are those of [db0], the database left by the setup. *)
Record db_inv (db0 : list db_entry_t) (lens : list nat)
    (db : list db_entry_t) : Prop := {
  inv_words : same_words db0 db;
  inv_entry : forall n, In n lens -> entry_ok (db !!! n);
  inv_bufs :
    forall n, In n lens ->
      map buf (elems_buf (db !!! n)) = map buf (elems_buf (db0 !!! n))
}.

(** The state of the loop between two turns. *)
Record loop_inv `{libc} (db0 : list db_entry_t) (lens : list nat)
    (total_ks_cnt : Z) (st : loop_t) : Prop := {
  linv_db : db_inv db0 lens (l_db st);
  linv_pos : (l_pos st <= total_ks_cnt)%Z;
  linv_out : out_ok (l_out st);
  linv_pending : pending (l_out st) = []
}.

(** Every length that has chains has a positive priority: the loop makes
    progress on it. *)
Definition priorities_positive `{libc} (p : params)
    (stdin : list (list byte)) : Prop :=
  let s := setup p stdin in
  forall n,
    In n (pw_lens (Z.to_nat (pw_min p)) (Z.to_nat (pw_max p))) ->
    elems_buf (s_db s !!! n) <> [] ->
    (0 < s_wordlen_dist s !!! n)%Z.

(** The lines the loop visits when it runs up to [total_ks_cnt]. *)
Definition visited `{libc} (p : params) (stdin : list (list byte))
    (total_ks_cnt : Z) : list (list byte) :=
  let s := setup p stdin in
  (rounds (Z.to_nat total_ks_cnt) (s_wordlen_dist s) total_ks_cnt
          (s_orders s) (s_db s, 0%Z)).1.2.

(* ================================================================= *)
(** ** More notions used to state properties *)

(** Running a sequence of calls on the output buffer; [None] is a fault. *)
Fixpoint out_run `{libc} (out : out_t) (ops : list out_op) : option out_t :=
  match ops with
  | [] => Some out
  | Push pw_buf pw_len :: ops' =>
      match out_push out pw_buf pw_len with
      | None => None
      | Some out' => out_run out' ops'
      end
  | Flush :: ops' => out_run (out_flush out) ops'
  end.

(** The bytes a call hands over. *)
Definition op_bytes (op : out_op) : list byte :=
  match op with
  | Push pw_buf pw_len => take pw_len pw_buf
  | Flush => []
  end.

(** The index that encodes a composition: bit [s] is set when a part ends
    after [s + 1] letters. *)
Definition elems_idx_of (c : list nat) : nat := mask_of (split_bits c).

(** The digits of a position, one per part. *)
Definition digits (db_entries : list db_entry_t) (parts : list nat) (p : Z)
    : list Z :=
  map (digit db_entries parts p) (seq 0 (length parts)).

(** The position with given digits. *)
Fixpoint position_of (db_entries : list db_entry_t) (parts : list nat)
    (idxs : list Z) : Z :=
  match parts, idxs with
  | part :: parts', idx :: idxs' =>
      (idx + words_cnt (db_entries !!! part)
             * position_of db_entries parts' idxs')%Z
  | _, _ => 0%Z
  end.

(** The words with given indices in the buckets of the parts, joined. *)
Definition selection (db_entries : list db_entry_t) (parts : list nat)
    (idxs : list Z) : list byte :=
  concat (zip_with (fun part idx => bucket db_entries part !!! Z.to_nat idx)
                   parts idxs).

(** All the lines of a chain, by position. *)
Definition chain_lines (db : list db_entry_t) (e : elem_t)
    : list (list byte) :=
  map (fun q => line_at db e (Z.of_nat q)) (seq 0 (Z.to_nat (ks_cnt e))).

(** All the lines of the chains stored for the lengths of a list. *)
Definition all_lines (db : list db_entry_t) (lens : list nat)
    : list (list byte) :=
  concat (map (fun n => concat (map (chain_lines db) (elems_buf (db !!! n))))
              lens).

(** The lines a chain has still to give. *)
Definition pending_lines (db : list db_entry_t) (e : elem_t)
    : list (list byte) :=
  batch_lines db e (ks_cnt e - ks_pos e).

(** The lines an entry has still to give: those of its current chain and
    of the chains after it. *)
Definition rest_of (db : list db_entry_t) (d : db_entry_t)
    : list (list byte) :=
  concat (map (pending_lines db) (drop (elems_pos d) (elems_buf d))).

Definition rest_lines (db0 : list db_entry_t) (lens : list nat)
    (db : list db_entry_t) : list (list byte) :=
  concat (map (fun n => rest_of db0 (db !!! n)) lens).

(** The lines a window cuts out of the lines of the full run. *)
Definition window (sk lim : Z) (lines : list (list byte))
    : list (list byte) :=
  if (lim =? 0)%Z then drop (Z.to_nat sk) lines
  else take (Z.to_nat lim) (drop (Z.to_nat sk) lines).

(* ================================================================= *)
(** ** The database with its allocation counters

    The entries above leave out [words_alloc] and [elems_alloc] and take an
    array for its filled prefix. Here the arrays are as allocated, and the
    words and chains are stored as the source stores them: after
    [check_realloc_words] or [check_realloc_elems], in the slot at index
    [words_cnt] or [elems_cnt]. *)

Module Alloc.

Definition ALLOC_NEW_WORDS : nat := Z.to_nat 0x40000.
Definition ALLOC_NEW_ELEMS : nat := Z.to_nat 0x10.

(** What the program takes from the allocator. [realloc] may fail; when it
    succeeds the new array has the size asked for and the old content up to
    the smaller of the two sizes; the rest is unspecified. *)
Class heap : Type := {
  realloc : forall {A : Type} `{Inhabited A}, list A -> nat -> option (list A);
  realloc_length :
    forall (A : Type) (I : Inhabited A) (ptr new : list A) (n : nat),
      realloc ptr n = Some new -> length new = n;
  realloc_content :
    forall (A : Type) (I : Inhabited A) (ptr new : list A) (n : nat),
      realloc ptr n = Some new -> take (length ptr) new = take n ptr
}.

(** How a step that can end the program ends. *)
Inductive result (A : Type) : Type :=
| Fault                        (* an access outside an array *)
| Exit (diagnostic : string)   (* [exit (-1)] after a message on stderr *)
| Ok (a : A).

Arguments Fault {A}.
Arguments Exit {A} diagnostic.
Arguments Ok {A} a.

(** [db_entry_t], all fields; a NULL array is the empty list. *)
Record db_entry_t : Type := mk_db_entry {
  words_buf : list word_t;
  words_cnt : nat;
  words_alloc : nat;
  elems_buf : list elem_t;
  elems_cnt : nat;
  elems_pos : nat;
  elems_alloc : nat
}.

Definition db_entry_zero : db_entry_t := mk_db_entry [] 0 0 [] 0 0 0.

#[global] Instance entry_inhabited : Inhabited db_entry_t :=
  populate db_entry_zero.

(** [memset (&buf[off], 0, n * sizeof (buf[0]))] *)
Definition memset {A : Type} (buf : list A) (off n : nat) (zero : A)
    : option (list A) :=
  if off + n <=? length buf
  then Some (take off buf ++ replicate n zero ++ drop (off + n) buf)
  else None.

(** A zeroed [elem_t]. *)
Definition elem_zero : elem_t := mk_elem [] 0 0.

Definition check_realloc_words `{heap} (db_entry : db_entry_t)
    : result db_entry_t :=
  if words_cnt db_entry =? words_alloc db_entry then
    let words_alloc := words_alloc db_entry in
    let words_alloc_new := words_alloc + ALLOC_NEW_WORDS in
    match realloc (words_buf db_entry) words_alloc_new with
    | None => Exit "Out of memory!"
    | Some words_buf =>
        match memset words_buf words_alloc ALLOC_NEW_WORDS word_zero with
        | None => Fault
        | Some words_buf =>
            Ok (mk_db_entry words_buf (words_cnt db_entry) words_alloc_new
                            (elems_buf db_entry) (elems_cnt db_entry)
                            (elems_pos db_entry) (elems_alloc db_entry))
        end
    end
  else Ok db_entry.

Definition check_realloc_elems `{heap} (db_entry : db_entry_t)
    : result db_entry_t :=
  if elems_cnt db_entry =? elems_alloc db_entry then
    let elems_alloc := elems_alloc db_entry in
    let elems_alloc_new := elems_alloc + ALLOC_NEW_ELEMS in
    match realloc (elems_buf db_entry) elems_alloc_new with
    | None => Exit "Out of memory!"
    | Some elems_buf =>
        match memset elems_buf elems_alloc ALLOC_NEW_ELEMS elem_zero with
        | None => Fault
        | Some elems_buf =>
            Ok (mk_db_entry (words_buf db_entry) (words_cnt db_entry)
                            (words_alloc db_entry) elems_buf
                            (elems_cnt db_entry) (elems_pos db_entry)
                            elems_alloc_new)
        end
    end
  else Ok db_entry.

(** Body of the reading loop of [main], for one line returned by
    [fgets]. *)
Definition load_line `{heap} (db_entries : list db_entry_t)
    (line : list byte) : result (list db_entry_t) :=
  let '(input_buf, input_len) := in_superchop line in
  if input_len <? IN_LEN_MIN then Ok db_entries
  else if IN_LEN_MAX <? input_len then Ok db_entries
  else
    match db_entries !! input_len with
    | None => Fault
    | Some db_entry =>
        match check_realloc_words db_entry with
        | Fault => Fault
        | Exit diagnostic => Exit diagnostic
        | Ok db_entry =>
            match words_buf db_entry !! words_cnt db_entry with
            | None => Fault
            | Some word_buf =>
                match memcpy word_buf 0 input_buf input_len with
                | None => Fault
                | Some word_buf =>
                    Ok (<[input_len :=
                          mk_db_entry
                            (<[words_cnt db_entry := word_buf]>
                               (words_buf db_entry))
                            (words_cnt db_entry + 1) (words_alloc db_entry)
                            (elems_buf db_entry) (elems_cnt db_entry)
                            (elems_pos db_entry) (elems_alloc db_entry)]>
                          db_entries)
                end
            end
        end
    end.

Fixpoint load_words `{heap} (stdin : list (list byte))
    (db_entries : list db_entry_t) : result (list db_entry_t) :=
  match stdin with
  | [] => Ok db_entries
  | line :: stdin' =>
      match load_line db_entries line with
      | Fault => Fault
      | Exit diagnostic => Exit diagnostic
      | Ok db_entries => load_words stdin' db_entries
      end
  end.

(** [calloc (IN_LEN_MAX + 1, sizeof (db_entry_t))] *)
Definition db_entries_init : list db_entry_t :=
  replicate (IN_LEN_MAX + 1) db_entry_zero.

Definition elem_valid_with_db (elem_buf : elem_t)
    (db_entries : list db_entry_t) : bool :=
  forallb (fun elem_key => negb (words_cnt (db_entries !!! elem_key) =? 0))
          (buf elem_buf).

(** Body of the inner loop of "init elems". *)
Definition init_elems_idx `{heap} (elem_cnt_min elem_cnt_max : Z)
    (pw_len : nat) (st : result (list db_entry_t)) (elems_idx : nat)
    : result (list db_entry_t) :=
  match st with
  | Fault => Fault
  | Exit diagnostic => Exit diagnostic
  | Ok db_entries =>
      let elem_buf_new := elem_gen_with_idx (pw_len - 1) elems_idx in
      if negb (elem_valid_with_db elem_buf_new db_entries) then Ok db_entries
      else if negb (elem_valid_with_cnt_min elem_buf_new elem_cnt_min)
      then Ok db_entries
      else if negb (elem_valid_with_cnt_max elem_buf_new elem_cnt_max)
      then Ok db_entries
      else
        match db_entries !! pw_len with
        | None => Fault
        | Some db_entry =>
            match check_realloc_elems db_entry with
            | Fault => Fault
            | Exit diagnostic => Exit diagnostic
            | Ok db_entry =>
                if elems_cnt db_entry <? length (elems_buf db_entry) then
                  let elem_buf :=
                    set_ks_pos (set_ks_cnt elem_buf_new 0%Z) 0%Z in
                  Ok (<[pw_len :=
                        mk_db_entry
                          (words_buf db_entry) (words_cnt db_entry)
                          (words_alloc db_entry)
                          (<[elems_cnt db_entry := elem_buf]>
                             (elems_buf db_entry))
                          (elems_cnt db_entry + 1) (elems_pos db_entry)
                          (elems_alloc db_entry)]> db_entries)
                else Fault
            end
        end
  end.

Definition init_elems `{heap} (pw_min pw_max : nat)
    (elem_cnt_min elem_cnt_max : Z) (db_entries : list db_entry_t)
    : result (list db_entry_t) :=
  fold_left
    (fun st pw_len =>
       fold_left (init_elems_idx elem_cnt_min elem_cnt_max pw_len)
                 (seq 0 (Nat.shiftl 1 (pw_len - 1))) st)
    (pw_lens pw_min pw_max) (Ok db_entries).

(** What the stages keep true of an entry: the counters tell the sizes of
    the arrays, the arrays grow by whole chunks and only when full, and the
    word slots not yet used are zero. *)
Record entry_ok (db_entry : db_entry_t) : Prop := {
  words_length : length (words_buf db_entry) = words_alloc db_entry;
  words_bound :
    words_cnt db_entry <= words_alloc db_entry
    /\ words_alloc db_entry < words_cnt db_entry + ALLOC_NEW_WORDS;
  words_chunks : Nat.divide ALLOC_NEW_WORDS (words_alloc db_entry);
  words_fresh :
    Forall (fun word_buf => word_buf = word_zero)
           (drop (words_cnt db_entry) (words_buf db_entry));
  elems_length : length (elems_buf db_entry) = elems_alloc db_entry;
  elems_bound :
    elems_cnt db_entry <= elems_alloc db_entry
    /\ elems_alloc db_entry < elems_cnt db_entry + ALLOC_NEW_ELEMS;
  elems_chunks : Nat.divide ALLOC_NEW_ELEMS (elems_alloc db_entry)
}.

End Alloc.

(** The entry without its counters: the filled prefixes of the arrays. *)
Definition filled (db_entry : Alloc.db_entry_t) : db_entry_t :=
  mk_db_entry
    (take (Alloc.words_cnt db_entry) (Alloc.words_buf db_entry))
    (take (Alloc.elems_cnt db_entry) (Alloc.elems_buf db_entry))
    (Alloc.elems_pos db_entry).

(* ================================================================= *)
(** * Lemmas *)

(** ** The two sorts satisfy the contract of [qsort] *)

Section Sorts.
Context {A : Type} (compar : A -> A -> Z).

Lemma merge_nil_r (b1 : list A) : merge compar b1 [] = b1.
Proof. destruct b1; reflexivity. Qed.

Lemma merge_cons (x1 x2 : A) (b1 b2 : list A) :
  merge compar (x1 :: b1) (x2 :: b2) =
  if (compar x1 x2 <=? 0)%Z
  then x1 :: merge compar b1 (x2 :: b2)
  else x2 :: merge compar (x1 :: b1) b2.
Proof. reflexivity. Qed.

Lemma merge_Permutation (b1 b2 : list A) :
  Permutation (merge compar b1 b2) (b1 ++ b2).
Proof.
  revert b2. induction b1 as [|x1 b1 IH1]; intros b2.
  - destruct b2; reflexivity.
  - induction b2 as [|x2 b2 IH2].
    + rewrite merge_nil_r, app_nil_r. reflexivity.
    + rewrite merge_cons. destruct (compar x1 x2 <=? 0)%Z.
      * simpl. constructor. apply IH1.
      * rewrite IH2. apply Permutation_middle.
Qed.

Lemma msort_with_tmp_Permutation (fuel : nat) (b : list A) :
  Permutation (msort_with_tmp fuel compar b) b.
Proof.
  revert b. induction fuel as [|fuel IH]; intros b; cbn [msort_with_tmp];
    [reflexivity|].
  destruct (length b <=? 1); [reflexivity|].
  rewrite merge_Permutation, !IH, take_drop. reflexivity.
Qed.

Lemma insert_right_Permutation (x : A) (b : list A) :
  Permutation (insert_right compar x b) (x :: b).
Proof.
  induction b as [|y b IH]; simpl; [reflexivity|].
  destruct (compar x y <? 0)%Z; [reflexivity|].
  rewrite IH. apply perm_swap.
Qed.

Lemma isort_Permutation (b : list A) : Permutation (isort b compar) b.
Proof.
  induction b as [|x b IH]; simpl; [reflexivity|].
  unfold isort in IH. rewrite insert_right_Permutation, IH. reflexivity.
Qed.

(** Sortedness only needs the sign of [compar] to be total. *)
Hypothesis le_total : forall x y, le_compar compar x y \/ le_compar compar y x.

Lemma merge_HdRel (x : A) (b1 b2 : list A) :
  HdRel (le_compar compar) x b1 -> HdRel (le_compar compar) x b2 ->
  HdRel (le_compar compar) x (merge compar b1 b2).
Proof.
  intros H1 H2. destruct b1 as [|x1 b1]; [destruct b2; exact H2|].
  destruct b2 as [|x2 b2]; [exact H1|].
  rewrite merge_cons. inversion H1; inversion H2; subst.
  destruct (compar x1 x2 <=? 0)%Z; constructor; assumption.
Qed.

Lemma merge_Sorted (b1 b2 : list A) :
  Sorted (le_compar compar) b1 -> Sorted (le_compar compar) b2 ->
  Sorted (le_compar compar) (merge compar b1 b2).
Proof.
  revert b2. induction b1 as [|x1 b1 IH1]; intros b2 S1 S2.
  - destruct b2; exact S2.
  - induction b2 as [|x2 b2 IH2]; [rewrite merge_nil_r; exact S1|].
    rewrite merge_cons.
    destruct (compar x1 x2 <=? 0)%Z eqn:E.
    + inversion S1; subst. constructor; [apply IH1; assumption|].
      apply merge_HdRel; [assumption|].
      constructor. unfold le_compar. lia.
    + inversion S2; subst. constructor; [apply IH2; assumption|].
      apply merge_HdRel; [|assumption].
      constructor. destruct (le_total x1 x2) as [H|H]; [|exact H].
      unfold le_compar in H. lia.
Qed.

Lemma msort_with_tmp_Sorted (fuel : nat) (b : list A) :
  length b <= fuel -> Sorted (le_compar compar) (msort_with_tmp fuel compar b).
Proof.
  revert b. induction fuel as [|fuel IH]; intros b Hb; cbn [msort_with_tmp].
  - destruct b; [constructor|simpl in Hb; lia].
  - destruct (length b <=? 1) eqn:E.
    + apply Nat.leb_le in E. destruct b as [|x [|y b]]; simpl in E;
        [constructor|repeat constructor|lia].
    + apply Nat.leb_gt in E.
      assert (Hdiv : 1 <= length b / 2 < length b).
      { split; [apply Nat.div_le_lower_bound; lia
               |apply Nat.div_lt; lia]. }
      apply merge_Sorted; apply IH.
      * rewrite length_take. lia.
      * rewrite length_drop. lia.
Qed.

Lemma msort_Sorted (b : list A) : Sorted (le_compar compar) (msort b compar).
Proof. apply msort_with_tmp_Sorted. lia. Qed.

End Sorts.

Section InsertionSort.
Context {A : Type} (compar : A -> A -> Z).
Hypothesis compar_consistent : consistent compar.

Lemma insert_right_Sorted (x : A) (b : list A) :
  Sorted (le_compar compar) b ->
  Sorted (le_compar compar) (insert_right compar x b).
Proof.
  destruct compar_consistent as [Hsym _].
  induction b as [|y b IH]; intros S; simpl; [repeat constructor|].
  destruct (compar x y <? 0)%Z eqn:E.
  - apply Z.ltb_lt in E. constructor; [exact S|]. constructor.
    unfold le_compar. lia.
  - inversion S as [|? ? S' Hd]; subst. constructor; [apply IH; exact S'|].
    assert (Hyx : le_compar compar y x).
    { unfold le_compar. apply Z.ltb_ge in E. specialize (Hsym x y). lia. }
    destruct b as [|z b]; simpl.
    + constructor. exact Hyx.
    + destruct (compar x z <? 0)%Z; constructor; [exact Hyx|].
      inversion Hd; assumption.
Qed.

Lemma isort_Sorted (b : list A) : Sorted (le_compar compar) (isort b compar).
Proof.
  induction b as [|x b IH]; simpl; [constructor|].
  apply insert_right_Sorted, IH.
Qed.
End InsertionSort.

Lemma consistent_total {A : Type} (compar : A -> A -> Z) :
  consistent compar ->
  forall x y, le_compar compar x y \/ le_compar compar y x.
Proof.
  intros [Hsym _] x y. unfold le_compar.
  destruct (Z_le_gt_dec (compar x y) 0) as [H|H]; [left; exact H|right].
  specialize (Hsym y x). lia.
Qed.

(** The C library of a GNU system: [BUFSIZ] is 8192 and [qsort] is the
    merge sort. *)
#[local] Program Instance glibc : libc := {|
  BUFSIZ := Z.to_nat 8192;
  qsort := @msort
|}.
Next Obligation. lia. Qed.
Next Obligation. intros. apply msort_with_tmp_Permutation. Qed.
Next Obligation.
  intros A b compar Hc. apply msort_Sorted, consistent_total, Hc.
Qed.

(** A C library with the smallest [BUFSIZ] and the insertion sort. *)
#[local] Program Instance small_libc : libc := {|
  BUFSIZ := 256;
  qsort := @isort
|}.
Next Obligation. lia. Qed.
Next Obligation. intros. apply isort_Permutation. Qed.
Next Obligation. intros A b compar Hc. apply isort_Sorted, Hc. Qed.

(** ** Sorting on a key

    When the sign of [compar] compares a key, [qsort] orders by the key, and
    the merge sort keeps elements of equal key in their original order. *)

Section KeySort.
Context {A : Type} (key : A -> Z) (compar : A -> A -> Z).
Hypothesis compar_key :
  forall x y, (compar x y <= 0)%Z <-> (key x <= key y)%Z.

Lemma le_key_trans : Relations_1.Transitive (le_key key).
Proof. intros x y z. unfold le_key. lia. Qed.

Lemma le_compar_key_total (x y : A) :
  le_compar compar x y \/ le_compar compar y x.
Proof.
  unfold le_compar. rewrite !compar_key.
  destruct (Z_le_gt_dec (key x) (key y)); [left|right]; lia.
Qed.

Lemma Sorted_compar_key (l : list A) :
  Sorted (le_compar compar) l -> StronglySorted (le_key key) l.
Proof.
  intros S. apply Sorted_StronglySorted; [exact le_key_trans|].
  eapply Sorted_ind with (P := fun l => Sorted (le_key key) l);
    [constructor| |exact S].
  intros x l' _ IH Hd. constructor; [exact IH|].
  destruct Hd; constructor. apply compar_key. assumption.
Qed.

Lemma msort_with_tmp_key (fuel : nat) (b : list A) :
  length b <= fuel -> StronglySorted (le_key key) (msort_with_tmp fuel compar b).
Proof.
  intros Hb. apply Sorted_compar_key, msort_with_tmp_Sorted;
    [exact le_compar_key_total|exact Hb].
Qed.

Variable k : Z.

Let has_key (x : A) : bool := (key x =? k)%Z.

Lemma filter_key_above (x : A) (l : list A) :
  (k < key x)%Z -> Forall ((le_key key) x) l -> List.filter has_key l = [].
Proof.
  intros Hx Hl. induction Hl as [|y l Hy _ IH]; [reflexivity|].
  simpl. rewrite IH. unfold has_key, le_key in *.
  destruct (Z.eqb_spec (key y) k); [lia|reflexivity].
Qed.

Lemma merge_filter_key (b1 b2 : list A) :
  StronglySorted (le_key key) b1 ->
  List.filter has_key (merge compar b1 b2) =
  List.filter has_key b1 ++ List.filter has_key b2.
Proof.
  revert b2. induction b1 as [|x1 b1 IH1]; intros b2 S1.
  - destruct b2; reflexivity.
  - induction b2 as [|x2 b2 IH2].
    + rewrite merge_nil_r, app_nil_r. reflexivity.
    + rewrite merge_cons. inversion S1 as [|? ? S1' F1]; subst.
      destruct (compar x1 x2 <=? 0)%Z eqn:E.
      * cbn [List.filter]. rewrite IH1 by exact S1'.
        destruct (has_key x1); reflexivity.
      * apply Z.leb_gt in E.
        assert (Hlt : (key x2 < key x1)%Z).
        { destruct (Z_le_gt_dec (key x1) (key x2)) as [H|H]; [|lia].
          apply compar_key in H. lia. }
        cbn [List.filter] in *. rewrite IH2.
        destruct (has_key x2) eqn:E2; [|reflexivity].
        unfold has_key in E2. apply Z.eqb_eq in E2.
        rewrite (filter_key_above x1 b1) by (assumption || lia).
        unfold has_key at 1 3.
        destruct (Z.eqb_spec (key x1) k); [lia|reflexivity].
Qed.

Lemma msort_with_tmp_stable (fuel : nat) (b : list A) :
  length b <= fuel ->
  List.filter has_key (msort_with_tmp fuel compar b) = List.filter has_key b.
Proof.
  revert b. induction fuel as [|fuel IH]; intros b Hb; cbn [msort_with_tmp];
    [reflexivity|].
  destruct (length b <=? 1) eqn:E; [reflexivity|].
  apply Nat.leb_gt in E.
  assert (Hdiv : 1 <= length b / 2 < length b).
  { split; [apply Nat.div_le_lower_bound; lia|apply Nat.div_lt; lia]. }
  rewrite merge_filter_key
    by (apply msort_with_tmp_key; rewrite length_take; lia).
  rewrite !IH by (rewrite ?length_take, ?length_drop; lia).
  rewrite <- List.filter_app, take_drop. reflexivity.
Qed.

Lemma msort_stable (b : list A) :
  List.filter has_key (msort b compar) = List.filter has_key b.
Proof. apply msort_with_tmp_stable. lia. Qed.
End KeySort.

Lemma sort_by_ks_key (f1 f2 : elem_t) :
  (sort_by_ks f1 f2 <= 0)%Z <-> (ks_cnt f1 <= ks_cnt f2)%Z.
Proof. unfold sort_by_ks, mpz_cmp. lia. Qed.

Lemma sort_by_ks_consistent : consistent sort_by_ks.
Proof. unfold consistent, sort_by_ks, mpz_cmp. split; intros; lia. Qed.

(** [sort_by_cnt] is positive exactly when the first count is the smaller
    one: its sign compares the negated counts. *)
Lemma sort_by_cnt_key (o1 o2 : pw_order_t) :
  (sort_by_cnt o1 o2 <= 0)%Z <-> (- ocnt o1 <= - ocnt o2)%Z.
Proof.
  unfold sort_by_cnt. destruct (Z.ltb_spec (ocnt o1) (ocnt o2)); lia.
Qed.

(* ================================================================= *)
(** ** Chain generation: masks, bits and compositions *)

Lemma split_bit_test (elems_idx elems_shr : nat) :
  negb (Nat.land (Nat.shiftr elems_idx elems_shr) 1 =? 0) =
  Nat.testbit elems_idx elems_shr.
Proof.
  change 1 with (Nat.ones 1) at 1.
  rewrite Nat.land_ones, Nat.shiftr_div_pow2, Nat.pow_1_r.
  rewrite <- Nat.testbit_spec'.
  destruct (Nat.testbit elems_idx elems_shr); reflexivity.
Qed.

(** The loop of [elem_gen_with_idx] computes the canonical decoding, as
    long as [elem_key] stays within a [u8]. *)
Lemma elem_gen_loop (elems_idx k s : nat) (b : list nat) (elem_key : nat) :
  elem_key + k <= 255 ->
  let '(b', elem_key') :=
    fold_left (elem_gen_step elems_idx) (seq s k) (b, elem_key) in
  b' ++ [elem_key'] = b ++ decode_from elems_idx s k elem_key.
Proof.
  revert s b elem_key. induction k as [|k IH]; intros s b elem_key Hk.
  - reflexivity.
  - cbn [seq fold_left decode_from]. unfold elem_gen_step at 2.
    rewrite split_bit_test.
    destruct (Nat.testbit elems_idx s).
    + specialize (IH (S s) (b ++ [elem_key]) 1).
      destruct (fold_left _ _ _) as [b' elem_key'].
      rewrite IH by lia. rewrite <- app_assoc. reflexivity.
    + unfold u8. rewrite Nat.mod_small by lia.
      apply IH. lia.
Qed.

Lemma elem_gen_with_idx_buf (len1 elems_idx : nat) :
  len1 <= 254 ->
  buf (elem_gen_with_idx len1 elems_idx) = decode (S len1) elems_idx.
Proof.
  intros Hlen. unfold elem_gen_with_idx, decode.
  pose proof (elem_gen_loop elems_idx len1 0 [] 1) as H.
  destruct (fold_left _ _ _) as [b' elem_key']. simpl.
  rewrite H by lia. rewrite Nat.sub_0_r. reflexivity.
Qed.

Lemma decode_from_walk (mask s k current : nat) :
  decode_from mask s k current =
  walk (map (Nat.testbit mask) (seq s k)) current.
Proof.
  revert s current. induction k as [|k IH]; intros s current; simpl.
  - reflexivity.
  - destruct (Nat.testbit mask s); rewrite IH; reflexivity.
Qed.

Lemma walk_sum (bits : list bool) (current : nat) :
  list_sum (walk bits current) = current + length bits.
Proof.
  revert current. induction bits as [|[] bits IH]; intros current; simpl.
  - lia.
  - rewrite IH. lia.
  - rewrite IH. lia.
Qed.

Lemma walk_positive (bits : list bool) (current : nat) :
  1 <= current -> Forall (fun part => 1 <= part) (walk bits current).
Proof.
  revert current. induction bits as [|[] bits IH]; intros current Hc; simpl.
  - repeat constructor. exact Hc.
  - constructor; [exact Hc|apply IH; lia].
  - apply IH. lia.
Qed.

Lemma walk_head (bits : list bool) (current : nat) :
  exists part rest, walk bits current = part :: rest /\ current <= part.
Proof.
  revert current. induction bits as [|[] bits IH]; intros current; simpl.
  - eauto.
  - eauto.
  - destruct (IH (current + 1)) as (part & rest & -> & Hle).
    exists part, rest. split; [reflexivity|lia].
Qed.

Lemma walk_inj (bits1 bits2 : list bool) (current : nat) :
  length bits1 = length bits2 ->
  walk bits1 current = walk bits2 current -> bits1 = bits2.
Proof.
  revert bits2 current.
  induction bits1 as [|b1 bits1 IH]; intros [|b2 bits2] current Hlen Hw;
    simpl in Hlen; try discriminate; [reflexivity|].
  injection Hlen as Hlen.
  destruct b1, b2; simpl in Hw.
  - injection Hw as Hw. f_equal. eapply IH; eassumption.
  - destruct (walk_head bits2 (current + 1)) as (part & rest & E & Hle).
    rewrite E in Hw. injection Hw as Hp _. lia.
  - destruct (walk_head bits1 (current + 1)) as (part & rest & E & Hle).
    rewrite E in Hw. injection Hw as Hp _. lia.
  - f_equal. eapply IH; eassumption.
Qed.

Lemma walk_replicate_false (j : nat) (bits : list bool) (current : nat) :
  walk (replicate j false ++ bits) current = walk bits (current + j).
Proof.
  revert current. induction j as [|j IH]; intros current; simpl.
  - f_equal. lia.
  - rewrite IH. f_equal. lia.
Qed.

Lemma walk_split_bits (c : list nat) :
  c <> [] -> Forall (fun part => 1 <= part) c -> walk (split_bits c) 1 = c.
Proof.
  induction c as [|part c IH]; intros Hne Hpos; [congruence|].
  inversion Hpos as [|? ? Hp Hc]; subst.
  destruct c as [|part' c].
  - simpl. rewrite <- (app_nil_r (replicate _ _)), walk_replicate_false.
    simpl. f_equal. lia.
  - change (split_bits (part :: part' :: c))
      with (replicate (part - 1) false ++ true :: split_bits (part' :: c)).
    rewrite walk_replicate_false. cbn [walk].
    rewrite IH by (congruence || assumption). f_equal. lia.
Qed.

Lemma split_bits_length (c : list nat) :
  c <> [] -> Forall (fun part => 1 <= part) c ->
  S (length (split_bits c)) = list_sum c.
Proof.
  induction c as [|part c IH]; intros Hne Hpos; [congruence|].
  inversion Hpos as [|? ? Hp Hc]; subst.
  destruct c as [|part' c].
  - simpl. rewrite length_replicate. lia.
  - change (split_bits (part :: part' :: c))
      with (replicate (part - 1) false ++ true :: split_bits (part' :: c)).
    rewrite length_app, length_replicate. cbn [length list_sum fold_right] in *.
    assert (H := IH ltac:(congruence) Hc). lia.
Qed.

Lemma mask_of_testbit (bits : list bool) (i : nat) :
  Nat.testbit (mask_of bits) i = nth i bits false.
Proof.
  revert i. induction bits as [|b bits IH]; intros i.
  - rewrite Nat.bits_0. destruct i; reflexivity.
  - cbn [mask_of]. destruct i as [|i].
    + rewrite Nat.testbit_0_r. reflexivity.
    + rewrite Nat.testbit_succ_r. apply IH.
Qed.

Lemma mask_of_bound (bits : list bool) : mask_of bits < 2 ^ length bits.
Proof.
  induction bits as [|b bits IH]; cbn [mask_of length]; [simpl; lia|].
  rewrite Nat.pow_succ_r'. destruct b; simpl Nat.b2n; lia.
Qed.

Lemma mask_of_bits (bits : list bool) :
  map (Nat.testbit (mask_of bits)) (seq 0 (length bits)) = bits.
Proof.
  apply nth_ext with (d := false) (d' := false).
  - rewrite length_map, length_seq. reflexivity.
  - intros i Hi. rewrite length_map, length_seq in Hi.
    rewrite nth_indep with (d' := Nat.testbit (mask_of bits) 0)
      by (rewrite length_map, length_seq; exact Hi).
    rewrite map_nth, seq_nth by exact Hi. apply mask_of_testbit.
Qed.

Lemma testbit_high (mask k i : nat) :
  mask < 2 ^ k -> k <= i -> Nat.testbit mask i = false.
Proof.
  intros Hm Hi.
  assert (H := Nat.testbit_spec' mask i).
  rewrite Nat.div_small in H.
  - destruct (Nat.testbit mask i); [discriminate|reflexivity].
  - eapply Nat.lt_le_trans; [exact Hm|].
    apply Nat.pow_le_mono_r; lia.
Qed.

Lemma mask_bits_inj (k mask1 mask2 : nat) :
  mask1 < 2 ^ k -> mask2 < 2 ^ k ->
  map (Nat.testbit mask1) (seq 0 k) = map (Nat.testbit mask2) (seq 0 k) ->
  mask1 = mask2.
Proof.
  intros H1 H2 Hbits. apply Nat.bits_inj. intros i.
  destruct (Nat.lt_ge_cases i k) as [Hi|Hi].
  - assert (E : nth i (map (Nat.testbit mask1) (seq 0 k)) false =
                nth i (map (Nat.testbit mask2) (seq 0 k)) false)
      by (rewrite Hbits; reflexivity).
    rewrite !nth_indep with (d := false) (d' := Nat.testbit mask1 0) in E
      by (rewrite length_map, length_seq; exact Hi).
    rewrite map_nth, seq_nth in E by exact Hi.
    rewrite nth_indep with (d' := Nat.testbit mask2 0) in E
      by (rewrite length_map, length_seq; exact Hi).
    rewrite map_nth, seq_nth in E by exact Hi. exact E.
  - rewrite (testbit_high mask1 k i), (testbit_high mask2 k i) by assumption.
    reflexivity.
Qed.

(** Decoding is a bijection between the masks below [2 ^ (n - 1)] and the
    compositions of [n]. *)
Lemma decode_composition (n mask : nat) :
  1 <= n -> composition n (decode n mask).
Proof.
  intros Hn. unfold decode, composition. rewrite decode_from_walk. split.
  - apply walk_positive. lia.
  - rewrite walk_sum, length_map, length_seq. lia.
Qed.

Lemma decode_inj (n mask1 mask2 : nat) :
  mask1 < 2 ^ (n - 1) -> mask2 < 2 ^ (n - 1) ->
  decode n mask1 = decode n mask2 -> mask1 = mask2.
Proof.
  intros H1 H2. unfold decode. rewrite !decode_from_walk. intros Hw.
  apply (mask_bits_inj (n - 1)); [assumption..|].
  eapply walk_inj; [|exact Hw].
  rewrite !length_map. reflexivity.
Qed.


(* ================================================================= *)
(** ** The database through the stages of [main] *)

Lemma same_words_refl (db : list db_entry_t) : same_words db db.
Proof. split; reflexivity. Qed.

Lemma same_words_trans (db1 db2 db3 : list db_entry_t) :
  same_words db1 db2 -> same_words db2 db3 -> same_words db1 db3.
Proof.
  intros [L1 W1] [L2 W2]. split; [congruence|].
  intros k. rewrite W2. apply W1.
Qed.

Lemma same_words_cnt (db db' : list db_entry_t) (k : nat) :
  same_words db db' -> words_cnt (db' !!! k) = words_cnt (db !!! k).
Proof. intros [_ W]. unfold words_cnt. rewrite W. reflexivity. Qed.

(** Replacing an entry by one with the same words. *)
Lemma same_words_insert (db : list db_entry_t) (n : nat) (d : db_entry_t) :
  words_buf d = words_buf (db !!! n) -> same_words db (<[n := d]> db).
Proof.
  intros Hd. split; [apply length_insert|].
  intros k. rewrite list_lookup_total_insert.
  destruct (decide _) as [[-> _]|_]; [exact Hd|reflexivity].
Qed.

Lemma same_words_ok (db db' : list db_entry_t) :
  same_words db db' -> words_ok db -> words_ok db'.
Proof. intros [_ W] Hok k word. rewrite W. apply Hok. Qed.

Lemma fold_left_same_words {X : Type} (f : list db_entry_t -> X -> list db_entry_t)
    (xs : list X) (db : list db_entry_t) :
  (forall d x, same_words d (f d x)) -> same_words db (fold_left f xs db).
Proof.
  intros Hf. revert db. induction xs as [|x xs IH]; intros db; simpl.
  - apply same_words_refl.
  - eapply same_words_trans; [apply Hf|apply IH].
Qed.

(** *** Loading *)

Lemma superchop_len_le (b : list byte) (len : nat) : superchop_len b len <= len.
Proof.
  induction len as [|len IH]; simpl; [lia|].
  destruct (b !! len) as [c|]; [|lia].
  destruct (Byte.eqb c x0a); [lia|]. destruct (Byte.eqb c x0d); lia.
Qed.

Lemma strlen_le (s : list byte) : strlen s <= length s.
Proof.
  induction s as [|c s IH]; simpl; [lia|].
  destruct (Byte.eqb c x00); lia.
Qed.

Lemma in_superchop_length (b : list byte) :
  length (in_superchop b).1 = (in_superchop b).2.
Proof.
  unfold in_superchop. simpl. rewrite length_take.
  pose proof (superchop_len_le b (strlen b)). pose proof (strlen_le b). lia.
Qed.

Lemma word_of_length (input_buf : list byte) (input_len : nat) :
  length input_buf = input_len -> input_len <= IN_LEN_MAX ->
  length (word_of input_buf input_len) = IN_LEN_MAX.
Proof.
  intros Hl Hm. unfold word_of, word_zero.
  rewrite length_app, length_take, length_drop, length_replicate. lia.
Qed.

Lemma word_of_take (input_buf : list byte) (input_len : nat) :
  length input_buf = input_len ->
  take input_len (word_of input_buf input_len) = input_buf.
Proof.
  intros Hl. unfold word_of.
  rewrite take_app_le by (rewrite length_take; lia).
  rewrite take_take, Nat.min_id. apply take_ge. lia.
Qed.

Lemma load_line_length (db : list db_entry_t) (line : list byte) :
  length (load_line db line) = length db.
Proof.
  unfold load_line. destruct (in_superchop line) as [input_buf input_len].
  destruct (_ <? _); [reflexivity|]. destruct (_ <? _); [reflexivity|].
  apply length_insert.
Qed.

Lemma load_line_words_ok (db : list db_entry_t) (line : list byte) :
  words_ok db -> words_ok (load_line db line).
Proof.
  intros Hok. unfold load_line.
  pose proof (in_superchop_length line) as Hlen.
  destruct (in_superchop line) as [input_buf input_len]. simpl in Hlen.
  destruct (input_len <? IN_LEN_MIN) eqn:E1; [exact Hok|].
  destruct (IN_LEN_MAX <? input_len) eqn:E2; [exact Hok|].
  apply Nat.ltb_ge in E2.
  intros k word. rewrite list_lookup_total_insert.
  destruct (decide _) as [[-> _]|_]; [|apply Hok].
  simpl. rewrite in_app_iff. intros [H|[<-|[]]]; [eapply Hok; exact H|].
  apply word_of_length; assumption.
Qed.

Lemma load_words_length (stdin : list (list byte)) (db : list db_entry_t) :
  length (load_words stdin db) = length db.
Proof.
  revert db. induction stdin as [|line stdin IH]; intros db; simpl;
    [reflexivity|].
  unfold load_words in IH. rewrite IH. apply load_line_length.
Qed.

Lemma load_words_ok (stdin : list (list byte)) (db : list db_entry_t) :
  words_ok db -> words_ok (load_words stdin db).
Proof.
  revert db. induction stdin as [|line stdin IH]; intros db Hok; simpl;
    [exact Hok|].
  apply IH, load_line_words_ok, Hok.
Qed.

Lemma db_entries_init_lookup (k : nat) : db_entries_init !!! k = db_entry_zero.
Proof.
  unfold db_entries_init. destruct (Nat.lt_ge_cases k (IN_LEN_MAX + 1)) as [H|H].
  - apply lookup_total_replicate_2. exact H.
  - rewrite list_lookup_total_alt, lookup_ge_None_2;
      [reflexivity|rewrite length_replicate; exact H].
Qed.

Lemma db_entries_init_ok : words_ok db_entries_init.
Proof. intros k word. rewrite db_entries_init_lookup. intros []. Qed.

(** Loading touches neither [elems_buf] nor [elems_pos]. *)
Lemma load_words_elems (stdin : list (list byte)) (db : list db_entry_t)
    (k : nat) :
  elems_buf (load_words stdin db !!! k) = elems_buf (db !!! k) /\
  elems_pos (load_words stdin db !!! k) = elems_pos (db !!! k).
Proof.
  unfold load_words. revert db.
  induction stdin as [|line stdin IH]; intros db; simpl;
    [split; reflexivity|].
  destruct (IH (load_line db line)) as [-> ->].
  unfold load_line. destruct (in_superchop line) as [input_buf input_len].
  destruct (_ <? _); [split; reflexivity|].
  destruct (_ <? _); [split; reflexivity|].
  rewrite list_lookup_total_insert.
  destruct (decide _) as [[-> _]|_]; split; reflexivity.
Qed.

(** *** Chain generation *)

Lemma init_elems_idx_keepb (elem_cnt_min elem_cnt_max : Z) (pw_len : nat)
    (db : list db_entry_t) (elems_idx : nat) :
  init_elems_idx elem_cnt_min elem_cnt_max pw_len db elems_idx =
  let e := elem_gen_with_idx (pw_len - 1) elems_idx in
  if keepb db elem_cnt_min elem_cnt_max e
  then <[pw_len := add_elem (db !!! pw_len) e]> db
  else db.
Proof.
  unfold init_elems_idx, keepb. cbv zeta.
  destruct (elem_valid_with_db _ _); [|reflexivity].
  destruct (elem_valid_with_cnt_min _ _); [|reflexivity].
  destruct (elem_valid_with_cnt_max _ _); reflexivity.
Qed.

Lemma elem_valid_with_db_same_words (db db' : list db_entry_t) (e : elem_t) :
  same_words db db' -> elem_valid_with_db e db' = elem_valid_with_db e db.
Proof.
  intros Hs. unfold elem_valid_with_db.
  induction (buf e) as [|k ks IH]; simpl; [reflexivity|].
  rewrite IH, (same_words_cnt db db' k Hs). reflexivity.
Qed.

Lemma keepb_same_words (db db' : list db_entry_t) (lo hi : Z) (e : elem_t) :
  same_words db db' -> keepb db' lo hi e = keepb db lo hi e.
Proof.
  intros Hs. unfold keepb. rewrite (elem_valid_with_db_same_words db db' e Hs).
  reflexivity.
Qed.

Lemma init_elems_idx_same_words (lo hi : Z) (pw_len : nat)
    (db : list db_entry_t) (elems_idx : nat) :
  same_words db (init_elems_idx lo hi pw_len db elems_idx).
Proof.
  rewrite init_elems_idx_keepb. cbv zeta.
  destruct (keepb _ _ _ _); [|apply same_words_refl].
  apply same_words_insert. reflexivity.
Qed.

Lemma init_elems_idx_spec (lo hi : Z) (pw_len : nat) (db : list db_entry_t)
    (elems_idx : nat) :
  pw_len < length db ->
  let db' := init_elems_idx lo hi pw_len db elems_idx in
  (forall k, k <> pw_len -> db' !!! k = db !!! k) /\
  elems_buf (db' !!! pw_len) =
    elems_buf (db !!! pw_len) ++
    List.filter (keepb db lo hi) [elem_gen_with_idx (pw_len - 1) elems_idx] /\
  elems_pos (db' !!! pw_len) = elems_pos (db !!! pw_len).
Proof.
  intros Hlen. cbv zeta. rewrite init_elems_idx_keepb. cbv zeta.
  cbn [List.filter]. destruct (keepb db lo hi _).
  - rewrite list_lookup_total_insert_eq by exact Hlen.
    split; [|split; reflexivity].
    intros k Hk. apply list_lookup_total_insert_ne. congruence.
  - rewrite app_nil_r. repeat split; reflexivity.
Qed.

(** What one pass over the indices [idxs] does to the database. *)
Lemma init_elems_fold (lo hi : Z) (pw_len : nat) (idxs : list nat)
    (db : list db_entry_t) :
  pw_len < length db ->
  let db' := fold_left (init_elems_idx lo hi pw_len) idxs db in
  same_words db db' /\
  (forall k, k <> pw_len -> db' !!! k = db !!! k) /\
  elems_buf (db' !!! pw_len) =
    elems_buf (db !!! pw_len) ++
    List.filter (keepb db lo hi)
                (map (elem_gen_with_idx (pw_len - 1)) idxs) /\
  elems_pos (db' !!! pw_len) = elems_pos (db !!! pw_len).
Proof.
  revert db. induction idxs as [|i idxs IH]; intros db Hlen; cbn zeta.
  - simpl. rewrite app_nil_r. repeat split; reflexivity.
  - cbn [fold_left map].
    pose proof (init_elems_idx_same_words lo hi pw_len db i) as Hs1.
    destruct (init_elems_idx_spec lo hi pw_len db i Hlen) as (Ho1 & Hb1 & Hp1).
    set (db1 := init_elems_idx lo hi pw_len db i) in *.
    assert (Hlen1 : pw_len < length db1) by (destruct Hs1 as [-> _]; exact Hlen).
    destruct (IH db1 Hlen1) as (Hs & Hother & Hbuf & Hpos).
    split; [eapply same_words_trans; eassumption|].
    split; [intros k Hk; rewrite Hother, Ho1 by exact Hk; reflexivity|].
    rewrite Hbuf, Hpos, Hb1, Hp1, <- app_assoc. split; [|reflexivity].
    f_equal.
    change (elem_gen_with_idx (pw_len - 1) i ::
            map (elem_gen_with_idx (pw_len - 1)) idxs)
      with ([elem_gen_with_idx (pw_len - 1) i] ++
            map (elem_gen_with_idx (pw_len - 1)) idxs).
    rewrite List.filter_app. f_equal.
    apply List.filter_ext. intros e. apply keepb_same_words, Hs1.
Qed.

Lemma init_elems_len_spec (lo hi : Z) (pw_len : nat) (db : list db_entry_t) :
  pw_len < length db ->
  let db' := init_elems_len lo hi db pw_len in
  same_words db db' /\
  (forall k, k <> pw_len -> db' !!! k = db !!! k) /\
  elems_buf (db' !!! pw_len) =
    elems_buf (db !!! pw_len) ++ kept_elems db lo hi pw_len /\
  elems_pos (db' !!! pw_len) = elems_pos (db !!! pw_len).
Proof.
  intros Hlen. unfold init_elems_len, kept_elems.
  rewrite Nat.shiftl_1_l. apply init_elems_fold. exact Hlen.
Qed.

Lemma kept_elems_same_words (db db' : list db_entry_t) (lo hi : Z) (n : nat) :
  same_words db db' -> kept_elems db' lo hi n = kept_elems db lo hi n.
Proof.
  intros Hs. unfold kept_elems. apply List.filter_ext. intros e.
  apply keepb_same_words, Hs.
Qed.

Lemma init_elems_fold_lens (lo hi : Z) (lens : list nat)
    (db : list db_entry_t) :
  List.NoDup lens -> Forall (fun n => n < length db) lens ->
  let db' := fold_left (init_elems_len lo hi) lens db in
  same_words db db' /\
  (forall k, ~ In k lens -> db' !!! k = db !!! k) /\
  (forall n, In n lens ->
     elems_buf (db' !!! n) = elems_buf (db !!! n) ++ kept_elems db lo hi n /\
     elems_pos (db' !!! n) = elems_pos (db !!! n)).
Proof.
  revert db. induction lens as [|m lens IH]; intros db Hnd Hlt; cbn zeta.
  - simpl. split; [apply same_words_refl|]. split; [reflexivity|intros n []].
  - cbn [fold_left]. inversion Hnd as [|? ? Hm Hnd']; subst.
    inversion Hlt as [|? ? Hmlt Hlt']; subst.
    destruct (init_elems_len_spec lo hi m db Hmlt) as (Hs1 & Ho1 & Hb1 & Hp1).
    set (db1 := init_elems_len lo hi db m) in *.
    assert (Hlt1 : Forall (fun n => n < length db1) lens)
      by (destruct Hs1 as [-> _]; exact Hlt').
    destruct (IH db1 Hnd' Hlt1) as (Hs & Ho & Hin).
    split; [eapply same_words_trans; eassumption|]. split.
    + intros k Hk. rewrite Ho by (intros H; apply Hk; right; exact H).
      apply Ho1. intros ->. apply Hk. left. reflexivity.
    + intros n [<-|Hn].
      * rewrite Ho by exact Hm. split; assumption.
      * destruct (Hin n Hn) as [-> ->].
        rewrite (kept_elems_same_words db db1) by exact Hs1.
        rewrite Ho1 by (intros ->; contradiction). split; reflexivity.
Qed.

Lemma pw_lens_In (pw_min pw_max n : nat) :
  In n (pw_lens pw_min pw_max) <-> pw_min <= n <= pw_max.
Proof. unfold pw_lens. rewrite in_seq. lia. Qed.

Lemma pw_lens_NoDup (pw_min pw_max : nat) :
  List.NoDup (pw_lens pw_min pw_max).
Proof. apply List.seq_NoDup. Qed.

Lemma init_elems_spec (pw_min pw_max : nat) (lo hi : Z)
    (db : list db_entry_t) :
  pw_max < length db ->
  let db' := init_elems pw_min pw_max lo hi db in
  same_words db db' /\
  (forall k, ~ pw_min <= k <= pw_max -> db' !!! k = db !!! k) /\
  (forall n, pw_min <= n <= pw_max ->
     elems_buf (db' !!! n) = elems_buf (db !!! n) ++ kept_elems db lo hi n /\
     elems_pos (db' !!! n) = elems_pos (db !!! n)).
Proof.
  intros Hlen. unfold init_elems.
  destruct (init_elems_fold_lens lo hi (pw_lens pw_min pw_max) db)
    as (Hs & Ho & Hin).
  - apply pw_lens_NoDup.
  - apply List.Forall_forall. intros n Hn. apply pw_lens_In in Hn. lia.
  - split; [exact Hs|]. split.
    + intros k Hk. apply Ho. rewrite pw_lens_In. exact Hk.
    + intros n Hn. apply Hin. rewrite pw_lens_In. exact Hn.
Qed.

(** *** The stored chains (C2) *)



Lemma check_params_bounds (p : params) :
  check_params p = None ->
  (1 <= pw_min p <= pw_max p)%Z /\ (pw_max p <= 16)%Z /\
  (1 <= elem_cnt_min p <= elem_cnt_max p)%Z.
Proof.
  unfold check_params, IN_LEN_MIN, IN_LEN_MAX.
  repeat match goal with
         | |- context [if ?b then _ else _] =>
             let E := fresh "E" in destruct b eqn:E; [discriminate|]
         end.
  intros _.
  repeat match goal with
         | H : (_ <=? _)%Z = false |- _ => apply Z.leb_gt in H
         | H : (_ >? _)%Z = false |- _ =>
             rewrite Z.gtb_ltb in H; apply Z.ltb_ge in H
         | H : (_ <? _)%Z = false |- _ => apply Z.ltb_ge in H
         end.
  lia.
Qed.

(** The boolean filters decide [kept]. *)
Lemma keepb_kept (db : list db_entry_t) (lo hi : Z) (e : elem_t) :
  keepb db lo hi e = true <-> kept db lo hi (buf e).
Proof.
  unfold keepb, kept, elem_valid_with_db, elem_valid_with_cnt_min,
    elem_valid_with_cnt_max, cnt.
  rewrite !andb_true_iff, forallb_forall, List.Forall_forall,
    !negb_true_iff, Z.ltb_ge, Z.gtb_ltb, Z.ltb_ge.
  split.
  - intros [[Hdb Hlo] Hhi]. split; [|lia].
    intros k Hk. specialize (Hdb k Hk). apply negb_true_iff, Z.eqb_neq in Hdb.
    unfold words_cnt in *. lia.
  - intros [Hdb Hb]. split; [split|]; [|lia..].
    intros k Hk. specialize (Hdb k Hk). apply negb_true_iff, Z.eqb_neq. lia.
Qed.

Lemma kept_same_words (db db' : list db_entry_t) (lo hi : Z) (c : list nat) :
  same_words db db' -> kept db' lo hi c <-> kept db lo hi c.
Proof.
  intros Hs. unfold kept. rewrite !List.Forall_forall.
  split; intros [H1 H2]; (split; [|exact H2]); intros k Hk;
    specialize (H1 k Hk); rewrite (same_words_cnt db db' k Hs) in *; exact H1.
Qed.


Section StoredChains.
Variables (p : params) (stdin : list (list byte)).
Hypothesis p_valid : check_params p = None.

Let pmin := Z.to_nat (pw_min p).
Let pmax := Z.to_nat (pw_max p).
Let loaded := load_words stdin db_entries_init.
Let generated :=
  init_elems pmin pmax (elem_cnt_min p) (elem_cnt_max p) loaded.

Lemma loaded_length : length loaded = IN_LEN_MAX + 1.
Proof.
  unfold loaded. rewrite load_words_length. apply length_replicate.
Qed.

Lemma pmax_bound : pmax < length loaded.
Proof.
  rewrite loaded_length. unfold pmax, IN_LEN_MAX.
  pose proof (check_params_bounds p p_valid). lia.
Qed.

Lemma generated_same_words : same_words loaded generated.
Proof. apply init_elems_spec, pmax_bound. Qed.

Lemma generated_elems (n : nat) :
  pmin <= n <= pmax ->
  elems_buf (generated !!! n) =
    kept_elems loaded (elem_cnt_min p) (elem_cnt_max p) n /\
  elems_pos (generated !!! n) = 0.
Proof.
  intros Hn.
  destruct (init_elems_spec pmin pmax (elem_cnt_min p) (elem_cnt_max p)
              loaded pmax_bound) as (_ & _ & Hin).
  unfold generated. destruct (Hin n Hn) as [-> ->].
  unfold loaded.
  destruct (load_words_elems stdin db_entries_init n) as [-> ->].
  rewrite db_entries_init_lookup. split; reflexivity.
Qed.
End StoredChains.

(* ================================================================= *)
(** ** Stages that rewrite one entry per length *)

Section SlotFold.
Variable step : list db_entry_t -> nat -> list db_entry_t.
Variable new_entry : list db_entry_t -> nat -> db_entry_t -> db_entry_t.

Hypothesis step_spec :
  forall db n, n < length db ->
    same_words db (step db n) /\
    (forall k, k <> n -> step db n !!! k = db !!! k) /\
    step db n !!! n = new_entry db n (db !!! n).

Hypothesis new_entry_words :
  forall db db' n d, same_words db db' ->
    new_entry db' n d = new_entry db n d.

Lemma slot_fold (lens : list nat) (db : list db_entry_t) :
  List.NoDup lens -> Forall (fun n => n < length db) lens ->
  let db' := fold_left step lens db in
  same_words db db' /\
  (forall k, ~ In k lens -> db' !!! k = db !!! k) /\
  (forall n, In n lens -> db' !!! n = new_entry db n (db !!! n)).
Proof.
  revert db. induction lens as [|m lens IH]; intros db Hnd Hlt; cbn zeta.
  - simpl. split; [apply same_words_refl|]. split; [reflexivity|intros n []].
  - cbn [fold_left]. inversion Hnd as [|? ? Hm Hnd']; subst.
    inversion Hlt as [|? ? Hmlt Hlt']; subst.
    destruct (step_spec db m Hmlt) as (Hs1 & Ho1 & Hn1).
    set (db1 := step db m) in *.
    assert (Hlt1 : Forall (fun n => n < length db1) lens)
      by (destruct Hs1 as [-> _]; exact Hlt').
    destruct (IH db1 Hnd' Hlt1) as (Hs & Ho & Hin).
    split; [eapply same_words_trans; eassumption|]. split.
    + intros k Hk. rewrite Ho by (intros H; apply Hk; right; exact H).
      apply Ho1. intros ->. apply Hk. left. reflexivity.
    + intros n [<-|Hn].
      * rewrite Ho by exact Hm. exact Hn1.
      * rewrite (Hin n Hn), (new_entry_words db db1) by exact Hs1.
        rewrite Ho1 by (intros ->; contradiction). reflexivity.
Qed.
End SlotFold.

(* ================================================================= *)
(** ** Keyspace *)

Lemma sum_ks_app (es1 es2 : list elem_t) :
  sum_ks (es1 ++ es2) = (sum_ks es1 + sum_ks es2)%Z.
Proof. induction es1 as [|e es1 IH]; simpl; [reflexivity|]. rewrite IH. lia. Qed.

Lemma sum_ks_Permutation (es1 es2 : list elem_t) :
  Permutation es1 es2 -> sum_ks es1 = sum_ks es2.
Proof. induction 1; simpl; lia. Qed.

Lemma elem_ks_fold (db : list db_entry_t) (parts : list nat) (acc : Z) :
  fold_left (fun ks elem_key => (ks * words_cnt (db !!! elem_key))%Z) parts acc
  = (acc * radix_product db parts)%Z.
Proof.
  revert acc. induction parts as [|k parts IH]; intros acc; simpl; [lia|].
  rewrite IH. lia.
Qed.

Lemma elem_ks_radix_product (e : elem_t) (db : list db_entry_t) :
  elem_ks e db = radix_product db (buf e).
Proof. unfold elem_ks. rewrite elem_ks_fold. lia. Qed.

Lemma radix_product_same_words (db db' : list db_entry_t) (parts : list nat) :
  same_words db db' -> radix_product db' parts = radix_product db parts.
Proof.
  intros Hs. induction parts as [|k parts IH]; simpl; [reflexivity|].
  rewrite IH, (same_words_cnt db db' k Hs). reflexivity.
Qed.

Lemma radix_product_app (db : list db_entry_t) (parts1 parts2 : list nat) :
  radix_product db (parts1 ++ parts2) =
  (radix_product db parts1 * radix_product db parts2)%Z.
Proof.
  induction parts1 as [|k parts1 IH]; simpl; [lia|]. rewrite IH. lia.
Qed.

Lemma radix_product_pos (db : list db_entry_t) (parts : list nat) :
  Forall (fun part => (0 < words_cnt (db !!! part))%Z) parts ->
  (0 < radix_product db parts)%Z.
Proof. induction 1; simpl; lia. Qed.

Lemma sum_products_app (db : list db_entry_t) (es1 es2 : list elem_t) :
  sum_products db (es1 ++ es2) =
  (sum_products db es1 + sum_products db es2)%Z.
Proof. induction es1 as [|e es1 IH]; simpl; [reflexivity|]. rewrite IH. lia. Qed.

Lemma calc_keyspace_fold (n k : nat) (db : list db_entry_t) (total : Z) :
  n < length db -> k <= elems_cnt (db !!! n) ->
  let es := elems_buf (db !!! n) in
  let '(db', total') :=
    fold_left (calc_keyspace_idx n) (seq 0 k) (db, total) in
  same_words db db' /\
  (forall j, j <> n -> db' !!! j = db !!! j) /\
  db' !!! n = set_elems (db !!! n) (map (add_ks db) (take k es) ++ drop k es) /\
  total' = (total + sum_products db (take k es))%Z.
Proof.
  intros Hn. induction k as [|k IH]; intros Hk es.
  - simpl. rewrite drop_0. split; [apply same_words_refl|].
    split; [reflexivity|]. split; [|lia].
    destruct (db !!! n); reflexivity.
  - rewrite seq_S, fold_left_app. cbn [fold_left Nat.add].
    specialize (IH ltac:(lia)). cbv zeta in IH.
    destruct (fold_left _ _ _) as [db1 total1].
    destruct IH as (Hs & Ho & Hslot & Ht). fold es in Hslot, Ht.
    unfold calc_keyspace_idx. rewrite Hslot. cbn [elems_buf set_elems].
    unfold elems_cnt in Hk. fold es in Hk.
    assert (Hlk : k < length es) by lia.
    destruct (lookup_lt_is_Some_2 es k Hlk) as [e He].
    assert (Hkth : (map (add_ks db) (take k es) ++ drop k es) !!! k = e).
    { apply list_lookup_total_correct.
      rewrite lookup_app_r by (rewrite length_map, length_take; lia).
      rewrite length_map, length_take, lookup_drop.
      replace (k + (k - k `min` length es)) with k by lia. exact He. }
    rewrite Hkth, elem_ks_radix_product,
      (radix_product_same_words db db1) by exact Hs.
    assert (Hn1 : n < length db1) by (destruct Hs as [-> _]; exact Hn).
    split; [|split; [|split]].
    + eapply same_words_trans; [exact Hs|].
      apply same_words_insert. rewrite Hslot. reflexivity.
    + intros j Hj. rewrite list_lookup_total_insert_ne by congruence.
      apply Ho, Hj.
    + rewrite list_lookup_total_insert_eq by exact Hn1.
      unfold set_elems. cbn [words_buf elems_pos]. f_equal.
      rewrite (take_S_r es k e He), map_app, <- app_assoc. cbn [map app].
      rewrite insert_app_r_alt by (rewrite length_map, length_take; lia).
      rewrite length_map, length_take.
      replace (k - k `min` length es) with 0 by lia.
      rewrite (drop_S es e k He). reflexivity.
    + rewrite Ht, (take_S_r es k e He), sum_products_app. simpl. lia.
Qed.

Lemma calc_keyspace_len_spec (n : nat) (db : list db_entry_t) (total : Z) :
  n < length db ->
  let '(db', total') := calc_keyspace_len (db, total) n in
  same_words db db' /\
  (forall j, j <> n -> db' !!! j = db !!! j) /\
  db' !!! n = keyspace_entry db n (db !!! n) /\
  total' = (total + sum_products db (elems_buf (db !!! n)))%Z.
Proof.
  intros Hn. unfold calc_keyspace_len. cbn [fst].
  pose proof (calc_keyspace_fold n (elems_cnt (db !!! n)) db total Hn
                ltac:(lia)) as H.
  cbv zeta in H. destruct (fold_left _ _ _) as [db' total'].
  unfold elems_cnt in H. rewrite take_ge, drop_ge, app_nil_r in H by lia.
  exact H.
Qed.

Lemma keyspace_entry_same_words (db db' : list db_entry_t) (n : nat)
    (d : db_entry_t) :
  same_words db db' -> keyspace_entry db' n d = keyspace_entry db n d.
Proof.
  intros Hs. unfold keyspace_entry. f_equal. apply map_ext. intros e.
  unfold add_ks. rewrite (radix_product_same_words db db') by exact Hs.
  reflexivity.
Qed.

Lemma sum_products_same_words (db db' : list db_entry_t) (es : list elem_t) :
  same_words db db' -> sum_products db' es = sum_products db es.
Proof.
  intros Hs. induction es as [|e es IH]; simpl; [reflexivity|].
  rewrite IH, (radix_product_same_words db db') by exact Hs. reflexivity.
Qed.

Lemma calc_keyspace_fold_lens (lens : list nat) (db : list db_entry_t)
    (total : Z) :
  List.NoDup lens -> Forall (fun n => n < length db) lens ->
  let '(db', total') := fold_left calc_keyspace_len lens (db, total) in
  same_words db db' /\
  (forall k, ~ In k lens -> db' !!! k = db !!! k) /\
  (forall n, In n lens -> db' !!! n = keyspace_entry db n (db !!! n)) /\
  total' = (total + total_products db lens)%Z.
Proof.
  revert db total.
  induction lens as [|m lens IH]; intros db total Hnd Hlt.
  - simpl. split; [apply same_words_refl|]. split; [reflexivity|].
    split; [intros n []|lia].
  - cbn [fold_left]. inversion Hnd as [|? ? Hm Hnd']; subst.
    inversion Hlt as [|? ? Hmlt Hlt']; subst.
    pose proof (calc_keyspace_len_spec m db total Hmlt) as H1.
    destruct (calc_keyspace_len (db, total) m) as [db1 total1].
    destruct H1 as (Hs1 & Ho1 & Hn1 & Ht1).
    assert (Hlt1 : Forall (fun n => n < length db1) lens)
      by (destruct Hs1 as [-> _]; exact Hlt').
    specialize (IH db1 total1 Hnd' Hlt1).
    destruct (fold_left _ _ _) as [db' total'].
    destruct IH as (Hs & Ho & Hin & Ht).
    split; [eapply same_words_trans; eassumption|]. split; [|split].
    + intros k Hk. rewrite Ho by (intros H; apply Hk; right; exact H).
      apply Ho1. intros ->. apply Hk. left. reflexivity.
    + intros n [<-|Hn].
      * rewrite Ho by exact Hm. exact Hn1.
      * rewrite (Hin n Hn), (keyspace_entry_same_words db db1) by exact Hs1.
        rewrite Ho1 by (intros ->; contradiction). reflexivity.
    + rewrite Ht, Ht1. cbn [total_products fold_right].
      assert (E : total_products db1 lens = total_products db lens).
      { clear -Hm Ho1 Hs1. induction lens as [|k lens IH]; [reflexivity|].
        cbn [total_products fold_right].
        rewrite Ho1 by (intros ->; apply Hm; left; reflexivity).
        rewrite (sum_products_same_words db db1) by exact Hs1.
        f_equal. apply IH. intros H. apply Hm. right. exact H. }
      fold (total_products db1 lens). fold (total_products db lens). lia.
Qed.

(* ================================================================= *)
(** ** The database after [prepare] and [setup] *)

Lemma sort_elems_len_spec `{libc} (db : list db_entry_t) (n : nat) :
  n < length db ->
  same_words db (sort_elems_len db n) /\
  (forall k, k <> n -> sort_elems_len db n !!! k = db !!! k) /\
  sort_elems_len db n !!! n =
    set_elems (db !!! n) (qsort (elems_buf (db !!! n)) sort_by_ks).
Proof.
  intros Hn. unfold sort_elems_len. split; [|split].
  - apply same_words_insert. reflexivity.
  - intros k Hk. apply list_lookup_total_insert_ne. congruence.
  - apply list_lookup_total_insert_eq, Hn.
Qed.

Lemma sort_elems_spec `{libc} (pw_min pw_max : nat) (db : list db_entry_t) :
  pw_max < length db ->
  let db' := sort_elems pw_min pw_max db in
  same_words db db' /\
  (forall k, ~ pw_min <= k <= pw_max -> db' !!! k = db !!! k) /\
  (forall n, pw_min <= n <= pw_max ->
     db' !!! n =
       set_elems (db !!! n) (qsort (elems_buf (db !!! n)) sort_by_ks)).
Proof.
  intros Hlen. unfold sort_elems.
  destruct (slot_fold sort_elems_len
              (fun _ _ d => set_elems d (qsort (elems_buf d) sort_by_ks))
              sort_elems_len_spec ltac:(reflexivity)
              (pw_lens pw_min pw_max) db) as (Hs & Ho & Hin).
  - apply pw_lens_NoDup.
  - apply List.Forall_forall. intros n Hn. apply pw_lens_In in Hn. lia.
  - split; [exact Hs|]. split.
    + intros k Hk. apply Ho. rewrite pw_lens_In. exact Hk.
    + intros n Hn. apply Hin. rewrite pw_lens_In. exact Hn.
Qed.

Lemma elem_gen_with_idx_ks (len1 elems_idx : nat) :
  ks_cnt (elem_gen_with_idx len1 elems_idx) = 0%Z /\
  ks_pos (elem_gen_with_idx len1 elems_idx) = 0%Z.
Proof.
  unfold elem_gen_with_idx. destruct (fold_left _ _ _). split; reflexivity.
Qed.

Lemma chain_ok_same_words (db db' : list db_entry_t) (lo hi : Z) (n : nat)
    (e : elem_t) :
  same_words db db' -> chain_ok db lo hi n e -> chain_ok db' lo hi n e.
Proof.
  intros Hs [H1 H2 H3 H4]. split; [exact H1| | |exact H4].
  - apply (kept_same_words db db' lo hi _ Hs). exact H2.
  - rewrite (radix_product_same_words db db') by exact Hs. exact H3.
Qed.

Lemma kept_elems_chain_ok (db : list db_entry_t) (lo hi : Z) (n : nat) :
  1 <= n <= 255 ->
  Forall (chain_ok db lo hi n) (map (add_ks db) (kept_elems db lo hi n)).
Proof.
  intros Hn. apply List.Forall_forall. intros e' He'.
  apply in_map_iff in He' as (e & <- & He).
  unfold kept_elems in He. apply filter_In in He as [Hgen Hkeep].
  apply in_map_iff in Hgen as (mask & <- & _).
  apply keepb_kept in Hkeep.
  destruct (elem_gen_with_idx_ks (n - 1) mask) as [Hc Hp].
  split; cbn [add_ks set_ks_cnt buf ks_cnt ks_pos].
  - rewrite elem_gen_with_idx_buf by lia.
    replace (S (n - 1)) with n by lia. apply decode_composition. lia.
  - exact Hkeep.
  - rewrite Hc. lia.
  - exact Hp.
Qed.

Lemma fold_right_add_ext (f g : nat -> Z) (lens : list nat) :
  (forall n, In n lens -> f n = g n) ->
  fold_right (fun n acc => (f n + acc)%Z) 0%Z lens =
  fold_right (fun n acc => (g n + acc)%Z) 0%Z lens.
Proof.
  induction lens as [|n lens IH]; intros H; simpl; [reflexivity|].
  rewrite IH by (intros k Hk; apply H; right; exact Hk).
  rewrite (H n) by (left; reflexivity). reflexivity.
Qed.

Lemma sum_ks_add_ks (db : list db_entry_t) (es : list elem_t) :
  Forall (fun e => ks_cnt e = 0%Z) es ->
  sum_ks (map (add_ks db) es) = sum_products db es.
Proof. induction 1 as [|e es He _ IH]; simpl; [reflexivity|]. rewrite IH. lia. Qed.

Lemma kept_elems_ks_cnt (db : list db_entry_t) (lo hi : Z) (n : nat) :
  Forall (fun e => ks_cnt e = 0%Z) (kept_elems db lo hi n).
Proof.
  apply List.Forall_forall. intros e He. unfold kept_elems in He.
  apply filter_In in He as [He _]. apply in_map_iff in He as (mask & <- & _).
  apply elem_gen_with_idx_ks.
Qed.

Section Prepared.
Variables (p : params) (stdin : list (list byte)).
Hypothesis p_valid : check_params p = None.

Let pmin := Z.to_nat (pw_min p).
Let pmax := Z.to_nat (pw_max p).
Let lo := elem_cnt_min p.
Let hi := elem_cnt_max p.
Let loaded := load_words stdin db_entries_init.
Let generated := init_elems pmin pmax lo hi loaded.

(** The outcome of [prepare]. *)
Lemma prepare_spec :
  let '(db, wordlen_dist, total_ks_cnt) := prepare p stdin in
  same_words loaded db /\
  wordlen_dist = init_wordlen_dist (wl_dist_len p) generated /\
  (forall n, pmin <= n <= pmax ->
     elems_buf (db !!! n) = map (add_ks loaded) (kept_elems loaded lo hi n) /\
     elems_pos (db !!! n) = 0) /\
  total_ks_cnt =
    fold_right (fun n acc => (sum_ks (elems_buf (db !!! n)) + acc)%Z)
               0%Z (pw_lens pmin pmax).
Proof.
  unfold prepare. fold pmin pmax lo hi loaded generated.
  pose proof (generated_same_words p stdin p_valid) as Hsg.
  fold pmin pmax lo hi loaded generated in Hsg.
  pose proof (pmax_bound p stdin p_valid) as Hmax. fold pmax loaded in Hmax.
  assert (Hmaxg : pmax < length generated)
    by (destruct Hsg as [-> _]; exact Hmax).
  pose proof (calc_keyspace_fold_lens (pw_lens pmin pmax) generated 0%Z
                (pw_lens_NoDup _ _)) as H.
  unfold calc_keyspace.
  destruct (fold_left calc_keyspace_len _ _) as [db total].
  destruct H as (Hs & Ho & Hin & Ht).
  { apply List.Forall_forall. intros n Hn. apply pw_lens_In in Hn. lia. }
  assert (Hslot : forall n, pmin <= n <= pmax ->
            elems_buf (db !!! n) =
              map (add_ks loaded) (kept_elems loaded lo hi n) /\
            elems_pos (db !!! n) = 0).
  { intros n Hn. rewrite Hin by (apply pw_lens_In; exact Hn).
    destruct (generated_elems p stdin p_valid n Hn) as [He Hp].
    fold pmin pmax lo hi loaded generated in He, Hp.
    unfold keyspace_entry, set_elems. cbn [elems_buf elems_pos].
    rewrite He, Hp. split; [|reflexivity].
    apply map_ext. intros e. unfold add_ks.
    rewrite (radix_product_same_words loaded generated) by exact Hsg.
    reflexivity. }
  split; [eapply same_words_trans; eassumption|].
  split; [reflexivity|]. split; [exact Hslot|].
  rewrite Ht, Z.add_0_l. unfold total_products.
  apply fold_right_add_ext. intros n Hn. apply pw_lens_In in Hn.
  destruct (Hslot n Hn) as [-> _].
  destruct (generated_elems p stdin p_valid n Hn) as [He _].
  fold pmin pmax lo hi loaded generated in He. rewrite He.
  rewrite sum_ks_add_ks by apply kept_elems_ks_cnt.
  apply sum_products_same_words. exact Hsg.
Qed.
End Prepared.

Section Setup.
Context `{libc}.
Variables (p : params) (stdin : list (list byte)).
Hypothesis p_valid : check_params p = None.

Let pmin := Z.to_nat (pw_min p).
Let pmax := Z.to_nat (pw_max p).
Let lo := elem_cnt_min p.
Let hi := elem_cnt_max p.
Let loaded := load_words stdin db_entries_init.

Lemma setup_spec :
  let s := setup p stdin in
  same_words loaded (s_db s) /\
  s_wordlen_dist s =
    init_wordlen_dist (wl_dist_len p) (init_elems pmin pmax lo hi loaded) /\
  (forall n, pmin <= n <= pmax ->
     elems_buf (s_db s !!! n) = qsort (unsorted_elems p stdin n) sort_by_ks /\
     elems_pos (s_db s !!! n) = 0) /\
  s_total s =
    fold_right (fun n acc => (sum_ks (elems_buf (s_db s !!! n)) + acc)%Z)
               0%Z (pw_lens pmin pmax) /\
  s_orders s = qsort (init_pw_orders pmin pmax (s_db s)) sort_by_cnt.
Proof.
  unfold setup. pose proof (prepare_spec p stdin p_valid) as Hp.
  fold pmin pmax lo hi loaded in Hp |- *.
  destruct (prepare p stdin) as [[db wordlen_dist] total].
  destruct Hp as (Hs & Hwd & Hslot & Ht).
  pose proof (pmax_bound p stdin p_valid) as Hmax. fold pmax loaded in Hmax.
  assert (Hmaxd : pmax < length db) by (destruct Hs as [-> _]; exact Hmax).
  destruct (sort_elems_spec pmin pmax db Hmaxd) as (Hss & _ & Hin).
  cbn [s_db s_wordlen_dist s_total s_orders].
  assert (Hsorted : forall n, pmin <= n <= pmax ->
            elems_buf (sort_elems pmin pmax db !!! n) =
              qsort (unsorted_elems p stdin n) sort_by_ks /\
            elems_pos (sort_elems pmin pmax db !!! n) = 0).
  { intros n Hn. rewrite (Hin n Hn). cbn [set_elems elems_buf elems_pos].
    destruct (Hslot n Hn) as [-> ->]. split; reflexivity. }
  split; [eapply same_words_trans; eassumption|].
  split; [exact Hwd|]. split; [exact Hsorted|]. split; [|reflexivity].
  rewrite Ht. apply fold_right_add_ext. intros n Hn. apply pw_lens_In in Hn.
  destruct (Hsorted n Hn) as [-> _]. destruct (Hslot n Hn) as [-> _].
  symmetry. apply sum_ks_Permutation, qsort_Permutation.
Qed.

Lemma setup_length : length (s_db (setup p stdin)) = IN_LEN_MAX + 1.
Proof.
  destruct setup_spec as ([-> _] & _). apply loaded_length.
Qed.

Lemma setup_words_ok : words_ok (s_db (setup p stdin)).
Proof.
  destruct setup_spec as (Hs & _).
  eapply same_words_ok; [exact Hs|].
  apply load_words_ok, db_entries_init_ok.
Qed.

Lemma setup_chains_ok (n : nat) :
  pmin <= n <= pmax ->
  Forall (chain_ok (s_db (setup p stdin)) lo hi n)
         (elems_buf (s_db (setup p stdin) !!! n)).
Proof.
  intros Hn. destruct setup_spec as (Hs & _ & Hslot & _).
  destruct (Hslot n Hn) as [-> _].
  pose proof (check_params_bounds p p_valid) as Hb.
  eapply Permutation.Permutation_Forall; [symmetry; apply qsort_Permutation|].
  eapply List.Forall_impl; [|apply kept_elems_chain_ok; lia].
  intros e. apply chain_ok_same_words, Hs.
Qed.
End Setup.

Lemma sum_ks_nonneg (es : list elem_t) :
  Forall (fun e => (0 < ks_cnt e)%Z) es -> (0 <= sum_ks es)%Z.
Proof. induction 1; simpl; lia. Qed.

Lemma chain_ok_ks_pos (db : list db_entry_t) (lo hi : Z) (n : nat)
    (e : elem_t) :
  chain_ok db lo hi n e -> (0 < ks_cnt e)%Z.
Proof.
  intros [_ [Hne _] -> _]. apply radix_product_pos, Hne.
Qed.

Lemma setup_total_nonneg `{libc} (p : params) (stdin : list (list byte)) :
  check_params p = None -> (0 <= s_total (setup p stdin))%Z.
Proof.
  intros Hp. destruct (setup_spec p stdin Hp) as (_ & _ & _ & -> & _).
  assert (Hall : forall n,
            In n (pw_lens (Z.to_nat (pw_min p)) (Z.to_nat (pw_max p))) ->
            (0 <= sum_ks (elems_buf (s_db (setup p stdin) !!! n)))%Z).
  { intros n Hn. apply pw_lens_In in Hn. apply sum_ks_nonneg.
    eapply List.Forall_impl; [|apply (setup_chains_ok p stdin Hp n Hn)].
    intros e. apply chain_ok_ks_pos. }
  induction (pw_lens _ _) as [|n lens IH]; simpl; [lia|].
  specialize (Hall n (or_introl eq_refl)) as Hn.
  specialize (IH (fun k Hk => Hall k (or_intror Hk))). lia.
Qed.

(* ================================================================= *)
(** ** The materializer *)

Lemma memcpy_app (written rest src : list byte) (n : nat) :
  n <= length rest -> n <= length src ->
  memcpy (written ++ rest) (length written) src n =
  Some ((written ++ take n src) ++ drop n rest).
Proof.
  intros Hr Hs. unfold memcpy.
  rewrite length_app.
  destruct (Nat.leb_spec (length written + n) (length written + length rest));
    [|lia].
  destruct (Nat.leb_spec n (length src)); [|lia]. cbn [andb]. f_equal.
  rewrite take_app_length, drop_app_ge by lia.
  replace (length written + n - length written) with n by lia.
  rewrite <- app_assoc. reflexivity.
Qed.

Lemma map_lookup_Some {A B : Type} (f : A -> B) (l : list A) (i : nat)
    (x : A) :
  l !! i = Some x -> map f l !! i = Some (f x).
Proof.
  revert i. induction l as [|a l IH]; intros [|i] H; try discriminate.
  - injection H as ->. reflexivity.
  - apply IH. exact H.
Qed.

Lemma map_lookup {A B : Type} (f : A -> B) (l : list A) (i : nat) :
  map f l !! i = option_map f (l !! i).
Proof.
  revert i. induction l as [|a l IH]; intros [|i]; try reflexivity.
  apply IH.
Qed.

Lemma bucket_lookup (db : list db_entry_t) (k i : nat) (word : word_t) :
  words_buf (db !!! k) !! i = Some word -> bucket db k !!! i = take k word.
Proof.
  intros Hw. apply list_lookup_total_correct. unfold bucket.
  apply map_lookup_Some. exact Hw.
Qed.

Lemma word_index (db : list db_entry_t) (k : nat) (q : Z) :
  (0 < words_cnt (db !!! k))%Z -> (0 <= q)%Z ->
  let idx := (q mod words_cnt (db !!! k))%Z in
  (0 <= idx < words_cnt (db !!! k))%Z /\
  exists word, words_buf (db !!! k) !! Z.to_nat idx = Some word.
Proof.
  intros Hc Hq idx.
  assert (Hidx : (0 <= idx < words_cnt (db !!! k))%Z)
    by (apply Z.mod_pos_bound; exact Hc).
  split; [exact Hidx|].
  apply lookup_lt_is_Some_2. unfold words_cnt in Hidx. lia.
Qed.

Lemma elem_set_pwbuf_step_Some (db : list db_entry_t) (pos : Z)
    (pw_buf pw_buf' : list byte) (off k : nat) (word : word_t) :
  (0 < words_cnt (db !!! k))%Z ->
  words_buf (db !!! k) !! Z.to_nat (pos mod words_cnt (db !!! k))%Z
    = Some word ->
  memcpy pw_buf off word k = Some pw_buf' ->
  elem_set_pwbuf_step db (Some (pos, pw_buf, off)) k =
  Some ((pos / words_cnt (db !!! k))%Z, pw_buf', off + k).
Proof.
  intros Hc Hw Hm. unfold elem_set_pwbuf_step. cbv zeta.
  destruct (Z.eqb_spec (words_cnt (db !!! k)) 0) as [E|_]; [lia|].
  rewrite Hw, Hm. reflexivity.
Qed.

Section Materializer.
Variable db : list db_entry_t.
Hypothesis db_ok : words_ok db.

Lemma elem_set_pwbuf_loop (parts : list nat) (pos : Z)
    (written rest : list byte) :
  Forall (fun k => k <= IN_LEN_MAX /\ (0 < words_cnt (db !!! k))%Z) parts ->
  (0 <= pos)%Z -> list_sum parts <= length rest ->
  fold_left (elem_set_pwbuf_step db) parts
            (Some (pos, written ++ rest, length written)) =
  Some ((pos / radix_product db parts)%Z,
        (written ++ written_bytes db parts pos)
          ++ drop (list_sum parts) rest,
        length written + list_sum parts).
Proof.
  intros Hparts. revert pos written rest.
  induction Hparts as [|k parts [Hk Hc] Hparts IH];
    intros pos written rest Hpos Hr.
  - simpl. rewrite Z.div_1_r, app_nil_r, drop_0, Nat.add_0_r. reflexivity.
  - cbn [fold_left].
    change (list_sum (k :: parts)) with (k + list_sum parts) in *.
    destruct (word_index db k pos Hc Hpos) as [Hidx [word Hw]].
    assert (Hlen : length word = IN_LEN_MAX).
    { apply (db_ok k). apply list_elem_of_In.
      apply list_elem_of_lookup. eauto. }
    rewrite (elem_set_pwbuf_step_Some db pos _ _ _ k word Hc Hw
               (memcpy_app written rest word k ltac:(lia) ltac:(lia))).
    replace (length written + k) with (length (written ++ take k word))
      by (rewrite length_app, length_take; lia).
    assert (Hrp : (0 < radix_product db parts)%Z).
    { apply radix_product_pos. eapply List.Forall_impl; [|exact Hparts].
      intros ? []; assumption. }
    rewrite IH.
    + rewrite length_app, length_take, drop_drop.
      cbn [radix_product fold_right written_bytes].
      rewrite (bucket_lookup db k _ word Hw), <- !app_assoc.
      rewrite Z.div_div by lia.
      replace (length written + k `min` length word + list_sum parts)
        with (length written + (k + list_sum parts)) by lia.
      reflexivity.
    + apply Z.div_pos; lia.
    + rewrite length_drop. lia.
Qed.

Lemma elem_set_pwbuf_spec (e : elem_t) (pos : Z) (pw_buf : list byte) :
  Forall (fun k => k <= IN_LEN_MAX /\ (0 < words_cnt (db !!! k))%Z) (buf e) ->
  (0 <= pos)%Z -> list_sum (buf e) <= length pw_buf ->
  elem_set_pwbuf e db pos pw_buf =
  Some (written_bytes db (buf e) pos ++ drop (list_sum (buf e)) pw_buf).
Proof.
  intros Hparts Hpos Hlen. unfold elem_set_pwbuf.
  pose proof (elem_set_pwbuf_loop (buf e) pos [] pw_buf Hparts Hpos Hlen)
    as H.
  cbn [app length] in H. rewrite H. reflexivity.
Qed.

Lemma written_bytes_length (parts : list nat) (pos : Z) :
  Forall (fun k => k <= IN_LEN_MAX /\ (0 < words_cnt (db !!! k))%Z) parts ->
  (0 <= pos)%Z ->
  length (written_bytes db parts pos) = list_sum parts.
Proof.
  intros Hparts. revert pos.
  induction Hparts as [|k parts [Hk Hc] _ IH]; intros pos Hpos;
    [reflexivity|].
  cbn [written_bytes].
  change (list_sum (k :: parts)) with (k + list_sum parts).
  rewrite length_app.
  destruct (word_index db k pos Hc Hpos) as [_ [word Hw]].
  rewrite (bucket_lookup db k _ word Hw), length_take.
  assert (Hlen : length word = IN_LEN_MAX).
  { apply (db_ok k). apply list_elem_of_In.
    apply list_elem_of_lookup. eauto. }
  rewrite IH by (apply Z.div_pos; lia). lia.
Qed.

(** The successive divisions compute the mixed-radix digits. *)
Lemma written_bytes_candidate (parts : list nat) (pos : Z) :
  Forall (fun k => (0 < words_cnt (db !!! k))%Z) parts ->
  written_bytes db parts pos = candidate db parts pos.
Proof.
  intros Hparts. revert pos.
  induction Hparts as [|k parts Hc Hparts IH]; intros pos; [reflexivity|].
  unfold candidate. cbn [written_bytes length seq map concat].
  f_equal.
  - unfold digit. cbn [take radix_product fold_right lookup_total
                       list_lookup_total].
    rewrite Z.div_1_r. reflexivity.
  - rewrite IH. unfold candidate. f_equal.
    rewrite <- seq_shift, map_map. apply map_ext. intros i.
    unfold digit. cbn [take radix_product fold_right lookup_total
                       list_lookup_total].
    assert (Hrp : (0 < radix_product db (take i parts))%Z)
      by (apply radix_product_pos, Forall_take; exact Hparts).
    rewrite Z.div_div by lia.
    reflexivity.
Qed.
End Materializer.

Lemma uninit_length (junk : list byte) (n : nat) : length (uninit junk n) = n.
Proof.
  unfold uninit. rewrite length_take, length_app, length_replicate. lia.
Qed.

Lemma parts_bounded (n : nat) (parts : list nat) (k : nat) :
  list_sum parts = n -> In k parts -> k <= n.
Proof.
  intros <-. induction parts as [|a l IH]; intros Hk; [destruct Hk|].
  simpl. destruct Hk as [->|Hk]; [lia|]. specialize (IH Hk). lia.
Qed.

(** One line: when [pw_buf[n]] holds the newline, [elem_set_pwbuf] leaves
    the candidate and the newline in the first [n + 1] bytes. *)
Lemma line_step (db : list db_entry_t) (size n : nat) (e : elem_t) (pos : Z)
    (pw_buf : list byte) :
  words_ok db -> n <= IN_LEN_MAX ->
  composition n (buf e) ->
  Forall (fun k => (0 < words_cnt (db !!! k))%Z) (buf e) ->
  (0 <= pos)%Z ->
  length pw_buf = size -> pw_buf !! n = Some x0a ->
  exists pw_buf',
    elem_set_pwbuf e db pos pw_buf = Some pw_buf' /\
    length pw_buf' = size /\
    pw_buf' !! n = Some x0a /\
    take (n + 1) pw_buf' = candidate db (buf e) pos ++ [x0a].
Proof.
  intros Hok Hn [Hposv Hsum] Hne Hpos Hlen Hnl.
  pose proof (lookup_lt_Some _ _ _ Hnl) as Hsize.
  assert (Hparts : Forall
            (fun k => k <= IN_LEN_MAX /\ (0 < words_cnt (db !!! k))%Z) (buf e)).
  { rewrite List.Forall_forall in *. intros k Hk. split; [|apply Hne, Hk].
    pose proof (parts_bounded n (buf e) k Hsum Hk). lia. }
  eexists. split.
  - apply elem_set_pwbuf_spec; [exact Hok|exact Hparts|exact Hpos|lia].
  - pose proof (written_bytes_length db Hok (buf e) pos Hparts Hpos) as Hw.
    rewrite Hsum, (drop_S pw_buf x0a n Hnl).
    split; [|split].
    + rewrite length_app, Hw, Hsum. cbn [length]. rewrite length_drop. lia.
    + rewrite lookup_app_r by lia. rewrite Hw, Hsum, Nat.sub_diag.
      reflexivity.
    + rewrite take_app_ge by lia. rewrite Hw, Hsum.
      replace (n + 1 - n) with 1 by lia. cbn [take].
      rewrite <- written_bytes_candidate by exact Hne. reflexivity.
Qed.

Lemma store_spec (junk : list byte) (size n : nat) :
  n < size ->
  exists pw_buf,
    store (uninit junk size) n x0a = Some pw_buf /\
    length pw_buf = size /\ pw_buf !! n = Some x0a.
Proof.
  intros Hn. exists (<[n := x0a]> (uninit junk size)). split; [|split].
  - unfold store. rewrite uninit_length.
    destruct (Nat.ltb_spec n size); [reflexivity|lia].
  - rewrite length_insert. apply uninit_length.
  - apply list_lookup_insert_eq. rewrite uninit_length. exact Hn.
Qed.

(** The line built for a chain of length [n]: the buffer after the
    newline is stored and the words are copied. *)
Lemma line_spec (db : list db_entry_t) (junk : list byte) (size n : nat)
    (e : elem_t) (pos : Z) :
  words_ok db -> n < size -> n <= IN_LEN_MAX ->
  composition n (buf e) ->
  Forall (fun k => (0 < words_cnt (db !!! k))%Z) (buf e) ->
  (0 <= pos)%Z ->
  exists pw_buf pw_buf',
    store (uninit junk size) n x0a = Some pw_buf /\
    elem_set_pwbuf e db pos pw_buf = Some pw_buf' /\
    length pw_buf' = size /\
    take (n + 1) pw_buf' = candidate db (buf e) pos ++ [x0a] /\
    pw_buf' !! n = Some x0a.
Proof.
  intros Hok Hsize Hn Hc Hne Hpos.
  destruct (store_spec junk size n Hsize) as (pw_buf & Hstore & Hlen & Hnl).
  destruct (line_step db size n e pos pw_buf Hok Hn Hc Hne Hpos Hlen Hnl)
    as (pw_buf' & Hset & Hlen' & Hnl' & Htake).
  exists pw_buf, pw_buf'. repeat split; assumption.
Qed.

(* ================================================================= *)
(** ** Buffered output *)

Section Out.
Context `{libc}.

Lemma out_init_ok (junk : list byte) : out_ok (out_init junk).
Proof.
  pose proof BUFSIZ_min. split; cbn [out_init obuf olen];
    [apply uninit_length|lia].
Qed.

Lemma out_flush_ok (out : out_t) : out_ok out -> out_ok (out_flush out).
Proof.
  pose proof BUFSIZ_min. intros [Hl _]. split; cbn [out_flush obuf olen];
    [exact Hl|lia].
Qed.

Lemma out_flush_pushed (out : out_t) :
  fp (out_flush out) = pushed out /\ pending (out_flush out) = [].
Proof. split; reflexivity. Qed.

Lemma out_push_spec (out : out_t) (pw_buf : list byte) (pw_len : nat) :
  out_ok out -> pw_len <= IN_LEN_MAX + 1 -> pw_len <= length pw_buf ->
  olen out + pw_len <= BUFSIZ /\
  exists out',
    out_push out pw_buf pw_len = Some out' /\
    out_ok out' /\
    pushed out' = pushed out ++ take pw_len pw_buf.
Proof.
  intros [Hl Ho] Hp Hs. unfold IN_LEN_MAX in Hp.
  split; [lia|]. unfold out_push, memcpy.
  destruct (Nat.leb_spec (olen out + pw_len) (length (obuf out))); [|lia].
  destruct (Nat.leb_spec pw_len (length pw_buf)); [|lia].
  cbn [andb olen].
  set (b := take (olen out) (obuf out) ++ take pw_len pw_buf ++
            drop (olen out + pw_len) (obuf out)).
  assert (Hb : length b = BUFSIZ).
  { unfold b. rewrite !length_app, !length_take, length_drop. lia. }
  assert (Hpend : take (olen out + pw_len) b =
                  pending out ++ take pw_len pw_buf).
  { unfold b, pending. rewrite app_assoc.
    apply take_app_length'. rewrite length_app, !length_take. lia. }
  destruct (Z.leb_spec (Z.of_nat BUFSIZ - 100) (Z.of_nat (olen out + pw_len))).
  - eexists. split; [reflexivity|]. split.
    + pose proof BUFSIZ_min.
      split; cbn [out_flush obuf olen]; [exact Hb|lia].
    + unfold pushed at 1. cbn [out_flush fp olen obuf pending take app].
      rewrite app_nil_r, Hpend. unfold pushed. rewrite app_assoc.
      reflexivity.
  - eexists. split; [reflexivity|]. split.
    + split; cbn [obuf olen]; [exact Hb|lia].
    + unfold pushed, pending at 1. cbn [fp olen obuf].
      rewrite Hpend, app_assoc. reflexivity.
Qed.
End Out.

(* ================================================================= *)
(** ** The enumeration loop as a trace of lines

    The loop is split in two: how the database and [total_ks_pos] evolve
    (which depends on neither [skip] nor the output buffer), and which
    lines are visited. [visit], [visits] and [rounds] follow [loop_order],
    [loop_orders] and [loop] and return the lines visited, whether emitted
    or not. *)

(** *** The state of one length *)

Lemma batch_size_bounds (e : elem_t) (words_cnt total_ks_left : Z) :
  (0 <= ks_pos e < ks_cnt e)%Z -> (0 <= words_cnt)%Z ->
  (0 <= total_ks_left)%Z ->
  let k := batch_size e words_cnt total_ks_left in
  (0 <= k)%Z /\ (k <= ks_cnt e - ks_pos e)%Z /\ (k <= words_cnt)%Z /\
  (k <= total_ks_left)%Z /\
  ((0 < words_cnt)%Z -> (0 < total_ks_left)%Z -> (0 < k)%Z).
Proof.
  intros He Hw Ht. unfold batch_size. cbv zeta. rewrite Z.gtb_ltb.
  destruct (Z.ltb_spec words_cnt (ks_cnt e - ks_pos e));
    [destruct (Z.ltb_spec total_ks_left words_cnt)
    |destruct (Z.ltb_spec total_ks_left (ks_cnt e - ks_pos e))]; lia.
Qed.

(** Smaller totals give smaller batches, equal ones while the smaller
    total is not reached. *)
Lemma batch_size_mono (e : elem_t) (words_cnt left1 left2 : Z) :
  (left1 <= left2)%Z ->
  let k1 := batch_size e words_cnt left1 in
  let k2 := batch_size e words_cnt left2 in
  (k1 <= k2)%Z /\ ((k1 < left1)%Z -> k1 = k2) /\
  ((k2 <= left1)%Z -> k1 = k2) /\ ((left1 <= k2)%Z -> k1 = left1).
Proof.
  intros Hl. unfold batch_size. cbv zeta. rewrite Z.gtb_ltb.
  destruct (Z.ltb_spec words_cnt (ks_cnt e - ks_pos e));
    [destruct (Z.ltb_spec left1 words_cnt), (Z.ltb_spec left2 words_cnt)
    |destruct (Z.ltb_spec left1 (ks_cnt e - ks_pos e)),
              (Z.ltb_spec left2 (ks_cnt e - ks_pos e))]; lia.
Qed.

Lemma batch_lines_length (db : list db_entry_t) (e : elem_t) (k : Z) :
  length (batch_lines db e k) = Z.to_nat k.
Proof. unfold batch_lines. rewrite length_map, length_seq. reflexivity. Qed.

Lemma batch_lines_take (db : list db_entry_t) (e : elem_t) (k1 k2 : Z) :
  (k1 <= k2)%Z ->
  batch_lines db e k1 = take (Z.to_nat k1) (batch_lines db e k2).
Proof.
  intros Hk. unfold batch_lines.
  replace (Z.to_nat k2) with (Z.to_nat k1 + (Z.to_nat k2 - Z.to_nat k1))
    by lia.
  rewrite seq_app, map_app, take_app_length'
    by (rewrite length_map, length_seq; reflexivity).
  reflexivity.
Qed.

(** *** One batch *)

Lemma sum_ks_drop (es : list elem_t) (i : nat) (e : elem_t) :
  es !! i = Some e ->
  sum_ks (drop i es) = (ks_cnt e + sum_ks (drop (S i) es))%Z.
Proof. intros He. rewrite (drop_S es e i He). reflexivity. Qed.

Lemma advance_spec (d : db_entry_t) (e : elem_t) (k : Z) :
  entry_ok d -> elems_buf d !! elems_pos d = Some e ->
  (0 <= k <= ks_cnt e - ks_pos e)%Z ->
  let d' := advance d e k in
  entry_ok d' /\
  remaining_of d' = (remaining_of d - k)%Z /\
  words_buf d' = words_buf d /\
  map buf (elems_buf d') = map buf (elems_buf d).
Proof.
  intros [Hpos Hks Hcur Hrest] He Hk.
  pose proof (lookup_lt_Some _ _ _ He) as Hlt.
  pose proof (Hcur e He) as Hcure.
  assert (Hkse : (0 < ks_cnt e)%Z) by lia.
  unfold advance. cbv zeta. unfold set_ks_pos. cbn [ks_pos ks_cnt buf].
  destruct (Z.eqb_spec (ks_pos e + k) (ks_cnt e)) as [E|E].
  - (* the chain is finished *)
    split; [split|split; [|split]]; cbn [elems_buf elems_pos words_buf].
    + unfold elems_cnt. cbn [elems_buf]. rewrite length_insert. lia.
    + apply Forall_insert; [exact Hks|exact Hkse].
    + intros e2 H2.
      rewrite list_lookup_insert_ne in H2 by lia.
      rewrite (Hrest _ _ H2) by lia.
      rewrite List.Forall_forall in Hks.
      specialize (Hks e2 (proj1 (list_elem_of_In _ _)
                                (list_elem_of_lookup_2 _ _ _ H2))). lia.
    + intros i e2 H2 Hi.
      destruct (Nat.eq_dec i (elems_pos d)) as [->|Hne].
      * rewrite list_lookup_insert_eq in H2 by exact Hlt.
        injection H2 as <-. reflexivity.
      * rewrite list_lookup_insert_ne in H2 by congruence.
        apply (Hrest i e2 H2 Hne).
    + unfold remaining_of. cbn [elems_buf elems_pos].
      rewrite (sum_ks_drop _ _ _ He).
      rewrite He, Nat.add_1_r.
      rewrite drop_insert_lt by lia.
      rewrite list_lookup_insert_ne by lia.
      destruct (elems_buf d !! S (elems_pos d)) as [e2|] eqn:E2;
        [rewrite (Hrest _ _ E2) by lia|]; lia.
    + reflexivity.
    + apply list_eq. intros i. rewrite !map_lookup.
      destruct (Nat.eq_dec i (elems_pos d)) as [->|Hne].
      * rewrite list_lookup_insert_eq by exact Hlt. rewrite He. reflexivity.
      * rewrite list_lookup_insert_ne by congruence. reflexivity.
  - (* the chain goes on *)
    split; [split|split; [|split]]; cbn [elems_buf elems_pos words_buf].
    + unfold elems_cnt. cbn [elems_buf]. rewrite length_insert. exact Hpos.
    + apply Forall_insert; [exact Hks|exact Hkse].
    + intros e2 H2.
      rewrite list_lookup_insert_eq in H2 by exact Hlt.
      injection H2 as <-. cbn [ks_pos ks_cnt]. lia.
    + intros i e2 H2 Hi.
      rewrite list_lookup_insert_ne in H2 by congruence.
      apply (Hrest i e2 H2 Hi).
    + unfold remaining_of. cbn [elems_buf elems_pos].
      rewrite list_lookup_insert_eq by exact Hlt.
      rewrite (sum_ks_drop _ _ _ He), He.
      rewrite (sum_ks_drop _ (elems_pos d) _
                 (list_lookup_insert_eq _ _ _ Hlt)).
      rewrite drop_insert_lt by lia. cbn [ks_cnt ks_pos]. lia.
    + reflexivity.
    + apply list_eq. intros i. rewrite !map_lookup.
      destruct (Nat.eq_dec i (elems_pos d)) as [->|Hne].
      * rewrite list_lookup_insert_eq by exact Hlt. rewrite He. reflexivity.
      * rewrite list_lookup_insert_ne by congruence. reflexivity.
Qed.

(** *** The invariant of the loop *)

Lemma remaining_insert (db : list db_entry_t) (lens : list nat) (n : nat)
    (d : db_entry_t) :
  List.NoDup lens -> In n lens -> n < length db ->
  remaining (<[n := d]> db) lens =
  (remaining db lens - remaining_of (db !!! n) + remaining_of d)%Z.
Proof.
  intros Hnd Hin Hn. induction Hnd as [|m lens Hm Hnd IH]; [destruct Hin|].
  cbn [remaining fold_right].
  fold (remaining (<[n := d]> db) lens). fold (remaining db lens).
  destruct Hin as [->|Hin].
  - rewrite list_lookup_total_insert_eq by exact Hn.
    assert (E : remaining (<[n := d]> db) lens = remaining db lens).
    { clear -Hm. induction lens as [|k lens IH]; [reflexivity|].
      cbn [remaining fold_right].
      rewrite list_lookup_total_insert_ne
        by (intros ->; apply Hm; left; reflexivity).
      f_equal. apply IH. intros H. apply Hm. right. exact H. }
    rewrite E. lia.
  - rewrite list_lookup_total_insert_ne by (intros ->; contradiction).
    rewrite IH by exact Hin. lia.
Qed.

Lemma remaining_exhausted (db : list db_entry_t) (lens : list nat) :
  (forall n, In n lens -> elems_pos (db !!! n) = elems_cnt (db !!! n)) ->
  remaining db lens = 0%Z.
Proof.
  intros Hall. unfold remaining.
  induction lens as [|n ls IH]; [reflexivity|].
  cbn [fold_right]. rewrite IH by (intros k Hk; apply Hall; right; exact Hk).
  unfold remaining_of. rewrite (Hall n (or_introl eq_refl)).
  unfold elems_cnt. rewrite drop_all, lookup_ge_None_2 by lia.
  reflexivity.
Qed.

Section TraceLoop.
Variables (db0 : list db_entry_t) (wordlen_dist : list Z) (lens : list nat).

Hypothesis db0_length : length db0 = IN_LEN_MAX + 1.
Hypothesis db0_words : words_ok db0.
Hypothesis db0_chains : forall n, In n lens -> chains_of db0 n.
Hypothesis lens_NoDup : List.NoDup lens.
Hypothesis lens_range : forall n, In n lens -> n <= IN_LEN_MAX.
Hypothesis wordlen_dist_nonneg :
  forall n, In n lens -> (0 <= wordlen_dist !!! n)%Z.

Lemma db_inv_length (db : list db_entry_t) :
  db_inv db0 lens db -> length db = IN_LEN_MAX + 1.
Proof. intros [[-> _] _ _]. exact db0_length. Qed.

Lemma db_inv_chains (db : list db_entry_t) (n : nat) :
  db_inv db0 lens db -> In n lens -> chains_of db n.
Proof.
  intros [Hw _ Hb] Hn. unfold chains_of. rewrite (Hb n Hn).
  eapply List.Forall_impl; [|apply (db0_chains n Hn)].
  intros parts [Hc Hne]. split; [exact Hc|].
  eapply List.Forall_impl; [|exact Hne].
  intros k Hk. cbv beta. rewrite (same_words_cnt db0 db k Hw). exact Hk.
Qed.

Lemma visit_spec (total_ks_cnt : Z) (db : list db_entry_t) (pos : Z)
    (o : pw_order_t) :
  db_inv db0 lens db -> In (len o) lens -> (pos <= total_ks_cnt)%Z ->
  let '(db', pos', lines, brk) :=
    visit wordlen_dist total_ks_cnt (db, pos) o in
  db_inv db0 lens db' /\
  pos' = (pos + Z.of_nat (length lines))%Z /\
  (pos' <= total_ks_cnt)%Z /\
  remaining db' lens = (remaining db lens - Z.of_nat (length lines))%Z /\
  brk = negb (elems_pos (db !!! len o) =? elems_cnt (db !!! len o))
        && (pos' =? total_ks_cnt)%Z /\
  ((0 < wordlen_dist !!! len o)%Z -> (pos < total_ks_cnt)%Z ->
   elems_pos (db !!! len o) < elems_cnt (db !!! len o) -> (pos < pos')%Z) /\
  (elems_pos (db !!! len o) = elems_cnt (db !!! len o) ->
   db' = db /\ lines = []).
Proof.
  intros Hinv Hin Hpos. unfold visit.
  set (n := len o) in *. set (d := db !!! n).
  pose proof (inv_entry db0 lens db Hinv n Hin) as Hentry. fold d in Hentry.
  destruct (elems_buf d !! elems_pos d) as [e|] eqn:He.
  - pose proof (entry_current d Hentry e He) as Hcur.
    pose proof (batch_size_bounds e (wordlen_dist !!! n)
                  (total_ks_cnt - pos)%Z Hcur
                  (wordlen_dist_nonneg n Hin) ltac:(lia)) as Hk.
    cbv zeta in Hk.
    set (k := batch_size e (wordlen_dist !!! n) (total_ks_cnt - pos)%Z) in *.
    destruct Hk as (Hk0 & Hk1 & Hk2 & Hk3 & Hk4).
    destruct (advance_spec d e k Hentry He ltac:(lia))
      as (Hentry' & Hrem & Hwords & Hbufs).
    assert (Hn : n < length db)
      by (rewrite (db_inv_length db Hinv); specialize (lens_range n Hin); lia).
    rewrite batch_lines_length, Z2Nat.id by exact Hk0.
    split; [|split; [reflexivity|split; [lia|split; [|split; [|split]]]]].
    + split.
      * eapply same_words_trans; [apply Hinv|].
        apply same_words_insert. exact Hwords.
      * intros m Hm. destruct (Nat.eq_dec m n) as [->|Hne].
        -- rewrite list_lookup_total_insert_eq by exact Hn. exact Hentry'.
        -- rewrite list_lookup_total_insert_ne by congruence.
           apply Hinv, Hm.
      * intros m Hm. destruct (Nat.eq_dec m n) as [->|Hne].
        -- rewrite list_lookup_total_insert_eq by exact Hn.
           rewrite Hbufs. apply Hinv, Hin.
        -- rewrite list_lookup_total_insert_ne by congruence.
           apply Hinv, Hm.
    + rewrite remaining_insert by assumption. fold d. lia.
    + pose proof (lookup_lt_Some _ _ _ He) as Hlt. unfold elems_cnt.
      destruct (Nat.eqb_spec (elems_pos d) (length (elems_buf d))); [lia|].
      reflexivity.
    + intros Hw Hp _. specialize (Hk4 Hw ltac:(lia)). lia.
    + intros Heq. pose proof (lookup_lt_Some _ _ _ He) as Hlt.
      unfold elems_cnt in Heq. lia.
  - cbn [length]. rewrite Z.add_0_r, Z.sub_0_r.
    split; [exact Hinv|]. split; [reflexivity|]. split; [exact Hpos|].
    split; [reflexivity|]. split.
    + apply lookup_ge_None_1 in He. destruct Hentry as [Hle _ _ _].
      unfold elems_cnt in *.
      destruct (Nat.eqb_spec (elems_pos d) (length (elems_buf d))); [|lia].
      reflexivity.
    + split; [|split; reflexivity].
      intros _ _ Hlt. apply lookup_ge_None_1 in He.
      unfold elems_cnt in Hlt. lia.
Qed.
Lemma visits_spec (total_ks_cnt : Z) (os : list pw_order_t)
    (db : list db_entry_t) (pos : Z) :
  db_inv db0 lens db -> Forall (fun o => In (len o) lens) os ->
  (pos < total_ks_cnt)%Z ->
  let '(db', pos', lines) := visits wordlen_dist total_ks_cnt os (db, pos) in
  db_inv db0 lens db' /\
  pos' = (pos + Z.of_nat (length lines))%Z /\
  (pos' <= total_ks_cnt)%Z /\
  remaining db' lens = (remaining db lens - Z.of_nat (length lines))%Z.
Proof.
  intros Hinv Hos. revert db pos Hinv.
  induction Hos as [|o os Ho _ IH]; intros db pos Hinv Hpos.
  - cbn [visits length]. split; [exact Hinv|]. lia.
  - cbn [visits].
    pose proof (visit_spec total_ks_cnt db pos o Hinv Ho ltac:(lia)) as Hv.
    destruct (visit wordlen_dist total_ks_cnt (db, pos) o)
      as [[[db1 pos1] lines1] brk].
    destruct Hv as (Hinv1 & Hpos1 & Hle1 & Hrem1 & Hbrk & _ & Hskip).
    destruct brk; [split; [exact Hinv1|]; lia|].
    assert (Hlt1 : (pos1 < total_ks_cnt)%Z).
    { symmetry in Hbrk. apply andb_false_iff in Hbrk as [Hb|Hb].
      - apply negb_false_iff, Nat.eqb_eq in Hb.
        destruct (Hskip Hb) as [_ ->]. cbn [length] in Hpos1. lia.
      - apply Z.eqb_neq in Hb. lia. }
    specialize (IH db1 pos1 Hinv1 Hlt1).
    destruct (visits wordlen_dist total_ks_cnt os (db1, pos1))
      as [[db2 pos2] lines2].
    destruct IH as (Hinv2 & Hpos2 & Hle2 & Hrem2).
    rewrite length_app, Nat2Z.inj_add.
    split; [exact Hinv2|]. lia.
Qed.

(** A round moves on unless every entry it visits is exhausted. *)
Lemma visits_progress (total_ks_cnt : Z) (os : list pw_order_t)
    (db : list db_entry_t) (pos : Z) :
  (forall n, In n lens -> elems_buf (db0 !!! n) <> [] ->
             (0 < wordlen_dist !!! n)%Z) ->
  db_inv db0 lens db -> Forall (fun o => In (len o) lens) os ->
  (pos < total_ks_cnt)%Z ->
  let '(db', pos', lines) := visits wordlen_dist total_ks_cnt os (db, pos) in
  (pos < pos')%Z \/
  Forall (fun o => elems_pos (db !!! len o) = elems_cnt (db !!! len o)) os.
Proof.
  intros Hprio Hinv Hos. revert db pos Hinv.
  induction Hos as [|o os Ho Hos IH]; intros db pos Hinv Hpos.
  - cbn [visits]. right. constructor.
  - cbn [visits].
    pose proof (visit_spec total_ks_cnt db pos o Hinv Ho ltac:(lia)) as Hv.
    destruct (visit wordlen_dist total_ks_cnt (db, pos) o)
      as [[[db1 pos1] lines1] brk].
    destruct Hv as (Hinv1 & Hpos1 & Hle1 & Hrem1 & Hbrk & Hprog & Hskip).
    destruct (Nat.eq_dec (elems_pos (db !!! len o))
                         (elems_cnt (db !!! len o))) as [Heq|Hne].
    + destruct (Hskip Heq) as [-> ->]. cbn [length] in Hpos1.
      rewrite Heq, Nat.eqb_refl in Hbrk. cbn [negb andb] in Hbrk. subst brk.
      replace pos1 with pos by lia.
      specialize (IH db pos Hinv Hpos).
      destruct (visits wordlen_dist total_ks_cnt os (db, pos))
        as [[db2 pos2] lines2].
      destruct IH as [IH|IH]; [left; exact IH|right].
      constructor; assumption.
    + assert (Hlt : elems_pos (db !!! len o) < elems_cnt (db !!! len o)).
      { pose proof (entry_pos _ (inv_entry db0 lens db Hinv _ Ho)). lia. }
      assert (Hpos01 : (pos < pos1)%Z).
      { apply Hprog; [|exact Hpos|exact Hlt].
        apply Hprio; [exact Ho|].
        intros Hnil.
        pose proof (inv_bufs db0 lens db Hinv _ Ho) as Hb. rewrite Hnil in Hb.
        unfold elems_cnt in Hlt.
        destruct (elems_buf (db !!! len o)); [simpl in Hlt; lia|].
        discriminate Hb. }
      destruct brk; [left; exact Hpos01|].
      assert (Hlt1 : (pos1 < total_ks_cnt)%Z).
      { symmetry in Hbrk. apply andb_false_iff in Hbrk as [Hb|Hb].
        - apply negb_false_iff, Nat.eqb_eq in Hb. lia.
        - apply Z.eqb_neq in Hb. lia. }
      pose proof (visits_spec total_ks_cnt os db1 pos1 Hinv1 Hos Hlt1)
        as Hvs.
      destruct (visits wordlen_dist total_ks_cnt os (db1, pos1))
        as [[db2 pos2] lines2].
      destruct Hvs as (_ & Hpos2 & _). left. lia.
Qed.

(** With enough fuel the loop ends, having visited exactly the positions
    up to [total_ks_cnt]. *)
Lemma rounds_spec (fuel : nat) (total_ks_cnt : Z) (os : list pw_order_t)
    (db : list db_entry_t) (pos : Z) :
  (forall n, In n lens -> elems_buf (db0 !!! n) <> [] ->
             (0 < wordlen_dist !!! n)%Z) ->
  (forall n, In n lens <-> In n (map len os)) ->
  db_inv db0 lens db -> (pos <= total_ks_cnt)%Z ->
  (total_ks_cnt - pos <= remaining db lens)%Z ->
  Z.to_nat (total_ks_cnt - pos) <= fuel ->
  let '(db', pos', lines, fin) :=
    rounds fuel wordlen_dist total_ks_cnt os (db, pos) in
  fin = true /\ pos' = total_ks_cnt /\
  Z.of_nat (length lines) = (total_ks_cnt - pos)%Z.
Proof.
  intros Hprio Hos. revert db pos.
  assert (Hos' : Forall (fun o => In (len o) lens) os).
  { apply List.Forall_forall. intros o Ho. apply Hos, in_map, Ho. }
  induction fuel as [|fuel IH]; intros db pos Hinv Hpos Hrem Hfuel;
    cbn [rounds snd].
  - destruct (Z.ltb_spec pos total_ks_cnt); [lia|].
    cbn [length]. repeat split; lia.
  - destruct (Z.ltb_spec pos total_ks_cnt);
      [|cbn [length]; repeat split; lia].
    pose proof (visits_spec total_ks_cnt os db pos Hinv Hos' ltac:(lia))
      as Hvs.
    pose proof (visits_progress total_ks_cnt os db pos Hprio Hinv Hos'
                  ltac:(lia)) as Hvp.
    destruct (visits wordlen_dist total_ks_cnt os (db, pos))
      as [[db1 pos1] lines1].
    destruct Hvs as (Hinv1 & Hpos1 & Hle1 & Hrem1).
    assert (Hprog : (pos < pos1)%Z).
    { destruct Hvp as [Hp|Hall]; [exact Hp|]. exfalso.
      rewrite remaining_exhausted in Hrem; [lia|].
      intros n Hn. apply Hos, in_map_iff in Hn as (o & <- & Ho).
      rewrite List.Forall_forall in Hall. apply Hall, Ho. }
    specialize (IH db1 pos1 Hinv1 Hle1 ltac:(lia) ltac:(lia)).
    destruct (rounds fuel wordlen_dist total_ks_cnt os (db1, pos1))
      as [[[db2 pos2] lines2] fin].
    destruct IH as (Hfin & Hpos2 & Hlen2).
    rewrite length_app, Nat2Z.inj_add.
    repeat split; [exact Hfin|exact Hpos2|lia].
Qed.

(** *** Two totals

    A run with the smaller total visits a prefix of what a run with the
    larger total visits. *)

Lemma visit_sim (total1 total2 : Z) (db : list db_entry_t) (pos : Z)
    (o : pw_order_t) :
  db_inv db0 lens db -> In (len o) lens -> (pos < total1 <= total2)%Z ->
  let '(db1, pos1, lines1, brk1) := visit wordlen_dist total1 (db, pos) o in
  let '(db2, pos2, lines2, brk2) := visit wordlen_dist total2 (db, pos) o in
  lines1 `prefix_of` lines2 /\
  ((pos1 < total1)%Z ->
   db1 = db2 /\ pos1 = pos2 /\ lines1 = lines2 /\
   brk1 = false /\ brk2 = false) /\
  (brk1 = false -> (pos1 < total1)%Z).
Proof.
  intros Hinv Hin Hpos. unfold visit.
  set (n := len o) in *. set (d := db !!! n).
  pose proof (inv_entry db0 lens db Hinv n Hin) as Hentry. fold d in Hentry.
  destruct (elems_buf d !! elems_pos d) as [e|] eqn:He.
  - pose proof (entry_current d Hentry e He) as Hcur.
    pose proof (batch_size_bounds e (wordlen_dist !!! n)
                  (total1 - pos)%Z Hcur
                  (wordlen_dist_nonneg n Hin) ltac:(lia)) as Hk1.
    pose proof (batch_size_mono e (wordlen_dist !!! n) (total1 - pos)%Z
                  (total2 - pos)%Z ltac:(lia)) as Hm.
    cbv zeta in Hk1, Hm.
    set (k1 := batch_size e (wordlen_dist !!! n) (total1 - pos)%Z) in *.
    set (k2 := batch_size e (wordlen_dist !!! n) (total2 - pos)%Z) in *.
    destruct Hm as (Hle & Heq & _).
    split; [|split].
    + rewrite (batch_lines_take db e k1 k2 Hle). apply prefix_take.
    + intros Hlt. rewrite <- (Heq ltac:(lia)).
      repeat split; [apply Z.eqb_neq; lia|].
      apply Z.eqb_neq. specialize (Heq ltac:(lia)). lia.
    + intros Hb. apply Z.eqb_neq in Hb. lia.
  - split; [reflexivity|]. split; [|lia]. intros _. repeat split.
Qed.

Lemma visits_sim (total1 total2 : Z) (os : list pw_order_t)
    (db : list db_entry_t) (pos : Z) :
  db_inv db0 lens db -> Forall (fun o => In (len o) lens) os ->
  (pos < total1 <= total2)%Z ->
  let '(db1, pos1, lines1) := visits wordlen_dist total1 os (db, pos) in
  let '(db2, pos2, lines2) := visits wordlen_dist total2 os (db, pos) in
  lines1 `prefix_of` lines2 /\
  ((pos1 < total1)%Z -> db1 = db2 /\ pos1 = pos2 /\ lines1 = lines2).
Proof.
  intros Hinv Hos. revert db pos Hinv.
  induction Hos as [|o os Ho _ IH]; intros db pos Hinv Hpos.
  - cbn [visits]. split; [reflexivity|]. intros _. repeat split.
  - cbn [visits].
    pose proof (visit_sim total1 total2 db pos o Hinv Ho Hpos) as Hs.
    pose proof (visit_spec total1 db pos o Hinv Ho ltac:(lia)) as Hv1.
    destruct (visit wordlen_dist total1 (db, pos) o)
      as [[[db1 pos1] lines1] brk1].
    destruct (visit wordlen_dist total2 (db, pos) o)
      as [[[db2 pos2] lines2] brk2].
    destruct Hs as (Hpre & Hsame & Hnobrk).
    destruct Hv1 as (Hinv1 & Hpos1 & Hle1 & _ & Hbrk1 & _).
    destruct brk1.
    + (* the first run leaves the loop here *)
      assert (pos1 = total1).
      { symmetry in Hbrk1. apply andb_true_iff in Hbrk1 as [_ Hb].
        apply Z.eqb_eq in Hb. exact Hb. }
      destruct brk2; [split; [exact Hpre|lia]|].
      destruct (visits wordlen_dist total2 os (db2, pos2))
        as [[db2' pos2'] lines2'].
      split; [|lia]. apply prefix_app_r. exact Hpre.
    + specialize (Hnobrk eq_refl).
      destruct (Hsame Hnobrk) as (<- & <- & <- & _ & ->).
      specialize (IH db1 pos1 Hinv1 ltac:(lia)).
      destruct (visits wordlen_dist total1 os (db1, pos1))
        as [[db1' pos1'] lines1'].
      destruct (visits wordlen_dist total2 os (db1, pos1))
        as [[db2' pos2'] lines2'].
      destruct IH as (Hpre' & Hsame').
      split; [apply prefix_app; exact Hpre'|].
      intros Hlt. destruct (Hsame' Hlt) as (-> & -> & ->).
      repeat split.
Qed.

Lemma rounds_sim (fuel1 fuel2 : nat) (total1 total2 : Z)
    (os : list pw_order_t) (db : list db_entry_t) (pos : Z) :
  db_inv db0 lens db -> Forall (fun o => In (len o) lens) os ->
  (total1 <= total2)%Z ->
  let '(_, _, lines1, fin1) :=
    rounds fuel1 wordlen_dist total1 os (db, pos) in
  let '(_, _, lines2, fin2) :=
    rounds fuel2 wordlen_dist total2 os (db, pos) in
  fin1 = true -> fin2 = true -> lines1 `prefix_of` lines2.
Proof.
  intros Hinv Hos Hle. revert fuel2 db pos Hinv.
  induction fuel1 as [|fuel1 IH]; intros fuel2 db pos Hinv;
    cbn [rounds snd].
  - destruct (Z.ltb_spec pos total1).
    + destruct (rounds fuel2 wordlen_dist total2 os (db, pos))
        as [[[? ?] ?] ?]. discriminate.
    + destruct (rounds fuel2 wordlen_dist total2 os (db, pos))
        as [[[? ?] lines2] ?]. intros _ _. apply prefix_nil.
  - destruct (Z.ltb_spec pos total1).
    + destruct fuel2 as [|fuel2]; cbn [rounds snd];
        (destruct (Z.ltb_spec pos total2); [|lia]).
      { destruct (visits wordlen_dist total1 os (db, pos))
          as [[db1 pos1] lines1].
        destruct (rounds fuel1 wordlen_dist total1 os (db1, pos1))
          as [[[? ?] ?] ?]. discriminate. }
      pose proof (visits_sim total1 total2 os db pos Hinv Hos ltac:(lia))
        as Hs.
      pose proof (visits_spec total1 os db pos Hinv Hos ltac:(lia)) as Hv1.
      destruct (visits wordlen_dist total1 os (db, pos))
        as [[db1 pos1] lines1].
      destruct (visits wordlen_dist total2 os (db, pos))
        as [[db2 pos2] lines2].
      destruct Hs as (Hpre & Hsame).
      destruct Hv1 as (Hinv1 & _ & Hle1 & _).
      destruct (Z_lt_ge_dec pos1 total1) as [Hlt|Hge].
      * destruct (Hsame Hlt) as (<- & <- & <-).
        specialize (IH fuel2 db1 pos1 Hinv1).
        destruct (rounds fuel1 wordlen_dist total1 os (db1, pos1))
          as [[[? ?] lines1'] fin1].
        destruct (rounds fuel2 wordlen_dist total2 os (db1, pos1))
          as [[[? ?] lines2'] fin2].
        intros H1 H2. apply prefix_app, IH; assumption.
      * assert (E : rounds fuel1 wordlen_dist total1 os (db1, pos1) =
                    (db1, pos1, [], true)).
        { destruct fuel1; cbn [rounds snd];
            (destruct (Z.ltb_spec pos1 total1); [lia|reflexivity]). }
        rewrite E.
        destruct (rounds fuel2 wordlen_dist total2 os (db2, pos2))
          as [[[? ?] lines2'] fin2].
        intros _ _. rewrite app_nil_r. apply prefix_app_r. exact Hpre.
    + destruct (rounds fuel2 wordlen_dist total2 os (db, pos))
        as [[[? ?] lines2] ?]. intros _ _. apply prefix_nil.
Qed.

End TraceLoop.

(** *** The loop and its trace *)

Lemma drop_snoc {A : Type} (l : list A) (x : A) (d : nat) :
  drop d (l ++ [x]) = drop d l ++ (if d <=? length l then [x] else []).
Proof.
  rewrite drop_app. f_equal.
  destruct (Nat.leb_spec d (length l)).
  - replace (d - length l) with 0 by lia. reflexivity.
  - destruct (d - length l) as [|j] eqn:E; [lia|]. destruct j; reflexivity.
Qed.

Lemma batch_lines_S (db : list db_entry_t) (e : elem_t) (m : nat) :
  batch_lines db e (Z.of_nat (S m)) =
  batch_lines db e (Z.of_nat m) ++ [line_at db e (ks_pos e + Z.of_nat m)%Z].
Proof.
  unfold batch_lines. rewrite !Nat2Z.id, seq_S, map_app. reflexivity.
Qed.

(** Splitting the conjunctions that are visible in the goal. *)
Ltac split_ands := repeat match goal with |- _ /\ _ => split end.

Section Refinement.
Context `{libc}.
Variables (junk : list byte) (skip : Z).

(** The innermost loop pushes the lines of the batch that lie at or
    beyond [skip]. *)
Lemma loop_iter_fold (db : list db_entry_t) (n : nat) (e : elem_t)
    (m : nat) (g : Z) (pw_buf : list byte) (out : out_t) :
  words_ok db -> n <= IN_LEN_MAX -> composition n (buf e) ->
  Forall (fun k => (0 < words_cnt (db !!! k))%Z) (buf e) ->
  (0 <= ks_pos e)%Z ->
  length pw_buf = BUFSIZ -> pw_buf !! n = Some x0a -> out_ok out ->
  exists pw_buf' out',
    fold_left (loop_iter e db skip n) (seq 0 m) (Some (g, pw_buf, out)) =
      Some ((g + Z.of_nat m)%Z, pw_buf', out') /\
    length pw_buf' = BUFSIZ /\ pw_buf' !! n = Some x0a /\ out_ok out' /\
    pushed out' =
      pushed out ++
      concat (drop (Z.to_nat (skip - g)) (batch_lines db e (Z.of_nat m))).
Proof.
  intros Hok Hn Hc Hne Hpos Hlen Hnl Hout.
  induction m as [|m IH].
  - exists pw_buf, out. cbn [seq fold_left]. rewrite Z.add_0_r.
    split_ands; try assumption; [reflexivity|].
    change (batch_lines db e (Z.of_nat 0)) with (@nil (list byte)).
    rewrite drop_nil. cbn [concat]. rewrite app_nil_r. reflexivity.
  - destruct IH as (pw_buf1 & out1 & Hfold & Hlen1 & Hnl1 & Hout1 & Hpush1).
    rewrite seq_S, fold_left_app, Hfold. cbn [fold_left Nat.add].
    rewrite batch_lines_S, drop_snoc, batch_lines_length, Nat2Z.id.
    rewrite concat_app, app_assoc, <- Hpush1.
    unfold loop_iter.
    destruct (Z.leb_spec skip (g + Z.of_nat m)) as [Hs|Hs].
    + destruct (line_step db BUFSIZ n e (ks_pos e + Z.of_nat m)%Z pw_buf1
                  Hok Hn Hc Hne ltac:(lia) Hlen1 Hnl1)
        as (pw_buf2 & -> & Hlen2 & Hnl2 & Htake).
      pose proof BUFSIZ_min as HB.
      pose proof Hn as Hn16. unfold IN_LEN_MAX in Hn16.
      destruct (out_push_spec out1 pw_buf2 (n + 1) Hout1 ltac:(lia)
                  ltac:(lia)) as (_ & out2 & -> & Hout2 & Hpush2).
      exists pw_buf2, out2.
      replace (g + Z.of_nat (S m))%Z with (g + Z.of_nat m + 1)%Z by lia.
      split_ands; try assumption; [reflexivity|].
      destruct (Nat.leb_spec (Z.to_nat (skip - g)) m); [|lia].
      rewrite Hpush2, Htake. cbn [concat]. rewrite app_nil_r. reflexivity.
    + exists pw_buf1, out1.
      replace (g + Z.of_nat (S m))%Z with (g + Z.of_nat m + 1)%Z by lia.
      split_ands; try assumption; [reflexivity|].
      destruct (Nat.leb_spec (Z.to_nat (skip - g)) m); [lia|].
      cbn [concat]. rewrite app_nil_r. reflexivity.
Qed.

Variables (db0 : list db_entry_t) (wordlen_dist : list Z) (lens : list nat).

Hypothesis db0_length : length db0 = IN_LEN_MAX + 1.
Hypothesis db0_words : words_ok db0.
Hypothesis db0_chains : forall n, In n lens -> chains_of db0 n.
Hypothesis lens_NoDup : List.NoDup lens.
Hypothesis lens_range : forall n, In n lens -> n <= IN_LEN_MAX.
Hypothesis wordlen_dist_range :
  forall n, In n lens -> (0 <= wordlen_dist !!! n < 2 ^ 64)%Z.

Lemma loop_order_refines (total_ks_cnt : Z) (st : loop_t) (o : pw_order_t) :
  loop_inv db0 lens total_ks_cnt st -> In (len o) lens ->
  let '(db', pos', lines, brk) :=
    visit wordlen_dist total_ks_cnt (l_db st, l_pos st) o in
  exists out',
    loop_order junk wordlen_dist skip total_ks_cnt st o =
      Some (mk_loop db' pos' out', brk) /\
    loop_inv db0 lens total_ks_cnt (mk_loop db' pos' out') /\
    fp out' =
      fp (l_out st) ++
      concat (drop (Z.to_nat (skip - l_pos st)) lines).
Proof.
  intros [Hinv Hpos Hout Hpend] Hin.
  pose proof (visit_spec db0 wordlen_dist lens db0_length lens_NoDup
                lens_range
                (fun n Hn => proj1 (wordlen_dist_range n Hn))
                total_ks_cnt (l_db st) (l_pos st) o Hinv Hin Hpos) as Hv.
  unfold visit in *. unfold loop_order.
  set (n := len o) in *. set (d := l_db st !!! n) in *.
  pose proof BUFSIZ_min as HB.
  pose proof (lens_range n Hin) as Hn.
  destruct (store_spec junk BUFSIZ n ltac:(unfold IN_LEN_MAX in Hn; lia))
    as (pw_buf & -> & Hlen & Hnl).
  pose proof (inv_entry db0 lens (l_db st) Hinv n Hin) as Hentry.
  fold d in Hentry.
  destruct (elems_buf d !! elems_pos d) as [e|] eqn:He.
  - pose proof (lookup_lt_Some _ _ _ He) as Hlt.
    unfold elems_cnt.
    destruct (Nat.eqb_spec (elems_pos d) (length (elems_buf d))); [lia|].
    pose proof (entry_current d Hentry e He) as Hcur.
    pose proof (batch_size_bounds e (wordlen_dist !!! n)
                  (total_ks_cnt - l_pos st)%Z Hcur
                  (proj1 (wordlen_dist_range n Hin)) ltac:(lia)) as Hk.
    cbv zeta in Hk.
    set (k := batch_size e (wordlen_dist !!! n)
                         (total_ks_cnt - l_pos st)%Z) in *.
    destruct Hk as (Hk0 & Hk1 & Hk2 & Hk3 & _).
    destruct Hv as (Hinv' & Hpos' & Hle' & _).
    assert (Hui : mpz_get_ui k = k).
    { unfold mpz_get_ui. rewrite Z.abs_eq by exact Hk0.
      apply Z.mod_small. pose proof (wordlen_dist_range n Hin). lia. }
    rewrite Hui.
    pose proof (db_inv_chains db0 lens db0_chains (l_db st) n Hinv Hin)
      as Hchains.
    unfold chains_of in Hchains. fold d in Hchains.
    rewrite List.Forall_forall in Hchains.
    destruct (Hchains (buf e)) as [Hc Hne].
    { apply in_map, list_elem_of_In, list_elem_of_lookup_2 with (i := elems_pos d).
      exact He. }
    assert (Hok : words_ok (l_db st))
      by (eapply same_words_ok; [apply Hinv|exact db0_words]).
    destruct (loop_iter_fold (l_db st) n e (Z.to_nat k) (l_pos st) pw_buf
                (l_out st) Hok Hn Hc Hne ltac:(lia) Hlen Hnl Hout)
      as (pw_buf' & out' & -> & _ & _ & Hout' & Hpush).
    rewrite Z2Nat.id in * by exact Hk0.
    exists (out_flush out'). split; [reflexivity|]. split.
    + split; cbn [l_db l_pos l_out]; [exact Hinv'|lia
        |apply out_flush_ok; exact Hout'|reflexivity].
    + destruct (out_flush_pushed out') as [-> _]. rewrite Hpush.
      unfold pushed. rewrite Hpend, app_nil_r. reflexivity.
  - apply lookup_ge_None_1 in He. destruct Hentry as [Hle _ _ _].
    unfold elems_cnt in *.
    destruct (Nat.eqb_spec (elems_pos d) (length (elems_buf d))); [|lia].
    exists (l_out st). cbn [concat]. rewrite drop_nil, app_nil_r.
    destruct st as [db pos out]. cbn [l_db l_pos l_out] in *.
    split; [reflexivity|]. split; [|reflexivity].
    split; assumption.
Qed.
Lemma concat_drop_app (lines1 lines2 : list (list byte)) (pos : Z) :
  concat (drop (Z.to_nat (skip - pos)) lines1) ++
  concat (drop (Z.to_nat (skip - (pos + Z.of_nat (length lines1)))) lines2)
  = concat (drop (Z.to_nat (skip - pos)) (lines1 ++ lines2)).
Proof.
  rewrite drop_app, concat_app. do 3 f_equal. lia.
Qed.

Lemma loop_orders_refines (total_ks_cnt : Z) (os : list pw_order_t)
    (st : loop_t) :
  loop_inv db0 lens total_ks_cnt st -> Forall (fun o => In (len o) lens) os ->
  (l_pos st < total_ks_cnt)%Z ->
  let '(db', pos', lines) :=
    visits wordlen_dist total_ks_cnt os (l_db st, l_pos st) in
  exists out',
    loop_orders junk wordlen_dist skip total_ks_cnt os st =
      Some (mk_loop db' pos' out') /\
    loop_inv db0 lens total_ks_cnt (mk_loop db' pos' out') /\
    fp out' =
      fp (l_out st) ++
      concat (drop (Z.to_nat (skip - l_pos st)) lines).
Proof.
  intros Hinv Hos. revert st Hinv.
  induction Hos as [|o os Ho _ IH]; intros st Hinv Hpos.
  - cbn [visits loop_orders]. exists (l_out st).
    rewrite drop_nil. cbn [concat]. rewrite app_nil_r.
    destruct st as [db pos out]. split_ands; [reflexivity|exact Hinv
                                              |reflexivity].
  - cbn [visits loop_orders].
    pose proof (loop_order_refines total_ks_cnt st o Hinv Ho) as Hr.
    pose proof (visit_spec db0 wordlen_dist lens db0_length lens_NoDup
                  lens_range
                  (fun n Hn => proj1 (wordlen_dist_range n Hn))
                  total_ks_cnt (l_db st) (l_pos st) o (linv_db _ _ _ _ Hinv) Ho
                  (linv_pos _ _ _ _ Hinv)) as Hv.
    destruct (visit wordlen_dist total_ks_cnt (l_db st, l_pos st) o)
      as [[[db1 pos1] lines1] brk].
    destruct Hr as (out1 & -> & Hinv1 & Hfp1).
    destruct Hv as (_ & Hpos1 & _ & _ & Hbrk & _ & Hskip).
    destruct brk.
    + exists out1. split_ands; [reflexivity|exact Hinv1|exact Hfp1].
    + assert (Hlt1 : (pos1 < total_ks_cnt)%Z).
      { symmetry in Hbrk. apply andb_false_iff in Hbrk as [Hb|Hb].
        - apply negb_false_iff, Nat.eqb_eq in Hb.
          destruct (Hskip Hb) as [_ ->]. cbn [length] in Hpos1. lia.
        - apply Z.eqb_neq in Hb. pose proof (linv_pos _ _ _ _ Hinv1) as Hle.
          cbn [l_pos] in Hle. lia. }
      specialize (IH (mk_loop db1 pos1 out1) Hinv1 Hlt1).
      cbn [l_db l_pos l_out] in IH.
      destruct (visits wordlen_dist total_ks_cnt os (db1, pos1))
        as [[db2 pos2] lines2].
      destruct IH as (out2 & -> & Hinv2 & Hfp2).
      exists out2. split_ands; [reflexivity|exact Hinv2|].
      rewrite Hfp2, Hfp1, Hpos1, <- app_assoc, concat_drop_app.
      reflexivity.
Qed.

Lemma loop_refines (fuel : nat) (total_ks_cnt : Z) (os : list pw_order_t)
    (st : loop_t) :
  loop_inv db0 lens total_ks_cnt st -> Forall (fun o => In (len o) lens) os ->
  let '(_, _, lines, fin) :=
    rounds fuel wordlen_dist total_ks_cnt os (l_db st, l_pos st) in
  loop fuel junk wordlen_dist skip total_ks_cnt os st =
  (if fin then Finished else Running)
    (fp (l_out st) ++ concat (drop (Z.to_nat (skip - l_pos st)) lines)).
Proof.
  intros Hinv Hos. revert st Hinv.
  induction fuel as [|fuel IH]; intros st Hinv; cbn [rounds loop snd].
  - destruct (Z.ltb_spec (l_pos st) total_ks_cnt);
      rewrite drop_nil; cbn [concat]; rewrite app_nil_r; reflexivity.
  - destruct (Z.ltb_spec (l_pos st) total_ks_cnt) as [Hlt|Hge];
      [|rewrite drop_nil; cbn [concat]; rewrite app_nil_r; reflexivity].
    pose proof (loop_orders_refines total_ks_cnt os st Hinv Hos Hlt) as Hr.
    pose proof (visits_spec db0 wordlen_dist lens db0_length lens_NoDup
                  lens_range
                  (fun n Hn => proj1 (wordlen_dist_range n Hn))
                  total_ks_cnt os (l_db st) (l_pos st) (linv_db _ _ _ _ Hinv)
                  Hos Hlt) as Hv.
    destruct (visits wordlen_dist total_ks_cnt os (l_db st, l_pos st))
      as [[db1 pos1] lines1].
    destruct Hr as (out1 & -> & Hinv1 & Hfp1).
    destruct Hv as (_ & Hpos1 & _).
    specialize (IH (mk_loop db1 pos1 out1) Hinv1).
    cbn [l_db l_pos l_out] in IH.
    destruct (rounds fuel wordlen_dist total_ks_cnt os (db1, pos1))
      as [[[db2 pos2] lines2] fin].
    rewrite IH, Hfp1, Hpos1, <- app_assoc, concat_drop_app. reflexivity.
Qed.
End Refinement.

(* ================================================================= *)
(** ** The loop of [main] *)

Lemma init_wordlen_dist_lookup (wl_dist_len : bool) (db : list db_entry_t)
    (n : nat) :
  IN_LEN_MIN <= n <= IN_LEN_MAX ->
  init_wordlen_dist wl_dist_len db !!! n =
  wordlen_dist_entry wl_dist_len db n.
Proof.
  unfold IN_LEN_MIN, IN_LEN_MAX. intros Hn.
  do 17 (destruct n as [|n]; [try lia; reflexivity|]). lia.
Qed.

Lemma load_words_cnt (stdin : list (list byte)) (db : list db_entry_t)
    (k : nat) :
  (words_cnt (load_words stdin db !!! k)
   <= words_cnt (db !!! k) + Z.of_nat (length stdin))%Z.
Proof.
  unfold load_words. revert db.
  induction stdin as [|line stdin IH]; intros db; cbn [fold_left length];
    [lia|].
  specialize (IH (load_line db line)).
  assert (words_cnt (load_line db line !!! k) <= words_cnt (db !!! k) + 1)%Z;
    [|lia].
  unfold load_line. destruct (in_superchop line) as [input_buf input_len].
  destruct (_ <? _); [lia|]. destruct (_ <? _); [lia|].
  rewrite list_lookup_total_insert.
  destruct (decide _) as [[-> _]|_]; [|lia].
  unfold words_cnt. cbn [add_word words_buf]. rewrite length_app.
  cbn [length]. lia.
Qed.

Lemma wordlen_dist_entry_range (wl_dist_len : bool) (db : list db_entry_t)
    (n : nat) :
  IN_LEN_MIN <= n <= IN_LEN_MAX ->
  (words_cnt (db !!! n) < 2 ^ 64)%Z ->
  (0 <= wordlen_dist_entry wl_dist_len db n < 2 ^ 64)%Z /\
  (wl_dist_len = false -> (0 < wordlen_dist_entry wl_dist_len db n)%Z).
Proof.
  unfold IN_LEN_MIN, IN_LEN_MAX, wordlen_dist_entry. intros Hn Hw.
  destruct wl_dist_len.
  - split; [unfold words_cnt in *; lia|discriminate].
  - do 17 (destruct n as [|n];
           [try lia; vm_compute; repeat split; congruence|]). lia.
Qed.

Lemma loop_not_Failed `{libc} (fuel : nat) (junk : list byte)
    (wordlen_dist : list Z) (skip total_ks_cnt : Z)
    (pw_orders : list pw_order_t) (st : loop_t) (diagnostic : string) :
  loop fuel junk wordlen_dist skip total_ks_cnt pw_orders st
    <> Failed diagnostic.
Proof.
  revert st. induction fuel as [|fuel IH]; intros st; cbn [loop].
  - destruct (_ <? _)%Z; discriminate.
  - destruct (_ <? _)%Z; [|discriminate].
    destruct (loop_orders _ _ _ _ _ _); [apply IH|discriminate].
Qed.

Lemma mpz_cmp_gtb (a b : Z) : (mpz_cmp a b >? 0)%Z = (b <? a)%Z.
Proof.
  unfold mpz_cmp. rewrite Z.gtb_ltb.
  destruct (Z.ltb_spec b a), (Z.ltb_spec 0 (Z.sgn (a - b))); lia.
Qed.

(** The skip/limit checks, for parameters that are not negative. *)
Lemma check_skip_limit_spec (skip limit total_ks_cnt : Z) :
  (0 <= skip)%Z -> (0 <= limit)%Z -> (0 <= total_ks_cnt)%Z ->
  check_skip_limit skip limit total_ks_cnt =
  if (total_ks_cnt <? skip)%Z
  then inl "Value of --skip must be smaller than total keyspace"%string
  else if (limit =? 0)%Z then inr total_ks_cnt
  else if (total_ks_cnt <? limit)%Z
  then inl "Value of --limit must be smaller than total keyspace"%string
  else if (total_ks_cnt <? skip + limit)%Z
  then inl "Value of --skip + --limit must be smaller than total keyspace"%string
  else inr (skip + limit)%Z.
Proof.
  intros Hs Hl Ht. unfold check_skip_limit. rewrite !mpz_cmp_gtb.
  destruct (Z.eqb_spec skip 0) as [->|Hs0]; cbn [negb andb].
  - destruct (Z.ltb_spec total_ks_cnt 0); [lia|].
    destruct (Z.eqb_spec limit 0); reflexivity.
  - destruct (Z.ltb_spec total_ks_cnt skip); [reflexivity|].
    destruct (Z.eqb_spec limit 0); reflexivity.
Qed.


Lemma check_params_with_window (p : params) (skip limit : Z) :
  check_params (with_window p skip limit) = check_params p.
Proof. reflexivity. Qed.

Section MainLoop.
Context `{libc}.
Variables (p : params) (stdin : list (list byte)).
Hypothesis p_valid : check_params p = None.
Hypothesis stdin_small : (Z.of_nat (length stdin) < 2 ^ 64)%Z.

Let s := setup p stdin.
Let lens := pw_lens (Z.to_nat (pw_min p)) (Z.to_nat (pw_max p)).

Lemma lens_bounds (n : nat) :
  In n lens -> IN_LEN_MIN <= n <= IN_LEN_MAX.
Proof.
  intros Hn. apply pw_lens_In in Hn.
  pose proof (check_params_bounds p p_valid).
  unfold IN_LEN_MIN, IN_LEN_MAX. lia.
Qed.

Lemma lens_range (n : nat) : In n lens -> n <= IN_LEN_MAX.
Proof. intros Hn. apply lens_bounds in Hn. lia. Qed.

Lemma setup_wordlen_dist (n : nat) :
  In n lens ->
  (0 <= s_wordlen_dist s !!! n < 2 ^ 64)%Z /\
  (wl_dist_len p = false -> (0 < s_wordlen_dist s !!! n)%Z).
Proof.
  intros Hn. unfold s. destruct (setup_spec p stdin p_valid) as (_ & -> & _).
  rewrite init_wordlen_dist_lookup by (apply lens_bounds; exact Hn).
  apply wordlen_dist_entry_range; [apply lens_bounds; exact Hn|].
  pose proof (generated_same_words p stdin p_valid) as Hs.
  rewrite (same_words_cnt _ _ n Hs).
  pose proof (load_words_cnt stdin db_entries_init n) as Hc.
  rewrite db_entries_init_lookup in Hc.
  change (words_cnt db_entry_zero) with 0%Z in Hc. lia.
Qed.

Lemma default_priorities_positive :
  wl_dist_len p = false -> priorities_positive p stdin.
Proof. intros Hwl n Hn _. apply setup_wordlen_dist; assumption. Qed.

Lemma setup_chains_of (n : nat) : In n lens -> chains_of (s_db s) n.
Proof.
  intros Hn. apply pw_lens_In in Hn.
  pose proof (setup_chains_ok p stdin p_valid n Hn) as Hok.
  unfold chains_of. apply List.Forall_map.
  eapply List.Forall_impl; [|exact Hok].
  intros e [Hc [Hne _] _ _]. split; assumption.
Qed.

Lemma setup_orders_lens (n : nat) :
  In n lens <-> In n (map len (s_orders s)).
Proof.
  destruct (setup_spec p stdin p_valid) as (_ & _ & _ & _ & Horders).
  fold s in Horders.
  assert (Hperm : Permutation (map len (s_orders s)) lens).
  { rewrite Horders, qsort_Permutation. unfold init_pw_orders.
    rewrite map_map. cbn [len]. rewrite map_id. reflexivity. }
  split; intros Hn.
  - eapply Permutation_in; [symmetry; exact Hperm|exact Hn].
  - eapply Permutation_in; [exact Hperm|exact Hn].
Qed.

Lemma setup_orders_Forall :
  Forall (fun o => In (len o) lens) (s_orders s).
Proof.
  apply List.Forall_forall. intros o Ho.
  apply setup_orders_lens, in_map, Ho.
Qed.

Lemma setup_entry_ok (n : nat) : In n lens -> entry_ok (s_db s !!! n).
Proof.
  intros Hn. apply pw_lens_In in Hn.
  pose proof (setup_chains_ok p stdin p_valid n Hn) as Hok.
  destruct (setup_spec p stdin p_valid) as (_ & _ & Hslot & _).
  destruct (Hslot n Hn) as [_ Hpos]. fold s in Hok, Hpos.
  rewrite List.Forall_forall in Hok.
  assert (Hall : forall i e, elems_buf (s_db s !!! n) !! i = Some e ->
                   ks_pos e = 0%Z /\ (0 < ks_cnt e)%Z).
  { intros i e He.
    pose proof (Hok e (proj1 (list_elem_of_In _ _)
                             (list_elem_of_lookup_2 _ _ _ He))) as Hc.
    split; [apply Hc|eapply chain_ok_ks_pos; exact Hc]. }
  split.
  - rewrite Hpos. lia.
  - apply List.Forall_forall. intros e He.
    eapply chain_ok_ks_pos, Hok, He.
  - intros e He. destruct (Hall _ _ He). lia.
  - intros i e He _. apply (Hall _ _ He).
Qed.

Lemma setup_db_inv : db_inv (s_db s) lens (s_db s).
Proof.
  split; [apply same_words_refl|apply setup_entry_ok|reflexivity].
Qed.

Lemma setup_remaining : remaining (s_db s) lens = s_total s.
Proof.
  destruct (setup_spec p stdin p_valid) as (_ & _ & Hslot & Ht & _).
  fold s lens in Ht, Hslot. rewrite Ht. unfold remaining.
  apply fold_right_add_ext. intros n Hn.
  pose proof (setup_entry_ok n Hn) as [_ _ Hcur _].
  apply pw_lens_In in Hn. destruct (Hslot n Hn) as [_ Hpos].
  unfold remaining_of. rewrite Hpos in *. rewrite drop_0.
  destruct (elems_buf (s_db s !!! n) !! 0) as [e|] eqn:He; [|lia].
  pose proof (setup_chains_ok p stdin p_valid n Hn) as Hok.
  rewrite List.Forall_forall in Hok.
  pose proof (Hok e (proj1 (list_elem_of_In _ _)
                           (list_elem_of_lookup_2 _ _ _ He))) as Hc.
  rewrite (chain_ks_pos _ _ _ _ _ Hc). lia.
Qed.

Hypothesis progress : priorities_positive p stdin.

Lemma rounds_setup (fuel : nat) (total_ks_cnt : Z) :
  (0 <= total_ks_cnt <= s_total s)%Z -> Z.to_nat total_ks_cnt <= fuel ->
  exists db' lines,
    rounds fuel (s_wordlen_dist s) total_ks_cnt (s_orders s) (s_db s, 0%Z)
      = (db', total_ks_cnt, lines, true) /\
    Z.of_nat (length lines) = total_ks_cnt.
Proof.
  intros Ht Hfuel.
  pose proof (rounds_spec (s_db s) (s_wordlen_dist s) lens
                (setup_length p stdin p_valid) (pw_lens_NoDup _ _) lens_range
                (fun n Hn => proj1 (proj1 (setup_wordlen_dist n Hn)))
                fuel total_ks_cnt (s_orders s) (s_db s) 0%Z progress
                setup_orders_lens setup_db_inv ltac:(lia)
                ltac:(rewrite setup_remaining; lia) ltac:(lia)) as Hr.
  destruct (rounds fuel _ _ _ _) as [[[db' pos'] lines] fin].
  destruct Hr as (-> & -> & Hlen). exists db', lines.
  split; [reflexivity|lia].
Qed.
Lemma visited_length (total_ks_cnt : Z) :
  (0 <= total_ks_cnt <= s_total s)%Z ->
  Z.of_nat (length (visited p stdin total_ks_cnt)) = total_ks_cnt.
Proof.
  intros Ht. unfold visited. cbv zeta. change (setup p stdin) with s.
  destruct (rounds_setup (Z.to_nat total_ks_cnt) total_ks_cnt Ht ltac:(lia))
    as (db' & lines & -> & Hlen).
  exact Hlen.
Qed.

(** Runs with two totals from the state left by [setup]. *)
Lemma rounds_setup_prefix (fuel1 fuel2 : nat) (total1 total2 : Z) :
  (0 <= total1 <= total2)%Z -> (total2 <= s_total s)%Z ->
  Z.to_nat total1 <= fuel1 -> Z.to_nat total2 <= fuel2 ->
  (rounds fuel1 (s_wordlen_dist s) total1 (s_orders s) (s_db s, 0%Z)).1.2
  = take (Z.to_nat total1)
      (rounds fuel2 (s_wordlen_dist s) total2 (s_orders s) (s_db s, 0%Z)).1.2.
Proof.
  intros Ht1 Ht2 Hf1 Hf2.
  pose proof (rounds_sim (s_db s) (s_wordlen_dist s) lens
                (setup_length p stdin p_valid) (pw_lens_NoDup _ _) lens_range
                (fun n Hn => proj1 (proj1 (setup_wordlen_dist n Hn)))
                fuel1 fuel2 total1 total2 (s_orders s) (s_db s) 0%Z
                setup_db_inv setup_orders_Forall ltac:(lia)) as Hsim.
  destruct (rounds_setup fuel1 total1 ltac:(lia) Hf1)
    as (db1 & lines1 & E1 & Hlen1).
  destruct (rounds_setup fuel2 total2 ltac:(lia) Hf2)
    as (db2 & lines2 & E2 & Hlen2).
  rewrite E1, E2 in *. cbn [fst snd].
  destruct (Hsim eq_refl eq_refl) as [rest ->].
  replace (Z.to_nat total1) with (length lines1) by lia.
  rewrite take_app_length. reflexivity.
Qed.

Lemma visited_prefix (total1 total2 : Z) :
  (0 <= total1 <= total2)%Z -> (total2 <= s_total s)%Z ->
  visited p stdin total1 = take (Z.to_nat total1) (visited p stdin total2).
Proof.
  intros Ht1 Ht2. apply rounds_setup_prefix; lia.
Qed.

(** The loop of [main], run with enough fuel from the state left by
    [setup], ends and has written the visited lines from [skip] on. *)
Lemma loop_setup (fuel : nat) (junk : list byte) (skip total_ks_cnt : Z) :
  (0 <= total_ks_cnt <= s_total s)%Z -> Z.to_nat total_ks_cnt <= fuel ->
  loop fuel junk (s_wordlen_dist s) skip total_ks_cnt (s_orders s)
       (mk_loop (s_db s) 0%Z (out_init junk))
  = Finished (concat (drop (Z.to_nat skip) (visited p stdin total_ks_cnt))).
Proof.
  intros Ht Hfuel.
  pose proof (loop_refines junk skip (s_db s) (s_wordlen_dist s) lens
                (setup_length p stdin p_valid) (setup_words_ok p stdin p_valid)
                setup_chains_of (pw_lens_NoDup _ _) lens_range
                (fun n Hn => proj1 (setup_wordlen_dist n Hn))
                fuel total_ks_cnt (s_orders s)
                (mk_loop (s_db s) 0%Z (out_init junk))) as Hr.
  cbn [l_db l_pos l_out] in Hr.
  pose proof (rounds_setup_prefix fuel (Z.to_nat total_ks_cnt)
                total_ks_cnt total_ks_cnt ltac:(lia) ltac:(lia) Hfuel
                ltac:(lia)) as Hpre.
  change (rounds (Z.to_nat total_ks_cnt) _ _ _ _).1.2
    with (visited p stdin total_ks_cnt) in Hpre.
  rewrite take_ge in Hpre
    by (pose proof (visited_length total_ks_cnt Ht); lia).
  destruct (rounds_setup fuel total_ks_cnt Ht Hfuel)
    as (db' & lines & E & _).
  rewrite E in Hr, Hpre. cbn [fst snd] in Hpre. subst lines.
  rewrite Hr.
  - rewrite Z.sub_0_r. reflexivity.
  - split; cbn [l_db l_pos l_out];
      [exact setup_db_inv|lia|apply out_init_ok|reflexivity].
  - exact setup_orders_Forall.
Qed.

(** A run of [main] over a window that passes the checks. *)
Lemma main_window (fuel : nat) (junk : list byte) (sk lim total : Z) :
  keyspace p = false ->
  check_skip_limit sk lim (s_total s) = inr total ->
  (0 <= total <= s_total s)%Z -> Z.to_nat total <= fuel ->
  main fuel junk (with_window p sk lim) stdin
  = Finished (concat (drop (Z.to_nat sk) (visited p stdin total))).
Proof.
  intros Hk Hc Ht Hfuel. unfold main.
  rewrite check_params_with_window, p_valid.
  cbn [with_window keyspace skip limit]. rewrite Hk.
  change (setup _ stdin) with s. rewrite Hc.
  apply loop_setup; assumption.
Qed.

(** Every visited line ends with the newline. *)
Lemma visited_newline (total_ks_cnt : Z) :
  Forall (fun line => exists c, line = c ++ [x0a]) (visited p stdin total_ks_cnt).
Proof.
  unfold visited. cbv zeta. change (setup p stdin) with s.
  generalize (Z.to_nat total_ks_cnt) as fuel.
  generalize (s_db s, 0%Z) as st.
  assert (Hvisit : forall st o,
            Forall (fun line => exists c, line = c ++ [x0a])
              (visit (s_wordlen_dist s) total_ks_cnt st o).1.2).
  { intros [db pos] o. unfold visit.
    destruct (elems_buf (db !!! len o) !! _) as [e|]; cbn [fst snd];
      [|constructor].
    unfold batch_lines. apply List.Forall_forall. intros line Hl.
    apply in_map_iff in Hl as (i & <- & _). eexists. reflexivity. }
  assert (Hvisits : forall os st,
            Forall (fun line => exists c, line = c ++ [x0a])
              (visits (s_wordlen_dist s) total_ks_cnt os st).2).
  { induction os as [|o os IH]; intros st; cbn [visits];
      [constructor|].
    specialize (Hvisit st o).
    destruct (visit _ _ st o) as [[[db1 pos1] lines1] brk].
    cbn [fst snd] in Hvisit. destruct brk; [exact Hvisit|].
    specialize (IH (db1, pos1)).
    destruct (visits _ _ os (db1, pos1)) as [st2 lines2].
    cbn [snd] in *. apply Forall_app. split; assumption. }
  intros st fuel. revert st.
  induction fuel as [|fuel IH]; intros st; cbn [rounds].
  - destruct (_ <? _)%Z; constructor.
  - destruct (_ <? _)%Z; [|constructor].
    specialize (Hvisits (s_orders s) st).
    destruct (visits _ _ _ st) as [st1 lines1].
    specialize (IH st1).
    destruct (rounds fuel _ _ _ st1) as [[st2 lines2] fin].
    cbn [fst snd] in *. apply Forall_app. split; assumption.
Qed.
(** The number of lines a run emits: [limit] of them, or all from [skip]
    on when no limit is given. *)
Lemma main_emits (fuel : nat) (junk : list byte) (sk lim : Z) :
  keyspace p = false ->
  (0 <= sk <= s_total s)%Z -> (0 <= lim)%Z ->
  (sk + lim <= s_total s)%Z ->
  Z.to_nat (s_total s) <= fuel ->
  exists lines,
    main fuel junk (with_window p sk lim) stdin = Finished (concat lines) /\
    Forall (fun line => exists c, line = c ++ [x0a]) lines /\
    Z.of_nat (length lines) =
      (if (lim =? 0)%Z then s_total s - sk else lim)%Z.
Proof.
  intros Hk Hsk Hlim Hsum Hfuel.
  pose proof (setup_total_nonneg p stdin p_valid) as Ht. fold s in Ht.
  pose proof (check_skip_limit_spec sk lim (s_total s) ltac:(lia) Hlim Ht)
    as Hc.
  destruct (Z.ltb_spec (s_total s) sk); [lia|].
  destruct (Z.eqb_spec lim 0) as [->|Hne].
  - exists (drop (Z.to_nat sk) (visited p stdin (s_total s))).
    split; [apply (main_window fuel junk sk 0 _ Hk Hc); lia|].
    split; [apply Forall_drop, visited_newline|].
    rewrite length_drop.
    pose proof (visited_length (s_total s) ltac:(lia)). lia.
  - destruct (Z.ltb_spec (s_total s) lim); [lia|].
    destruct (Z.ltb_spec (s_total s) (sk + lim)); [lia|].
    exists (drop (Z.to_nat sk) (visited p stdin (sk + lim))).
    split; [apply (main_window fuel junk sk lim _ Hk Hc); lia|].
    split; [apply Forall_drop, visited_newline|].
    rewrite length_drop.
    pose proof (visited_length (sk + lim) ltac:(lia)). lia.
Qed.
End MainLoop.

(** [--keyspace], [--skip] and [--limit] play no part before the checks. *)
Lemma setup_keyspace_flag `{libc} (p : params) (stdin : list (list byte))
    (b : bool) (sk lim : Z) :
  setup (mk_params b (pw_min p) (pw_max p) (elem_cnt_min p) (elem_cnt_max p)
                   (wl_dist_len p) sk lim) stdin = setup p stdin /\
  (prepare p stdin).2 = s_total (setup p stdin).
Proof.
  unfold setup, prepare. cbn [pw_min pw_max elem_cnt_min elem_cnt_max wl_dist_len].
  destruct (calc_keyspace _ _ _). split; reflexivity.
Qed.

(* ================================================================= *)
(** * The properties of the specification *)



(** C3. After setup, every stored chain has [ks_cnt] equal to the product
    of the word counts of the buckets of its parts, and [total_ks_cnt]
    (before the limit adjustment) is the sum of [ks_cnt] over the chains of
    all lengths in [pw_min .. pw_max]. *)
Theorem keyspace_is_product_and_total_is_sum `{libc}
    (p : params) (stdin : list (list byte)) :
  check_params p = None ->
  let s := setup p stdin in
  (forall n e,
     (pw_min p <= Z.of_nat n <= pw_max p)%Z ->
     In e (elems_buf (s_db s !!! n)) ->
     ks_cnt e = radix_product (s_db s) (buf e)) /\
  s_total s =
    fold_right (fun n acc => (sum_ks (elems_buf (s_db s !!! n)) + acc)%Z)
               0%Z (pw_lens (Z.to_nat (pw_min p)) (Z.to_nat (pw_max p))).
Proof.
  intros Hp s. split.
  - intros n e Hn He.
    pose proof (setup_chains_ok p stdin Hp n ltac:(lia)) as Hok.
    rewrite List.Forall_forall in Hok. apply (Hok e He).
  - apply (setup_spec p stdin Hp).
Qed.

Lemma keyspace_is_product_and_total_is_sum_witness :
  s_total (setup (H := glibc) (mk_params false 2 2 1 8 false 0 0)
                 (map list_byte_of_string ["a"; "b"; "c"]%string)) = 9%Z.
Proof.
  rewrite (proj2 (keyspace_is_product_and_total_is_sum (H := glibc)
                    (mk_params false 2 2 1 8 false 0 0)
                    (map list_byte_of_string ["a"; "b"; "c"]%string)
                    eq_refl)).
  vm_compute. reflexivity.
Defined.

(** C7, counterexample. With the insertion sort for [qsort], the words "a"
    and "bc" and chains of exactly two parts for length 3, the two chains
    (1,2) and (2,1) have the same keyspace and are stored in the order
    (2,1), (1,2): against generation order. *)
Lemma ties_in_generation_order_counterexample :
  ~ (forall (L : libc) (p : params) (stdin : list (list byte)) (n : nat),
       check_params p = None ->
       (pw_min p <= Z.of_nat n <= pw_max p)%Z ->
       let chains := elems_buf (s_db (setup p stdin) !!! n) in
       StronglySorted (fun e1 e2 => (ks_cnt e1 <= ks_cnt e2)%Z) chains /\
       forall k,
         List.filter (fun e => (ks_cnt e =? k)%Z) chains =
         List.filter (fun e => (ks_cnt e =? k)%Z) (unsorted_elems p stdin n)).
Proof.
  intros Hclaim.
  destruct (Hclaim small_libc (mk_params false 3 3 2 2 false 0 0)
              (map list_byte_of_string ["a"; "bc"]%string) 3 eq_refl
              ltac:(simpl; lia)) as [_ Hties].
  specialize (Hties 1%Z). vm_compute in Hties. discriminate Hties.
Qed.

(** C7, as amended. After setup the chains stored for a length are the
    generated chains, rearranged by [qsort] into ascending order of
    [ks_cnt]. Chains with equal [ks_cnt] keep their generation order when
    [qsort] is the merge sort; in general their order is the one [qsort]
    leaves them in. *)
Theorem chains_sorted_by_keyspace `{libc}
    (p : params) (stdin : list (list byte)) (n : nat) :
  check_params p = None ->
  (pw_min p <= Z.of_nat n <= pw_max p)%Z ->
  let chains := elems_buf (s_db (setup p stdin) !!! n) in
  StronglySorted (fun e1 e2 => (ks_cnt e1 <= ks_cnt e2)%Z) chains /\
  Permutation chains (unsorted_elems p stdin n) /\
  ((forall (A : Type) (b : list A) compar, qsort b compar = msort b compar) ->
   forall k,
     List.filter (fun e => (ks_cnt e =? k)%Z) chains =
     List.filter (fun e => (ks_cnt e =? k)%Z) (unsorted_elems p stdin n)).
Proof.
  intros Hp Hn chains.
  destruct (setup_spec p stdin Hp) as (_ & _ & Hslot & _).
  destruct (Hslot n ltac:(lia)) as [Hchains _]. fold chains in Hchains.
  rewrite Hchains. split; [|split].
  - apply (Sorted_compar_key ks_cnt sort_by_ks sort_by_ks_key).
    apply qsort_Sorted, sort_by_ks_consistent.
  - apply qsort_Permutation.
  - intros Hmsort k. rewrite Hmsort.
    apply (msort_stable ks_cnt sort_by_ks sort_by_ks_key).
Qed.

Lemma chains_sorted_by_keyspace_witness :
  Permutation
    (elems_buf
       (s_db (setup (H := glibc) (mk_params false 3 3 2 2 false 0 0)
                    (map list_byte_of_string ["a"; "bc"]%string)) !!! 3))
    (unsorted_elems (mk_params false 3 3 2 2 false 0 0)
                    (map list_byte_of_string ["a"; "bc"]%string) 3).
Proof.
  refine (proj1 (proj2 (chains_sorted_by_keyspace (H := glibc)
            (mk_params false 3 3 2 2 false 0 0)
            (map list_byte_of_string ["a"; "bc"]%string) 3 _ _))).
  - reflexivity.
  - simpl. lia.
Defined.

(** C6, counterexample. With the merge sort for [qsort], one word of
    length 1, two of length 2, lengths 1 to 2 and the default table
    (priority 15 for length 1, 56 for length 2), the loop visits length 2
    first: the order is not ascending in the priority. *)
Lemma length_order_counterexample :
  ~ (forall (L : libc) (p : params) (stdin : list (list byte)),
       check_params p = None ->
       let s := setup p stdin in
       StronglySorted
         (fun n1 n2 => (s_wordlen_dist s !!! n1 <= s_wordlen_dist s !!! n2)%Z)
         (map len (s_orders s))).
Proof.
  intros Hclaim.
  specialize (Hclaim glibc (mk_params false 1 2 1 8 false 0 0)
                (map list_byte_of_string ["a"; "bc"; "de"]%string) eq_refl).
  vm_compute in Hclaim.
  inversion Hclaim as [|? ? _ Hall]; subst.
  inversion Hall as [|? ? Hle _]; subst.
  apply Hle. reflexivity.
Qed.

Lemma setup_orders_wl_dist_len `{libc} (p : params) (stdin : list (list byte))
    (b : bool) :
  let p' := mk_params (keyspace p) (pw_min p) (pw_max p) (elem_cnt_min p)
                      (elem_cnt_max p) b (skip p) (limit p) in
  s_orders (setup p' stdin) = s_orders (setup p stdin) /\
  s_db (setup p' stdin) = s_db (setup p stdin).
Proof.
  unfold setup, prepare. cbn [pw_min pw_max elem_cnt_min elem_cnt_max].
  destruct (calc_keyspace _ _ _). split; reflexivity.
Qed.

(** C6, as amended. The length order used by the loop is the array of the
    lengths [pw_min .. pw_max], each with the number of words of that
    length, as rearranged by [qsort] with [sort_by_cnt]: a permutation of
    the lengths that is keyed on the word counts and is the same with and
    without [wl-dist-len] (the priority table only bounds the batches).
    When [qsort] is the merge sort the order is by descending word
    count. *)
Theorem length_order_by_word_count `{libc}
    (p : params) (stdin : list (list byte)) :
  check_params p = None ->
  let s := setup p stdin in
  Permutation (map len (s_orders s))
              (pw_lens (Z.to_nat (pw_min p)) (Z.to_nat (pw_max p))) /\
  Forall (fun o => ocnt o = words_cnt (s_db s !!! len o)) (s_orders s) /\
  (forall b,
     s_orders (setup (mk_params (keyspace p) (pw_min p) (pw_max p)
                                (elem_cnt_min p) (elem_cnt_max p) b
                                (skip p) (limit p)) stdin) = s_orders s) /\
  ((forall (A : Type) (b : list A) compar, qsort b compar = msort b compar) ->
   StronglySorted (fun o1 o2 => (ocnt o2 <= ocnt o1)%Z) (s_orders s)).
Proof.
  intros Hp s.
  destruct (setup_spec p stdin Hp) as (_ & _ & _ & _ & Horders).
  fold s in Horders.
  set (pmin := Z.to_nat (pw_min p)) in *.
  set (pmax := Z.to_nat (pw_max p)) in *.
  assert (Hperm : Permutation (s_orders s) (init_pw_orders pmin pmax (s_db s)))
    by (rewrite Horders; apply qsort_Permutation).
  split; [|split; [|split]].
  - rewrite Hperm. unfold init_pw_orders. rewrite map_map. cbn [len].
    rewrite map_id. reflexivity.
  - eapply Permutation.Permutation_Forall; [symmetry; exact Hperm|].
    unfold init_pw_orders. apply List.Forall_forall. intros o Ho.
    apply in_map_iff in Ho as (n & <- & _). reflexivity.
  - intros b. apply (setup_orders_wl_dist_len p stdin b).
  - intros Hmsort. rewrite Horders, Hmsort.
    pose proof (msort_with_tmp_key (fun o => (- ocnt o)%Z) sort_by_cnt
                  sort_by_cnt_key
                  (length (init_pw_orders pmin pmax (s_db s)))
                  (init_pw_orders pmin pmax (s_db s)) ltac:(lia)) as Hs.
    unfold msort. induction Hs as [|o l _ IH Hall]; constructor; [exact IH|].
    eapply List.Forall_impl; [|exact Hall]. unfold le_key. intros o'. lia.
Qed.

Lemma length_order_by_word_count_witness :
  map len (s_orders (setup (H := glibc) (mk_params false 1 2 1 8 false 0 0)
                       (map list_byte_of_string ["a"; "bc"; "de"]%string)))
  = [2; 1] /\
  Permutation [2; 1] (pw_lens 1 2).
Proof.
  split; [vm_compute; reflexivity|].
  exact (proj1 (length_order_by_word_count (H := glibc)
                  (mk_params false 1 2 1 8 false 0 0)
                  (map list_byte_of_string ["a"; "bc"; "de"]%string) eq_refl)).
Defined.

(** The bucket of length [k] holds the chopped input lines of length [k],
    in input order. *)
Lemma load_words_bucket (stdin : list (list byte)) (db : list db_entry_t)
    (k : nat) :
  k < length db -> IN_LEN_MIN <= k <= IN_LEN_MAX ->
  bucket (load_words stdin db) k =
  bucket db k ++
  List.filter (fun word => length word =? k)
              (map (fun line => (in_superchop line).1) stdin).
Proof.
  unfold load_words. revert db.
  induction stdin as [|line stdin IH]; intros db Hk Hr; cbn [fold_left map].
  - rewrite app_nil_r. reflexivity.
  - rewrite IH by (rewrite ?load_line_length; assumption).
    cbn [List.filter]. unfold load_line.
    pose proof (in_superchop_length line) as Hlen.
    destruct (in_superchop line) as [input_buf input_len]. cbn [fst snd] in *.
    rewrite Hlen.
    destruct (Nat.ltb_spec input_len IN_LEN_MIN).
    { destruct (Nat.eqb_spec input_len k); [lia|reflexivity]. }
    destruct (Nat.ltb_spec IN_LEN_MAX input_len).
    { destruct (Nat.eqb_spec input_len k); [lia|reflexivity]. }
    unfold bucket. rewrite list_lookup_total_insert.
    destruct (Nat.eqb_spec input_len k) as [->|Hne].
    + destruct (decide _) as [_|Hd]; [|exfalso; apply Hd; split; auto].
      cbn [add_word words_buf]. rewrite map_app. cbn [map].
      rewrite word_of_take by exact Hlen. rewrite <- app_assoc. reflexivity.
    + destruct (decide _) as [[E _]|_]; [contradiction|reflexivity].
Qed.

(** C1. For every chain of length [n] whose buckets are all non-empty and
    every position [0 <= pos < ks_cnt], the materializer (the newline
    stored at [pw_buf[n]], [elem_set_pwbuf], and the push of [n + 1]
    bytes) emits exactly the concatenation of the words selected by the
    little-endian mixed-radix digits of [pos], followed by one newline:
    [n + 1] bytes. *)
Theorem candidate_is_mixed_radix_concatenation `{libc}
    (stdin : list (list byte)) (junk : list byte) (n : nat) (e : elem_t)
    (pos : Z) :
  let db := load_words stdin db_entries_init in
  n <= IN_LEN_MAX ->
  composition n (buf e) ->
  Forall (fun k => (0 < words_cnt (db !!! k))%Z) (buf e) ->
  (0 <= pos < radix_product db (buf e))%Z ->
  exists pw_buf pw_buf' out,
    store (uninit junk BUFSIZ) n x0a = Some pw_buf /\
    elem_set_pwbuf e db pos pw_buf = Some pw_buf' /\
    out_push (out_init junk) pw_buf' (n + 1) = Some out /\
    fp (out_flush out) = candidate db (buf e) pos ++ [x0a] /\
    length (fp (out_flush out)) = n + 1.
Proof.
  intros db Hn Hc Hne [Hpos _].
  pose proof BUFSIZ_min as HB. unfold IN_LEN_MAX in Hn.
  assert (Hok : words_ok db) by apply load_words_ok, db_entries_init_ok.
  destruct (line_spec db junk BUFSIZ n e pos Hok ltac:(lia) Hn Hc Hne Hpos)
    as (pw_buf & pw_buf' & Hstore & Hset & Hlen & Htake & _).
  destruct (out_push_spec (out_init junk) pw_buf' (n + 1) (out_init_ok junk)
              ltac:(unfold IN_LEN_MAX; lia) ltac:(lia))
    as (_ & out & Hpush & _ & Hpushed).
  exists pw_buf, pw_buf', out.
  repeat (split; [assumption|]).
  destruct (out_flush_pushed out) as [-> _]. rewrite Hpushed, Htake.
  unfold pushed, pending. cbn [out_init fp olen obuf take app].
  split; [reflexivity|].
  rewrite take_0, app_nil_l, <- Htake, length_take. lia.
Qed.

Lemma candidate_is_mixed_radix_concatenation_witness :
  exists pw_buf pw_buf' out,
    store (uninit [] (BUFSIZ (libc := glibc))) 2 x0a = Some pw_buf /\
    elem_set_pwbuf (mk_elem [1; 1] 9 0)
      (load_words (map list_byte_of_string ["a"; "b"; "c"]%string)
                  db_entries_init) 1 pw_buf = Some pw_buf' /\
    out_push (H := glibc) (out_init (H := glibc) []) pw_buf' (2 + 1)
      = Some out /\
    fp (out_flush out) =
      candidate
        (load_words (map list_byte_of_string ["a"; "b"; "c"]%string)
                    db_entries_init) [1; 1] 1 ++ [x0a] /\
    length (fp (out_flush out)) = 2 + 1.
Proof.
  apply (candidate_is_mixed_radix_concatenation (H := glibc)
           (map list_byte_of_string ["a"; "b"; "c"]%string) [] 2
           (mk_elem [1; 1] 9 0) 1).
  - unfold IN_LEN_MAX. lia.
  - split; [repeat constructor|reflexivity].
  - repeat constructor.
  - vm_compute. split; [discriminate|reflexivity].
Defined.

(** C9. For every chain that survived the filters and is stored after
    setup, every division and remainder of the materializer is by a
    positive word count, every word index is below the word count of its
    bucket and inside [words_buf], and [elem_set_pwbuf] completes without a
    fault. *)
Theorem materializer_is_well_defined `{libc}
    (p : params) (stdin : list (list byte)) (n : nat) (e : elem_t) (pos : Z)
    (pw_buf : list byte) :
  check_params p = None ->
  (pw_min p <= Z.of_nat n <= pw_max p)%Z ->
  let db := s_db (setup p stdin) in
  In e (elems_buf (db !!! n)) ->
  (0 <= pos)%Z ->
  n <= length pw_buf ->
  Forall (fun k => (0 < words_cnt (db !!! k))%Z) (buf e) /\
  (forall k q, In k (buf e) -> (0 <= q)%Z ->
     let words_idx := (q mod words_cnt (db !!! k))%Z in
     (0 <= words_idx < words_cnt (db !!! k))%Z /\
     is_Some (words_buf (db !!! k) !! Z.to_nat words_idx)) /\
  is_Some (elem_set_pwbuf e db pos pw_buf).
Proof.
  intros Hp Hn db He Hpos Hbuf.
  pose proof (check_params_bounds p Hp) as Hb.
  pose proof (setup_chains_ok p stdin Hp n ltac:(lia)) as Hok.
  rewrite List.Forall_forall in Hok.
  destruct (Hok e He) as [[Hparts Hsum] [Hne _] _ _]. fold db in Hne.
  split; [exact Hne|]. split.
  - intros k q Hk Hq. rewrite List.Forall_forall in Hne.
    destruct (word_index db k q (Hne k Hk) Hq) as [Hidx [word Hw]].
    split; [exact Hidx|]. exists word. exact Hw.
  - rewrite elem_set_pwbuf_spec; [eexists; reflexivity| |
      |exact Hpos|rewrite Hsum; exact Hbuf].
    + apply setup_words_ok. exact Hp.
    + rewrite List.Forall_forall in *. intros k Hk. split; [|apply Hne, Hk].
      pose proof (parts_bounded n (buf e) k Hsum Hk).
      unfold IN_LEN_MAX. lia.
Qed.

Lemma materializer_is_well_defined_witness :
  is_Some
    (elem_set_pwbuf (mk_elem [1; 1] 9 0)
       (s_db (setup (H := glibc) (mk_params false 2 2 1 8 false 0 0)
                    (map list_byte_of_string ["a"; "b"; "c"]%string)))
       5 (uninit [] 3)).
Proof.
  refine (proj2 (proj2 (materializer_is_well_defined (H := glibc)
            (mk_params false 2 2 1 8 false 0 0)
            (map list_byte_of_string ["a"; "b"; "c"]%string) 2
            (mk_elem [1; 1] 9 0) 5 (uninit [] 3) _ _ _ _ _))).
  - reflexivity.
  - simpl. lia.
  - vm_compute. left. reflexivity.
  - lia.
  - vm_compute. lia.
Defined.

(** C10. Across any sequence of [out_push] and [out_flush] calls that push
    lines of at most [IN_LEN_MAX + 1 = 17] bytes, starting from the empty
    buffer, every write satisfies [out->len + pw_len <= BUFSIZ]: the
    output buffer never overflows. *)
Theorem output_buffer_never_overflows `{libc} (junk : list byte)
    (ops : list out_op) :
  Forall line_push ops -> writes_in_bounds (out_init junk) ops.
Proof.
  intros Hops.
  assert (Hgen : forall out, out_ok out -> writes_in_bounds out ops).
  { induction Hops as [|op ops Hop _ IH]; intros out Hout; [exact I|].
    destruct op as [pw_buf pw_len|]; cbn [writes_in_bounds].
    - destruct Hop as [Hl Hs].
      destruct (out_push_spec out pw_buf pw_len Hout Hl Hs)
        as (Hbound & out' & -> & Hout' & _).
      split; [exact Hbound|apply IH, Hout'].
    - apply IH, out_flush_ok, Hout. }
  apply Hgen, out_init_ok.
Qed.

Lemma output_buffer_never_overflows_witness :
  writes_in_bounds (H := small_libc) (out_init (H := small_libc) [])
    (concat (replicate 12 [Push (replicate 17 x61) 17]) ++ [Flush]).
Proof.
  apply (output_buffer_never_overflows (H := small_libc)).
  vm_compute. repeat constructor.
Defined.

(** C8, counterexample. With the words "a", "b", "c" and length 2 the total
    is 9. The run with [--keyspace] and [--skip=10] prints the total and
    returns: a skip above the total, and no diagnostic. *)
Lemma skip_limit_validation_counterexample :
  ~ (forall (L : libc) (fuel : nat) (junk : list byte) (p : params)
       (stdin : list (list byte)),
       check_params p = None ->
       (s_total (setup p stdin) < skip p)%Z ->
       exists diagnostic, main fuel junk p stdin = Failed diagnostic).
Proof.
  intros Hclaim.
  destruct (Hclaim glibc 0 [] (mk_params true 2 2 1 8 false 10 0)
              (map list_byte_of_string ["a"; "b"; "c"]%string) eq_refl
              ltac:(vm_compute; reflexivity)) as [diagnostic Hrun].
  vm_compute in Hrun. discriminate Hrun.
Qed.

(** C8, as amended. A run with [--keyspace] prints [total_ks_cnt] and
    returns before the skip/limit checks, whatever [--skip] and [--limit]
    are. In a run that enumerates, the checks come before the loop and are
    inclusive at the boundary: [skip = total_ks_cnt] without a limit is
    accepted; [limit > 0] with [skip >= 0] and
    [skip + limit = total_ks_cnt] is accepted; [skip > total_ks_cnt] ends
    the run with the diagnostic of [--skip]; [limit > 0] with
    [skip + limit > total_ks_cnt] ends it with the diagnostic of [--limit]
    or of [--skip + --limit]. A run that ends with a diagnostic never
    enters the loop, so it writes nothing. *)
Theorem skip_limit_validation `{libc} (fuel : nat) (junk : list byte)
    (p : params) (stdin : list (list byte)) :
  check_params p = None ->
  let s := setup p stdin in
  let run := main fuel junk p stdin in
  let enumerate total_ks_cnt :=
    loop fuel junk (s_wordlen_dist s) (skip p) total_ks_cnt (s_orders s)
         (mk_loop (s_db s) 0%Z (out_init junk)) in
  (keyspace p = true -> run = Keyspace (s_total s)) /\
  (keyspace p = false ->
   (skip p = s_total s -> limit p = 0%Z ->
      run = enumerate (s_total s) /\ forall d, run <> Failed d) /\
   ((0 <= skip p)%Z -> (0 < limit p)%Z ->
    (skip p + limit p)%Z = s_total s ->
      run = enumerate (skip p + limit p)%Z /\ forall d, run <> Failed d) /\
   ((s_total s < skip p)%Z ->
      run = Failed "Value of --skip must be smaller than total keyspace") /\
   ((0 < limit p)%Z -> (skip p <= s_total s)%Z ->
    (s_total s < skip p + limit p)%Z ->
      run = Failed "Value of --limit must be smaller than total keyspace" \/
      run = Failed
              "Value of --skip + --limit must be smaller than total keyspace")).
Proof.
  intros Hp s run enumerate.
  pose proof (setup_total_nonneg p stdin Hp) as Ht. fold s in Ht.
  split.
  { intros Hk. unfold run, main. rewrite Hp, Hk. f_equal.
    apply (setup_keyspace_flag p stdin true 0 0). }
  intros Hk.
  assert (Hrun : run =
            match check_skip_limit (skip p) (limit p) (s_total s) with
            | inl diagnostic => Failed diagnostic
            | inr total_ks_cnt => enumerate total_ks_cnt
            end).
  { unfold run, main. rewrite Hp, Hk. reflexivity. }
  unfold check_skip_limit in Hrun. rewrite !mpz_cmp_gtb in Hrun.
  split; [|split; [|split]].
  - intros Hskip Hlimit. rewrite Hrun.
    destruct (Z.ltb_spec (s_total s) (skip p)); [lia|]. rewrite andb_false_r.
    destruct (Z.eqb_spec (limit p) 0); [|lia]. cbn [negb].
    split; [reflexivity|]. intros d. apply loop_not_Failed.
  - intros Hskip Hlimit Hsum. rewrite Hrun.
    destruct (Z.ltb_spec (s_total s) (skip p)); [lia|]. rewrite andb_false_r.
    destruct (Z.eqb_spec (limit p) 0); [lia|]. cbn [negb].
    destruct (Z.ltb_spec (s_total s) (limit p)); [lia|].
    destruct (Z.ltb_spec (s_total s) (skip p + limit p)); [lia|].
    split; [reflexivity|]. intros d. apply loop_not_Failed.
  - intros Hgt. rewrite Hrun.
    destruct (Z.ltb_spec (s_total s) (skip p)); [|lia].
    destruct (Z.eqb_spec (skip p) 0); [lia|]. reflexivity.
  - intros Hlimit Hle Hgt. rewrite Hrun.
    destruct (Z.ltb_spec (s_total s) (skip p)); [lia|]. rewrite andb_false_r.
    destruct (Z.eqb_spec (limit p) 0); [lia|]. cbn [negb].
    destruct (Z.ltb_spec (s_total s) (limit p)); [left; reflexivity|].
    destruct (Z.ltb_spec (s_total s) (skip p + limit p));
      [right; reflexivity|lia].
Qed.

Lemma skip_limit_validation_witness :
  main (H := glibc) 10 [] (mk_params true 2 2 1 8 false 10 0)
       (map list_byte_of_string ["a"; "b"; "c"]%string)
  = Keyspace
      (s_total (setup (H := glibc) (mk_params true 2 2 1 8 false 10 0)
                      (map list_byte_of_string ["a"; "b"; "c"]%string))) /\
  main (H := glibc) 10 [] (mk_params false 2 2 1 8 false 10 0)
       (map list_byte_of_string ["a"; "b"; "c"]%string)
  = Failed "Value of --skip must be smaller than total keyspace".
Proof.
  split.
  - refine (proj1 (skip_limit_validation (H := glibc) 10 []
              (mk_params true 2 2 1 8 false 10 0)
              (map list_byte_of_string ["a"; "b"; "c"]%string) _) _);
      reflexivity.
  - refine (proj1 (proj2 (proj2 (proj2 (skip_limit_validation (H := glibc) 10
              [] (mk_params false 2 2 1 8 false 10 0)
              (map list_byte_of_string ["a"; "b"; "c"]%string) _) _))) _).
    + reflexivity.
    + reflexivity.
    + vm_compute. reflexivity.
Defined.

Lemma stall_round :
  let s := setup (H := glibc) stall_params stall_stdin in
  let st := mk_loop (s_db s) 0%Z (out_init (H := glibc) []) in
  loop_orders (H := glibc) [] (s_wordlen_dist s) 0 1 (s_orders s) st = Some st.
Proof. vm_compute. reflexivity. Qed.

(** C4. On the failing input the total keyspace is 1 and no limit is given,
    so one candidate is due; whatever the number of rounds, the run is
    still in the loop and has written nothing. *)
Theorem loop_stalls_on_zero_priority (fuel : nat) :
  s_total (setup (H := glibc) stall_params stall_stdin) = 1%Z /\
  main (H := glibc) fuel [] stall_params stall_stdin = Running [].
Proof.
  split; [vm_compute; reflexivity|].
  unfold main.
  change (check_params stall_params) with (@None string).
  change (keyspace stall_params) with false. cbv iota.
  change (check_skip_limit (skip stall_params) (limit stall_params)
            (s_total (setup (H := glibc) stall_params stall_stdin)))
    with (@inr string Z 1%Z).
  cbv iota. change (skip stall_params) with 0%Z.
  pose proof stall_round as Hround. cbv zeta in Hround.
  set (s := setup (H := glibc) stall_params stall_stdin) in *.
  set (st := mk_loop (s_db s) 0%Z (out_init (H := glibc) [])) in *.
  induction fuel as [|fuel IH]; cbn [loop].
  - change (l_pos st <? 1)%Z with true. cbv iota. reflexivity.
  - change (l_pos st <? 1)%Z with true. cbv iota. rewrite Hround.
    exact IH.
Qed.

(** C5, counterexample. With the words "a", "b", "c" and length 2 the
    total is 9. For [K = 0] the first run has [skip = 0] and [limit = 0],
    which means no limit: it emits all 9 candidates, and so does the second
    run; their concatenation is twice the single run. *)
Lemma shard_composability_counterexample :
  ~ (forall (L : libc) (fuel : nat) (junk : list byte) (p : params)
       (stdin : list (list byte)) (K N : Z) (out1 out2 out : list byte),
       check_params p = None -> keyspace p = false ->
       (0 <= K <= N)%Z -> N = s_total (setup p stdin) ->
       main fuel junk (with_window p 0 K) stdin = Finished out1 ->
       main fuel junk (with_window p K (N - K)) stdin = Finished out2 ->
       main fuel junk (with_window p 0 N) stdin = Finished out ->
       out1 ++ out2 = out).
Proof.
  intros Hclaim.
  set (p := mk_params false 2 2 1 8 false 0 0).
  set (stdin := map list_byte_of_string ["a"; "b"; "c"]%string).
  eassert (E1 : main (H := glibc) 9 [] (with_window p 0 0) stdin = Finished _)
    by (vm_compute; reflexivity).
  eassert (E2 : main (H := glibc) 9 [] (with_window p 0 (9 - 0)) stdin
                = Finished _)
    by (vm_compute; reflexivity).
  eassert (E3 : main (H := glibc) 9 [] (with_window p 0 9) stdin = Finished _)
    by (vm_compute; reflexivity).
  pose proof (Hclaim glibc 9 [] p stdin 0%Z 9%Z _ _ _ eq_refl eq_refl
                ltac:(lia) ltac:(vm_compute; reflexivity) E1 E2 E3) as Hcat.
  apply (f_equal (@length byte)) in Hcat. vm_compute in Hcat.
  discriminate Hcat.
Qed.

(** C5, as amended. Take a run in which every length that has chains has a
    positive priority (always so with the default table), a wordlist of
    fewer than [2 ^ 64] lines, and [0 < K <= N <= total_ks_cnt], where
    [K = N] is allowed only for [N = total_ks_cnt] (a [limit] of 0 means no
    limit). With enough fuel the runs over the windows [0, K) and [K, N)
    end, and their outputs, concatenated, are the output of the run over
    [0, N). The outputs depend on neither the fuel beyond [N] rounds nor the
    content of uninitialised memory. *)
Theorem shard_composability `{libc} (fuel : nat) (p : params)
    (stdin : list (list byte)) (K N : Z) :
  check_params p = None -> keyspace p = false ->
  (Z.of_nat (length stdin) < 2 ^ 64)%Z ->
  priorities_positive p stdin ->
  (0 < K <= N)%Z -> (N <= s_total (setup p stdin))%Z ->
  (K < N)%Z \/ N = s_total (setup p stdin) ->
  Z.to_nat N <= fuel ->
  exists out1 out2 out,
    (forall junk,
       main fuel junk (with_window p 0 K) stdin = Finished out1) /\
    (forall junk,
       main fuel junk (with_window p K (N - K)) stdin = Finished out2) /\
    (forall junk,
       main fuel junk (with_window p 0 N) stdin = Finished out) /\
    out1 ++ out2 = out.
Proof.
  intros Hp Hk Hsmall Hprio HK HN Hcase Hfuel.
  pose proof (setup_total_nonneg p stdin Hp) as Ht.
  assert (Hc1 : check_skip_limit 0 K (s_total (setup p stdin)) = inr K).
  { rewrite check_skip_limit_spec by lia.
    destruct (Z.ltb_spec (s_total (setup p stdin)) 0); [lia|].
    destruct (Z.eqb_spec K 0); [lia|].
    destruct (Z.ltb_spec (s_total (setup p stdin)) K); [lia|].
    destruct (Z.ltb_spec (s_total (setup p stdin)) (0 + K)); [lia|].
    reflexivity. }
  assert (Hc2 : check_skip_limit K (N - K) (s_total (setup p stdin)) = inr N).
  { rewrite check_skip_limit_spec by lia.
    destruct (Z.ltb_spec (s_total (setup p stdin)) K); [lia|].
    destruct (Z.eqb_spec (N - K) 0); [f_equal; lia|].
    destruct (Z.ltb_spec (s_total (setup p stdin)) (N - K)); [lia|].
    destruct (Z.ltb_spec (s_total (setup p stdin)) (K + (N - K))); [lia|].
    f_equal. lia. }
  assert (Hc3 : check_skip_limit 0 N (s_total (setup p stdin)) = inr N).
  { rewrite check_skip_limit_spec by lia.
    destruct (Z.ltb_spec (s_total (setup p stdin)) 0); [lia|].
    destruct (Z.eqb_spec N 0); [lia|].
    destruct (Z.ltb_spec (s_total (setup p stdin)) N); [lia|].
    destruct (Z.ltb_spec (s_total (setup p stdin)) (0 + N)); [lia|].
    reflexivity. }
  exists (concat (drop (Z.to_nat 0) (visited p stdin K))),
         (concat (drop (Z.to_nat K) (visited p stdin N))),
         (concat (drop (Z.to_nat 0) (visited p stdin N))).
  split; [|split; [|split]].
  - intros junk.
    apply (main_window p stdin Hp Hsmall Hprio fuel junk 0 K K Hk Hc1); lia.
  - intros junk.
    apply (main_window p stdin Hp Hsmall Hprio fuel junk K (N - K) N Hk Hc2);
      lia.
  - intros junk.
    apply (main_window p stdin Hp Hsmall Hprio fuel junk 0 N N Hk Hc3); lia.
  - change (Z.to_nat 0) with 0. rewrite !drop_0.
    rewrite (visited_prefix p stdin Hp Hsmall Hprio K N) by lia.
    rewrite <- concat_app, take_drop. reflexivity.
Qed.

Lemma shard_composability_witness :
  exists out1 out2 out,
    (forall junk,
       main (H := glibc) 9 junk
         (with_window (mk_params false 2 2 1 8 false 0 0) 0 3)
         (map list_byte_of_string ["a"; "b"; "c"]%string) = Finished out1) /\
    (forall junk,
       main (H := glibc) 9 junk
         (with_window (mk_params false 2 2 1 8 false 0 0) 3 (9 - 3))
         (map list_byte_of_string ["a"; "b"; "c"]%string) = Finished out2) /\
    (forall junk,
       main (H := glibc) 9 junk
         (with_window (mk_params false 2 2 1 8 false 0 0) 0 9)
         (map list_byte_of_string ["a"; "b"; "c"]%string) = Finished out) /\
    out1 ++ out2 = out.
Proof.
  apply (shard_composability (H := glibc) 9
           (mk_params false 2 2 1 8 false 0 0)
           (map list_byte_of_string ["a"; "b"; "c"]%string) 3 9).
  - reflexivity.
  - reflexivity.
  - vm_compute. reflexivity.
  - apply default_priorities_positive; reflexivity || (vm_compute; reflexivity).
  - lia.
  - vm_compute. discriminate.
  - left. lia.
  - vm_compute. lia.
Defined.

(* ================================================================= *)
(** * Further properties of the code *)

(* ================================================================= *)
(** ** Chopping a line *)

Lemma byte_eqb_iff (c d : byte) : Byte.eqb c d = true <-> c = d.
Proof. split; [apply Byte.byte_dec_bl|apply Byte.byte_dec_lb]. Qed.

Lemma strlen_no_NUL (s : list byte) : ~ In x00 (take (strlen s) s).
Proof.
  induction s as [|c s IH]; cbn [strlen]; [intros []|].
  destruct (Byte.eqb c x00) eqn:E; [intros []|].
  cbn [take]. intros [->|Hin]; [|exact (IH Hin)].
  discriminate E.
Qed.

Lemma strlen_app_NUL (l rest : list byte) :
  ~ In x00 l -> strlen (l ++ x00 :: rest) = length l /\ strlen l = length l.
Proof.
  induction l as [|c l IH]; intros Hl; [split; reflexivity|].
  cbn [app strlen length].
  destruct (Byte.eqb c x00) eqn:E.
  - apply byte_eqb_iff in E. exfalso. apply Hl. left. exact E.
  - destruct IH as [-> ->]; [|split; reflexivity].
    intros Hin. apply Hl. right. exact Hin.
Qed.

(** What the [while (len)] loop removes and what it stops at. *)
Lemma superchop_len_spec (b : list byte) (len : nat) :
  len <= length b ->
  let len' := superchop_len b len in
  Forall (fun c => c = x0a \/ c = x0d) (drop len' (take len b)) /\
  (forall c, last (take len' b) = Some c -> c <> x0a /\ c <> x0d).
Proof.
  induction len as [|len IH]; intros Hlen; cbn [superchop_len].
  - rewrite take_0. split; [constructor|]. intros c Hc. discriminate Hc.
  - destruct (lookup_lt_is_Some_2 b len ltac:(lia)) as [c Hc]. rewrite Hc.
    rewrite (take_S_r _ _ _ Hc).
    destruct (IH ltac:(lia)) as [Hdrop Hlast].
    pose proof (superchop_len_le b len) as Hle.
    destruct (Byte.eqb c x0a) eqn:E1.
    { apply byte_eqb_iff in E1. split; [|exact Hlast].
      rewrite drop_app_le by (rewrite length_take; lia).
      apply Forall_app. split; [exact Hdrop|]. constructor; [auto|constructor]. }
    destruct (Byte.eqb c x0d) eqn:E2.
    { apply byte_eqb_iff in E2. split; [|exact Hlast].
      rewrite drop_app_le by (rewrite length_take; lia).
      apply Forall_app. split; [exact Hdrop|]. constructor; [auto|constructor]. }
    split.
    + rewrite drop_ge; [constructor|]. rewrite length_app, length_take.
      cbn [length]. lia.
    + intros c'. rewrite (take_S_r _ _ _ Hc), last_snoc. intros [= <-].
      split; intros ->; discriminate.
Qed.

(** X1. [in_superchop] keeps a prefix of the buffer: it stops at the first
    NUL, removes every trailing line feed and carriage return, and nothing
    else; what it keeps does not end with either. *)
Theorem in_superchop_strips_line_end (b : list byte) :
  let input_buf := (in_superchop b).1 in
  let input_len := (in_superchop b).2 in
  input_buf = take input_len b /\
  input_len <= strlen b /\
  Forall (fun c => c = x0a \/ c = x0d) (drop input_len (take (strlen b) b)) /\
  (forall c, last input_buf = Some c -> c <> x0a /\ c <> x0d) /\
  ~ In x00 input_buf.
Proof.
  unfold in_superchop. cbn [fst snd].
  pose proof (superchop_len_le b (strlen b)) as Hle.
  destruct (superchop_len_spec b (strlen b) (strlen_le b)) as [Hdrop Hlast].
  split; [reflexivity|]. split; [exact Hle|]. split; [exact Hdrop|].
  split; [exact Hlast|].
  intros Hin. apply (strlen_no_NUL b).
  replace (superchop_len b (strlen b))
    with (Nat.min (superchop_len b (strlen b)) (strlen b)) in Hin by lia.
  rewrite <- take_take in Hin.
  rewrite <- (take_drop (superchop_len b (strlen b)) (take (strlen b) b)).
  apply in_or_app. left. exact Hin.
Qed.

Lemma superchop_len_app (w t rest : list byte) :
  (forall c, last w = Some c -> c <> x0a /\ c <> x0d) ->
  Forall (fun c => c = x0a \/ c = x0d) t ->
  superchop_len (w ++ t ++ rest) (length w + length t) = length w.
Proof.
  intros Hw. revert rest. induction t as [|c t IH] using rev_ind; intros rest Ht.
  - cbn [app length]. rewrite Nat.add_0_r.
    destruct w as [|c0 w0] using rev_ind; [reflexivity|]. clear IHw0.
    rewrite length_app. cbn [length]. rewrite Nat.add_1_r.
    cbn [superchop_len]. rewrite <- app_assoc. cbn [app].
    rewrite list_lookup_middle by reflexivity.
    destruct (Hw c0 (last_snoc _ _)) as [H1 H2].
    destruct (Byte.eqb c0 x0a) eqn:E1; [apply byte_eqb_iff in E1; contradiction|].
    destruct (Byte.eqb c0 x0d) eqn:E2; [apply byte_eqb_iff in E2; contradiction|].
    reflexivity.
  - apply Forall_app in Ht as [Ht Hc]. inversion Hc as [|? ? Hc' _]; subst.
    rewrite length_app. cbn [length].
    replace (length w + (length t + 1)) with (S (length w + length t)) by lia.
    cbn [superchop_len]. rewrite <- !app_assoc. cbn [app].
    rewrite (app_assoc w t), list_lookup_middle by (rewrite length_app; lia).
    rewrite <- app_assoc.
    specialize (IH (c :: rest) Ht).
    destruct Hc' as [-> | ->]; cbn [Byte.eqb]; exact IH.
Qed.

(** X2. A word followed by its line end is chopped back to the word: for a
    word without NUL that does not end in a line feed or carriage return,
    and any run of line feeds and carriage returns after it, whether or
    not a NUL and more bytes follow in the buffer, [in_superchop] returns
    the word and its length; a chopped word is left as it is. *)
Theorem in_superchop_of_line (w t rest : list byte) :
  ~ In x00 w ->
  (forall c, last w = Some c -> c <> x0a /\ c <> x0d) ->
  Forall (fun c => c = x0a \/ c = x0d) t ->
  in_superchop (w ++ t) = (w, length w) /\
  in_superchop (w ++ t ++ x00 :: rest) = (w, length w) /\
  in_superchop w = (w, length w).
Proof.
  intros Hw Hlast Ht.
  assert (Hwt : ~ In x00 (w ++ t)).
  { rewrite in_app_iff. intros [Hin|Hin]; [exact (Hw Hin)|].
    rewrite List.Forall_forall in Ht. destruct (Ht _ Hin); discriminate. }
  destruct (strlen_app_NUL (w ++ t) rest Hwt) as [Hs1 Hs2].
  destruct (strlen_app_NUL w [] Hw) as [_ Hs3].
  unfold in_superchop. split; [|split].
  - rewrite Hs2, length_app.
    pose proof (superchop_len_app w t [] Hlast Ht) as E.
    rewrite app_nil_r in E. rewrite E.
    rewrite take_app_length. reflexivity.
  - rewrite app_assoc, Hs1, length_app, <- app_assoc.
    rewrite (superchop_len_app w t (x00 :: rest) Hlast Ht).
    rewrite take_app_length. reflexivity.
  - rewrite Hs3.
    pose proof (superchop_len_app w [] [] Hlast ltac:(constructor)) as E.
    cbn [app length] in E. rewrite app_nil_r, Nat.add_0_r in E. rewrite E.
    rewrite firstn_all. reflexivity.
Qed.

Lemma in_superchop_of_line_witness :
  in_superchop (list_byte_of_string "pass" ++ [x0d; x0a]) =
    (list_byte_of_string "pass", 4).
Proof.
  refine (proj1 (in_superchop_of_line (list_byte_of_string "pass")
                   [x0d; x0a] [] _ _ _)).
  - intros Hin. repeat (destruct Hin as [Hin|Hin]; [discriminate Hin|]).
    exact Hin.
  - intros c Hc. injection Hc as <-. split; discriminate.
  - constructor; [right; reflexivity|].
    constructor; [left; reflexivity|]. constructor.
Defined.

(* ================================================================= *)
(** ** The word loader *)

Lemma load_words_outside (stdin : list (list byte)) (db : list db_entry_t)
    (k : nat) :
  ~ IN_LEN_MIN <= k <= IN_LEN_MAX ->
  load_words stdin db !!! k = db !!! k.
Proof.
  intros Hk. unfold load_words. revert db.
  induction stdin as [|line stdin IH]; intros db; cbn [fold_left];
    [reflexivity|].
  rewrite IH. unfold load_line.
  destruct (in_superchop line) as [input_buf input_len].
  destruct (Nat.ltb_spec input_len IN_LEN_MIN); [reflexivity|].
  destruct (Nat.ltb_spec IN_LEN_MAX input_len); [reflexivity|].
  apply list_lookup_total_insert_ne. lia.
Qed.

(** X3. After loading, the bucket of a length [k] in [IN_LEN_MIN ..
    IN_LEN_MAX] holds exactly the chopped input lines of length [k], in
    input order and with their repetitions; lines of length 0 and lines
    longer than [IN_LEN_MAX] are stored nowhere. *)
Theorem loaded_buckets (stdin : list (list byte)) (k : nat) :
  bucket (load_words stdin db_entries_init) k =
  if (IN_LEN_MIN <=? k) && (k <=? IN_LEN_MAX)
  then List.filter (fun word => length word =? k)
                   (map (fun line => (in_superchop line).1) stdin)
  else [].
Proof.
  destruct (Nat.leb_spec IN_LEN_MIN k); cbn [andb].
  - destruct (Nat.leb_spec k IN_LEN_MAX).
    + rewrite load_words_bucket; [|unfold db_entries_init;
        rewrite length_replicate; lia|lia].
      unfold bucket. rewrite db_entries_init_lookup. reflexivity.
    + unfold bucket. rewrite load_words_outside by lia.
      rewrite db_entries_init_lookup. reflexivity.
  - unfold bucket. rewrite load_words_outside by lia.
    rewrite db_entries_init_lookup. reflexivity.
Qed.

(* ================================================================= *)
(** ** The checks of [main] *)

(** X4. The parameter checks of [main] let a run through exactly when
    [1 <= pw_min <= pw_max <= 16] and [1 <= elem_cnt_min <= elem_cnt_max];
    there is no upper bound on the element counts. *)
Theorem check_params_accepts (p : params) :
  check_params p = None <->
  (1 <= pw_min p <= pw_max p)%Z /\ (pw_max p <= 16)%Z /\
  (1 <= elem_cnt_min p <= elem_cnt_max p)%Z.
Proof.
  split; [apply check_params_bounds|].
  intros (Hpw & Hmax & Hcnt). unfold check_params, IN_LEN_MIN, IN_LEN_MAX.
  destruct (Z.leb_spec (pw_min p) 0); [lia|].
  destruct (Z.leb_spec (elem_cnt_min p) 0); [lia|].
  destruct (Z.leb_spec (elem_cnt_max p) 0); [lia|].
  destruct (Z.gtb_spec (pw_min p) (pw_max p)); [lia|].
  destruct (Z.gtb_spec (elem_cnt_min p) (elem_cnt_max p)); [lia|].
  destruct (Z.ltb_spec (pw_min p) (Z.of_nat 1)); [lia|].
  destruct (Z.gtb_spec (pw_max p) (Z.of_nat 16)); [lia|].
  reflexivity.
Qed.

(** X5. The check that reports [--pw-max] as not greater than 0 tests
    [pw_min] a second time, so its message is never produced; a [pw_max]
    that is not positive, with the other values positive, is reported by
    the later check of [pw_min] against [pw_max]. *)
Theorem pw_max_check_is_dead (p : params) :
  check_params p <>
    Some "Value of --pw-max (%d) must be greater than %d"%string /\
  ((0 < pw_min p)%Z -> (0 < elem_cnt_min p)%Z -> (0 < elem_cnt_max p)%Z ->
   (pw_max p <= 0)%Z ->
   check_params p =
     Some "Value of --pw-min (%d) must be smaller or equal than value of --pw-max (%d)"%string).
Proof.
  unfold check_params. split.
  - destruct (pw_min p <=? 0)%Z; [discriminate|].
    destruct (elem_cnt_min p <=? 0)%Z; [discriminate|].
    destruct (elem_cnt_max p <=? 0)%Z; [discriminate|].
    destruct (pw_min p >? pw_max p)%Z; [discriminate|].
    destruct (elem_cnt_min p >? elem_cnt_max p)%Z; [discriminate|].
    destruct (pw_min p <? Z.of_nat IN_LEN_MIN)%Z; [discriminate|].
    destruct (pw_max p >? Z.of_nat IN_LEN_MAX)%Z; discriminate.
  - intros H1 H2 H3 H4.
    destruct (Z.leb_spec (pw_min p) 0); [lia|].
    destruct (Z.leb_spec (elem_cnt_min p) 0); [lia|].
    destruct (Z.leb_spec (elem_cnt_max p) 0); [lia|].
    destruct (Z.gtb_spec (pw_min p) (pw_max p)); [reflexivity|lia].
Qed.

Lemma pw_max_check_is_dead_witness :
  check_params (mk_params false 1 0 1 8 false 0 0) =
    Some "Value of --pw-min (%d) must be smaller or equal than value of --pw-max (%d)"%string.
Proof.
  apply (proj2 (pw_max_check_is_dead (mk_params false 1 0 1 8 false 0 0)));
    simpl; lia.
Defined.

(* ================================================================= *)
(** ** Runs of [main] *)

Lemma load_words_unusable (stdin : list (list byte)) (db : list db_entry_t) :
  Forall (fun line => (in_superchop line).2 < IN_LEN_MIN \/
                      IN_LEN_MAX < (in_superchop line).2) stdin ->
  load_words stdin db = db.
Proof.
  unfold load_words. induction 1 as [|line stdin Hline _ IH]; cbn [fold_left];
    [reflexivity|].
  unfold load_line at 2. destruct (in_superchop line) as [input_buf input_len].
  cbn [snd] in Hline.
  destruct (Nat.ltb_spec input_len IN_LEN_MIN); [exact IH|].
  destruct (Nat.ltb_spec IN_LEN_MAX input_len); [exact IH|lia].
Qed.

Lemma composition_length (n : nat) (c : list nat) :
  composition n c -> length c <= n /\ (1 <= n -> c <> []).
Proof.
  intros [Hparts Hsum]. subst n. split.
  - induction Hparts as [|part c Hpart _ IH]; simpl; lia.
  - destruct c; [simpl; lia|discriminate].
Qed.

(** A run over a database without chains: the keyspace is 0, and without
    [--skip] and [--limit] the loop is not entered. *)
Lemma main_without_chains `{libc} (fuel : nat) (junk : list byte)
    (p : params) (stdin : list (list byte)) :
  check_params p = None -> keyspace p = false ->
  skip p = 0%Z -> limit p = 0%Z ->
  (forall n, Z.to_nat (pw_min p) <= n <= Z.to_nat (pw_max p) ->
             elems_buf (s_db (setup p stdin) !!! n) = []) ->
  s_total (setup p stdin) = 0%Z /\ main fuel junk p stdin = Finished [].
Proof.
  intros Hp Hk Hskip Hlimit Hnone.
  assert (Ht : s_total (setup p stdin) = 0%Z).
  { destruct (setup_spec p stdin Hp) as (_ & _ & _ & -> & _).
    rewrite (fold_right_add_ext _ (fun _ => 0%Z)).
    - induction (pw_lens _ _) as [|n lens IH]; cbn [fold_right]; lia.
    - intros n Hn. apply pw_lens_In in Hn. rewrite (Hnone n Hn). reflexivity. }
  split; [exact Ht|].
  unfold main. rewrite Hp, Hk, Hskip, Hlimit, Ht. cbn [check_skip_limit].
  destruct fuel; reflexivity.
Qed.

(** X7. When no input line has a length in [IN_LEN_MIN .. IN_LEN_MAX]
    after chopping (an empty input among others), the keyspace is 0 and the
    run ends at once, having written nothing. *)
Theorem no_usable_word_no_output `{libc} (fuel : nat) (junk : list byte)
    (p : params) (stdin : list (list byte)) :
  check_params p = None -> keyspace p = false ->
  skip p = 0%Z -> limit p = 0%Z ->
  Forall (fun line => (in_superchop line).2 < IN_LEN_MIN \/
                      IN_LEN_MAX < (in_superchop line).2) stdin ->
  s_total (setup p stdin) = 0%Z /\ main fuel junk p stdin = Finished [].
Proof.
  intros Hp Hk Hskip Hlimit Hlines.
  apply main_without_chains; try assumption.
  intros n Hn.
  pose proof (check_params_bounds p Hp) as Hb.
  assert (Hn1 : 1 <= n) by lia.
  pose proof (setup_chains_ok p stdin Hp n Hn) as Hok.
  destruct (setup_spec p stdin Hp) as (Hsame & _).
  destruct (elems_buf (s_db (setup p stdin) !!! n)) as [|e es]; [reflexivity|].
  inversion Hok as [|? ? [Hc [Hne _] _ _] _]; subst. exfalso.
  destruct (composition_length n (buf e) Hc) as [_ Hnil].
  destruct (buf e) as [|part parts]; [apply Hnil; [exact Hn1|reflexivity]|].
  inversion Hne as [|? ? Hpart _]; subst.
  rewrite (same_words_cnt _ _ part Hsame) in Hpart.
  rewrite (load_words_unusable stdin _ Hlines) in Hpart.
  rewrite db_entries_init_lookup in Hpart.
  unfold words_cnt, db_entry_zero in Hpart. cbn [words_buf length] in Hpart.
  lia.
Qed.

Lemma no_usable_word_no_output_witness :
  main (H := glibc) 0 [] (mk_params false 1 16 1 8 false 0 0)
       [[x0a]; list_byte_of_string "seventeen letters"] = Finished [].
Proof.
  refine (proj2 (no_usable_word_no_output (H := glibc) 0 []
                   (mk_params false 1 16 1 8 false 0 0)
                   [[x0a]; list_byte_of_string "seventeen letters"]
                   _ _ _ _ _)); try reflexivity.
  constructor; [left; vm_compute; lia|].
  constructor; [right; vm_compute; lia|constructor].
Defined.

(** X8. A chain for length [n] has at most [n] parts, so a minimum element
    count above [pw_max], which the checks accept, leaves no chain: the
    keyspace is 0 and the run ends having written nothing, whatever the
    words. *)
Theorem elem_cnt_min_above_pw_max `{libc} (fuel : nat) (junk : list byte)
    (p : params) (stdin : list (list byte)) :
  check_params p = None -> keyspace p = false ->
  skip p = 0%Z -> limit p = 0%Z ->
  (pw_max p < elem_cnt_min p)%Z ->
  s_total (setup p stdin) = 0%Z /\ main fuel junk p stdin = Finished [].
Proof.
  intros Hp Hk Hskip Hlimit Hcnt.
  apply main_without_chains; try assumption.
  intros n Hn.
  pose proof (check_params_bounds p Hp) as Hb.
  pose proof (setup_chains_ok p stdin Hp n Hn) as Hok.
  destruct (elems_buf (s_db (setup p stdin) !!! n)) as [|e es]; [reflexivity|].
  inversion Hok as [|? ? [Hc [_ Hlen] _ _] _]; subst. exfalso.
  destruct (composition_length n (buf e) Hc) as [Hle _]. lia.
Qed.

Lemma elem_cnt_min_above_pw_max_witness :
  main (H := glibc) 0 [] (mk_params false 1 2 3 8 false 0 0)
       (map list_byte_of_string ["a"; "b"; "c"]%string) = Finished [].
Proof.
  refine (proj2 (elem_cnt_min_above_pw_max (H := glibc) 0 []
                   (mk_params false 1 2 3 8 false 0 0)
                   (map list_byte_of_string ["a"; "b"; "c"]%string)
                   _ _ _ _ _)); try reflexivity.
Defined.

(** X9. The enumeration never faults: for every wordlist of fewer than
    [2 ^ 64] lines, every parameter combination (accepted or not, any
    [--skip] and [--limit]), any content of uninitialised memory and any
    number of rounds, [elem_set_pwbuf] never divides by zero, and no
    access of the loop to [words_buf], [elems_buf], [pw_buf] or
    [out->buf] is out of bounds. *)
Theorem main_never_faults `{libc} (fuel : nat) (junk : list byte)
    (p : params) (stdin : list (list byte)) :
  (Z.of_nat (length stdin) < 2 ^ 64)%Z ->
  main fuel junk p stdin <> Crash.
Proof.
  intros Hsmall. unfold main.
  destruct (check_params p) as [diagnostic|] eqn:Hp; [discriminate|].
  destruct (keyspace p); [discriminate|].
  destruct (check_skip_limit _ _ _) as [diagnostic|total_ks_cnt];
    [discriminate|].
  destruct (Z.ltb_spec 0 total_ks_cnt) as [Hpos|Hneg].
  - set (lens := pw_lens (Z.to_nat (pw_min p)) (Z.to_nat (pw_max p))).
    pose proof (loop_refines junk (skip p) (s_db (setup p stdin))
                  (s_wordlen_dist (setup p stdin)) lens
                  (setup_length p stdin Hp) (setup_words_ok p stdin Hp)
                  (setup_chains_of p stdin Hp) (pw_lens_NoDup _ _)
                  (lens_range p stdin Hp)
                  (fun n Hn => proj1 (setup_wordlen_dist p stdin Hp Hsmall n Hn))
                  fuel total_ks_cnt (s_orders (setup p stdin))
                  (mk_loop (s_db (setup p stdin)) 0%Z (out_init junk))) as Hloop.
    cbn [l_db l_pos l_out] in Hloop.
    destruct (rounds _ _ _ _ _) as [[[db' pos'] lines] fin].
    rewrite Hloop.
    + destruct fin; discriminate.
    + split; cbn [l_db l_pos l_out].
      * apply setup_db_inv. exact Hp.
      * lia.
      * apply out_init_ok.
      * reflexivity.
    + apply setup_orders_Forall. exact Hp.
  - destruct fuel; cbn [loop l_pos];
      destruct (Z.ltb_spec 0 total_ks_cnt); try lia; discriminate.
Qed.

Lemma main_never_faults_witness :
  main (H := small_libc) 5 [x61] (mk_params false 1 3 1 8 true 2 0)
       (map list_byte_of_string ["a"; "bc"]%string) <> Crash.
Proof.
  apply (main_never_faults (H := small_libc)). vm_compute. reflexivity.
Defined.

(* ================================================================= *)
(** ** The comparison functions *)

(** X10. Of the two comparison functions handed to [qsort], [sort_by_ks]
    is a consistent three-way comparison of the keyspaces, while
    [sort_by_cnt] never returns a negative value and, as soon as two
    entries have different counts, is not a consistent comparison: the C
    library promises nothing about the order it leaves. *)
Theorem comparison_functions (o1 o2 : pw_order_t) :
  consistent sort_by_ks /\
  (forall f1 f2, sort_by_ks f1 f2 = 0%Z <-> ks_cnt f1 = ks_cnt f2) /\
  (0 <= sort_by_cnt o1 o2)%Z /\
  (ocnt o1 <> ocnt o2 -> ~ consistent sort_by_cnt).
Proof.
  split; [exact sort_by_ks_consistent|]. split; [|split].
  - intros f1 f2. unfold sort_by_ks, mpz_cmp. lia.
  - unfold sort_by_cnt. destruct (ocnt o1 <? ocnt o2)%Z; lia.
  - intros Hne [Hanti _].
    assert (Hcase : (ocnt o1 < ocnt o2)%Z \/ (ocnt o2 < ocnt o1)%Z) by lia.
    destruct Hcase as [Hlt|Hlt].
    + specialize (Hanti o2 o1). unfold sort_by_cnt in Hanti.
      destruct (Z.ltb_spec (ocnt o1) (ocnt o2)); [|lia].
      destruct (Z.ltb_spec (ocnt o2) (ocnt o1)); lia.
    + specialize (Hanti o1 o2). unfold sort_by_cnt in Hanti.
      destruct (Z.ltb_spec (ocnt o2) (ocnt o1)); [|lia].
      destruct (Z.ltb_spec (ocnt o1) (ocnt o2)); lia.
Qed.

Lemma comparison_functions_witness : ~ consistent sort_by_cnt.
Proof.
  apply (proj2 (proj2 (proj2
           (comparison_functions (mk_pw_order 1 2) (mk_pw_order 2 1000))))).
  simpl. lia.
Defined.

(* ================================================================= *)
(** ** The length distribution *)

(** X11. [wordlen_dist] has [IN_LEN_MAX + 1] entries. Entry 0 is never
    set and stays 0. For a length in [IN_LEN_MIN .. IN_LEN_MAX] the entry
    is the number of words of that length with [--wl-dist-len], and the
    entry of the built-in table otherwise, which is at least 15: the
    fallback value 1 for lengths beyond the table is never used. *)
Theorem wordlen_dist_entries (wl_dist_len : bool) (db : list db_entry_t)
    (n : nat) :
  let wordlen_dist := init_wordlen_dist wl_dist_len db in
  length wordlen_dist = IN_LEN_MAX + 1 /\
  wordlen_dist !!! 0 = 0%Z /\
  (IN_LEN_MIN <= n <= IN_LEN_MAX ->
   wordlen_dist !!! n =
     (if wl_dist_len then words_cnt (db !!! n) else DEF_WORDLEN_DIST !!! n) /\
   (wl_dist_len = false -> (15 <= wordlen_dist !!! n)%Z)).
Proof.
  split; [reflexivity|]. split; [reflexivity|].
  intros Hn. rewrite init_wordlen_dist_lookup by exact Hn.
  unfold wordlen_dist_entry, IN_LEN_MIN, IN_LEN_MAX in *.
  destruct wl_dist_len; [split; [reflexivity|discriminate]|].
  assert (Hcase : In n (seq 1 16)) by (apply in_seq; lia).
  cbn [seq In] in Hcase.
  repeat (destruct Hcase as [<-|Hcase];
            [split; [reflexivity|intros _; vm_compute; discriminate]|]).
  destruct Hcase.
Qed.

Lemma wordlen_dist_entries_witness :
  init_wordlen_dist false db_entries_init !!! 2 = 56%Z.
Proof.
  refine (proj1 (proj2 (proj2 (wordlen_dist_entries false db_entries_init 2))
                   _)).
  unfold IN_LEN_MIN, IN_LEN_MAX. lia.
Defined.

(* ================================================================= *)
(** ** Buffered output *)

(** X12. Buffering loses and reorders nothing: after any sequence of
    [out_push] calls of at most [IN_LEN_MAX + 1] bytes and [out_flush]
    calls on a fresh buffer, a final [out_flush] leaves in the file exactly
    the pushed bytes, in the order of the calls; before it, the file holds
    a prefix of them and fewer than [BUFSIZ - 100] bytes wait in the
    buffer. *)
Theorem output_is_the_pushed_bytes `{libc} (junk : list byte)
    (ops : list out_op) :
  Forall line_push ops ->
  exists out,
    out_run (out_init junk) ops = Some out /\
    fp (out_flush out) = concat (map op_bytes ops) /\
    fp out `prefix_of` concat (map op_bytes ops) /\
    olen out + 100 < BUFSIZ.
Proof.
  intros Hops.
  assert (Hgen : forall out0, out_ok out0 ->
            exists out, out_run out0 ops = Some out /\ out_ok out /\
                        pushed out = pushed out0 ++ concat (map op_bytes ops)).
  { induction Hops as [|op ops Hop _ IH]; intros out0 Hok.
    - exists out0. cbn [out_run map concat]. rewrite app_nil_r. auto.
    - destruct op as [pw_buf pw_len|]; cbn [out_run map concat op_bytes].
      + destruct Hop as [Hl Hs].
        destruct (out_push_spec out0 pw_buf pw_len Hok Hl Hs)
          as (_ & out1 & -> & Hok1 & Hpushed1).
        destruct (IH out1 Hok1) as (out & Hrun & Hok' & Hpushed).
        exists out. split; [exact Hrun|]. split; [exact Hok'|].
        rewrite Hpushed, Hpushed1, <- app_assoc. reflexivity.
      + destruct (IH (out_flush out0) (out_flush_ok out0 Hok))
          as (out & Hrun & Hok' & Hpushed).
        exists out. split; [exact Hrun|]. split; [exact Hok'|].
        rewrite Hpushed.
        assert (E : pushed (out_flush out0) = pushed out0).
        { unfold pushed at 1. destruct (out_flush_pushed out0) as [-> ->].
          apply app_nil_r. }
        rewrite E. reflexivity. }
  destruct (Hgen (out_init junk) (out_init_ok junk))
    as (out & Hrun & [Hlen Holen] & Hpushed).
  exists out. split; [exact Hrun|].
  assert (Hinit : pushed (out_init junk) = []) by reflexivity.
  rewrite Hinit in Hpushed. cbn [app] in Hpushed.
  split; [|split].
  - destruct (out_flush_pushed out) as [-> _]. exact Hpushed.
  - rewrite <- Hpushed. unfold pushed. apply prefix_app_r. reflexivity.
  - exact Holen.
Qed.

Lemma output_is_the_pushed_bytes_witness :
  exists out,
    out_run (H := small_libc) (out_init (H := small_libc) [])
      (concat (replicate 12 [Push (replicate 17 x61) 17]) ++ [Flush])
      = Some out /\
    fp (out_flush out) =
      concat (map op_bytes
                (concat (replicate 12 [Push (replicate 17 x61) 17])
                 ++ [Flush])) /\
    fp out `prefix_of`
      concat (map op_bytes
                (concat (replicate 12 [Push (replicate 17 x61) 17])
                 ++ [Flush])) /\
    olen out + 100 < BUFSIZ (libc := small_libc).
Proof.
  apply (output_is_the_pushed_bytes (H := small_libc)).
  vm_compute. repeat constructor.
Defined.

(* ================================================================= *)
(** ** The chain generator *)

Lemma walk_length (f : nat -> bool) (l : list nat) (current : nat) :
  length (walk (map f l) current) = S (length (List.filter f l)).
Proof.
  revert current. induction l as [|s l IH]; intros current; [reflexivity|].
  cbn [map walk List.filter]. destruct (f s); cbn [length]; rewrite IH;
    reflexivity.
Qed.

(** X13. Chains and indices correspond one to one: for
    [1 <= n <= IN_LEN_MAX], the lengths [main] generates chains for, every
    composition of [n] is generated from its index, which is below
    [2 ^ (n - 1)], and every index below [2 ^ (n - 1)] is the index of the
    composition it generates. *)
Theorem elem_gen_with_idx_round_trip (n : nat) :
  1 <= n <= IN_LEN_MAX ->
  (forall c, composition n c ->
     elems_idx_of c < 2 ^ (n - 1) /\
     buf (elem_gen_with_idx (n - 1) (elems_idx_of c)) = c) /\
  (forall elems_idx, elems_idx < 2 ^ (n - 1) ->
     composition n (buf (elem_gen_with_idx (n - 1) elems_idx)) /\
     elems_idx_of (buf (elem_gen_with_idx (n - 1) elems_idx)) = elems_idx).
Proof.
  unfold IN_LEN_MAX. intros Hn.
  assert (Hto : forall c, composition n c ->
            elems_idx_of c < 2 ^ (n - 1) /\ decode n (elems_idx_of c) = c).
  { intros c [Hpos Hsum].
    assert (Hne : c <> []) by (intros ->; simpl in Hsum; lia).
    assert (Hlen := split_bits_length c Hne Hpos).
    unfold elems_idx_of. split.
    - replace (n - 1) with (length (split_bits c)) by lia. apply mask_of_bound.
    - unfold decode. rewrite decode_from_walk.
      replace (n - 1) with (length (split_bits c)) by lia.
      rewrite mask_of_bits. apply walk_split_bits; assumption. }
  split.
  - intros c Hc. destruct (Hto c Hc) as [Hlt Hdec]. split; [exact Hlt|].
    rewrite elem_gen_with_idx_buf by lia.
    replace (S (n - 1)) with n by lia. exact Hdec.
  - intros elems_idx Hlt. rewrite elem_gen_with_idx_buf by lia.
    replace (S (n - 1)) with n by lia.
    pose proof (decode_composition n elems_idx ltac:(lia)) as Hc.
    split; [exact Hc|].
    destruct (Hto _ Hc) as [Hlt' Hdec].
    apply (decode_inj n); assumption.
Qed.

Lemma elem_gen_with_idx_round_trip_witness :
  buf (elem_gen_with_idx (4 - 1) (elems_idx_of [1; 2; 1])) = [1; 2; 1].
Proof.
  refine (proj2 (proj1 (elem_gen_with_idx_round_trip 4 _) [1; 2; 1] _)).
  - unfold IN_LEN_MAX. lia.
  - split; [repeat constructor|reflexivity].
Defined.

(** X14. For [len1 < IN_LEN_MAX] and an index that fits an [int], the
    chain generated has one part more than there are set bits among the
    low [len1] bits of the index, so at most [len1 + 1 <= IN_LEN_MAX]
    parts: the writes stay inside [buf]. The bits of the index at and
    above [len1] are ignored. *)
Theorem elem_gen_with_idx_parts (len1 elems_idx : nat) :
  len1 < IN_LEN_MAX -> (Z.of_nat elems_idx < 2 ^ 31)%Z ->
  let e := elem_gen_with_idx len1 elems_idx in
  cnt e = S (length (List.filter (Nat.testbit elems_idx) (seq 0 len1))) /\
  cnt e <= IN_LEN_MAX /\
  elem_gen_with_idx len1 (elems_idx mod 2 ^ len1) = e.
Proof.
  intros Hlen15 Hint e. unfold IN_LEN_MAX in Hlen15 |- *.
  assert (Hlen : len1 <= 254) by lia.
  assert (Hbuf : buf e = walk (map (Nat.testbit elems_idx) (seq 0 len1)) 1).
  { unfold e. rewrite elem_gen_with_idx_buf by exact Hlen.
    unfold decode. rewrite decode_from_walk.
    replace (S len1 - 1) with len1 by lia. reflexivity. }
  assert (Hcnt : cnt e =
            S (length (List.filter (Nat.testbit elems_idx) (seq 0 len1)))).
  { unfold cnt. rewrite Hbuf. apply walk_length. }
  split; [exact Hcnt|]. split.
  - rewrite Hcnt.
    pose proof (List.filter_length_le (Nat.testbit elems_idx) (seq 0 len1)) as Hle.
    rewrite length_seq in Hle. lia.
  - assert (Hbuf' : buf (elem_gen_with_idx len1 (elems_idx mod 2 ^ len1))
                    = buf e).
    { rewrite Hbuf, elem_gen_with_idx_buf by exact Hlen.
      unfold decode. rewrite decode_from_walk.
      replace (S len1 - 1) with len1 by lia. f_equal.
      apply map_ext_in. intros s Hs. apply in_seq in Hs.
      apply Nat.mod_pow2_bits_low. lia. }
    destruct (elem_gen_with_idx_ks len1 elems_idx) as [Hk Hp].
    destruct (elem_gen_with_idx_ks len1 (elems_idx mod 2 ^ len1)) as [Hk' Hp'].
    fold e in Hk, Hp.
    destruct e as [b k q], (elem_gen_with_idx len1 (elems_idx mod 2 ^ len1))
      as [b' k' q'].
    cbn [buf ks_cnt ks_pos] in *. congruence.
Qed.

Lemma elem_gen_with_idx_parts_witness :
  cnt (elem_gen_with_idx 3 5) = 3.
Proof.
  refine (proj1 (elem_gen_with_idx_parts 3 5 _ _)).
  - unfold IN_LEN_MAX. lia.
  - lia.
Defined.

(* ================================================================= *)
(** ** Positions and word selections *)

Lemma digits_cons (db : list db_entry_t) (k : nat) (parts : list nat)
    (pos : Z) :
  (0 < words_cnt (db !!! k))%Z ->
  Forall (fun part => (0 < words_cnt (db !!! part))%Z) parts ->
  digits db (k :: parts) pos =
  (pos mod words_cnt (db !!! k))%Z
    :: digits db parts (pos / words_cnt (db !!! k))%Z.
Proof.
  intros Hk Hparts. unfold digits. cbn [length seq map]. f_equal.
  - unfold digit. cbn [take radix_product fold_right lookup_total
                       list_lookup_total].
    rewrite Z.div_1_r. reflexivity.
  - rewrite <- seq_shift, map_map. apply map_ext. intros i.
    unfold digit. cbn [take radix_product fold_right lookup_total
                       list_lookup_total].
    assert (Hrp : (0 < radix_product db (take i parts))%Z)
      by (apply radix_product_pos, Forall_take; exact Hparts).
    rewrite Z.div_div by lia.
    reflexivity.
Qed.

Lemma position_of_spec (db : list db_entry_t) (parts : list nat)
    (idxs : list Z) :
  Forall2 (fun part idx => (0 <= idx < words_cnt (db !!! part))%Z)
          parts idxs ->
  let pos := position_of db parts idxs in
  (0 <= pos < radix_product db parts)%Z /\
  digits db parts pos = idxs /\
  written_bytes db parts pos = selection db parts idxs.
Proof.
  induction 1 as [|k idx parts idxs Hidx Hrest IH]; cbv zeta.
  - cbn [position_of radix_product fold_right].
    split; [lia|split; reflexivity].
  - assert (Hpos : Forall (fun part => (0 < words_cnt (db !!! part))%Z) parts).
    { clear IH. induction Hrest as [|? ? ? ? Hi _ IH']; constructor;
        [lia|exact IH']. }
    cbv zeta in IH. destruct IH as (Hrange & Hdigits & Hbytes).
    cbn [position_of radix_product fold_right].
    fold (radix_product db parts).
    set (r := words_cnt (db !!! k)) in *.
    set (rest := position_of db parts idxs) in *.
    assert (Hmod : ((idx + r * rest) mod r = idx)%Z).
    { rewrite Z.mul_comm, Z_mod_plus_full. apply Z.mod_small. lia. }
    assert (Hdiv : ((idx + r * rest) / r = rest)%Z).
    { rewrite Z.mul_comm, Z.div_add by lia. rewrite Z.div_small; lia. }
    split; [nia|]. split.
    + rewrite digits_cons by (exact Hpos || lia). fold r. rewrite Hmod, Hdiv, Hdigits.
      reflexivity.
    + cbn [written_bytes]. fold r. rewrite Hmod, Hdiv, Hbytes. reflexivity.
Qed.

Lemma position_of_digits (db : list db_entry_t) (parts : list nat) (pos : Z) :
  Forall (fun part => (0 < words_cnt (db !!! part))%Z) parts ->
  (0 <= pos < radix_product db parts)%Z ->
  position_of db parts (digits db parts pos) = pos /\
  Forall2 (fun part idx => (0 <= idx < words_cnt (db !!! part))%Z)
          parts (digits db parts pos).
Proof.
  intros Hparts. revert pos.
  induction Hparts as [|k parts Hk Hparts IH]; intros pos Hpos.
  - cbn [radix_product fold_right] in Hpos. cbn. split; [lia|constructor].
  - rewrite digits_cons by assumption.
    cbn [radix_product fold_right] in Hpos. fold (radix_product db parts) in Hpos.
    set (r := words_cnt (db !!! k)) in *.
    assert (Hq : (0 <= pos / r < radix_product db parts)%Z).
    { split; [apply Z.div_pos; lia|].
      apply Z.div_lt_upper_bound; lia. }
    destruct (IH _ Hq) as [Hpos' Hall]. cbn [position_of]. fold r.
    rewrite Hpos'. split.
    + pose proof (Z.div_mod pos r ltac:(lia)). lia.
    + constructor; [|exact Hall]. fold r. apply Z.mod_pos_bound. lia.
Qed.

(** X15. Positions and word selections correspond one to one. For a chain
    whose parts are at most [IN_LEN_MAX] and one index into the bucket of
    each part, the position with these digits is inside the chain's
    keyspace, [elem_set_pwbuf] writes at that position exactly the selected
    words, and its digits are the given indices; conversely every position
    inside the keyspace is the position of its digits. *)
Theorem selections_and_positions (db : list db_entry_t) (e : elem_t)
    (idxs : list Z) (pw_buf : list byte) :
  words_ok db ->
  Forall (fun part => part <= IN_LEN_MAX) (buf e) ->
  Forall2 (fun part idx => (0 <= idx < words_cnt (db !!! part))%Z)
          (buf e) idxs ->
  list_sum (buf e) <= length pw_buf ->
  let pos := position_of db (buf e) idxs in
  (0 <= pos < radix_product db (buf e))%Z /\
  elem_set_pwbuf e db pos pw_buf =
    Some (selection db (buf e) idxs ++ drop (list_sum (buf e)) pw_buf) /\
  digits db (buf e) pos = idxs /\
  (forall pos', (0 <= pos' < radix_product db (buf e))%Z ->
     position_of db (buf e) (digits db (buf e) pos') = pos').
Proof.
  intros Hok Hlen Hidxs Hbuf pos.
  destruct (position_of_spec db (buf e) idxs Hidxs) as (Hrange & Hdigits & Hbytes).
  fold pos in Hrange, Hdigits, Hbytes.
  assert (Hpos : Forall (fun part => (0 < words_cnt (db !!! part))%Z) (buf e)).
  { clear -Hidxs. induction Hidxs; constructor; [lia|assumption]. }
  split; [exact Hrange|]. split; [|split; [exact Hdigits|]].
  - rewrite (elem_set_pwbuf_spec db Hok e pos pw_buf); [|
      |lia|exact Hbuf].
    + rewrite Hbytes. reflexivity.
    + rewrite List.Forall_forall in *. intros k Hk. auto.
  - intros pos' Hpos'. apply position_of_digits; assumption.
Qed.

Lemma selections_and_positions_witness :
  let db := load_words (map list_byte_of_string ["a"; "b"; "cd"]%string)
                       db_entries_init in
  elem_set_pwbuf (mk_elem [1; 2] 2 0) db (position_of db [1; 2] [1; 0]%Z)
                 (replicate 4 x00)
  = Some (selection db [1; 2] [1; 0]%Z ++ drop (list_sum [1; 2])
                                               (replicate 4 x00)).
Proof.
  intros db.
  refine (proj1 (proj2 (selections_and_positions db (mk_elem [1; 2] 2 0)
                          [1; 0]%Z (replicate 4 x00) _ _ _ _))).
  - apply load_words_ok, db_entries_init_ok.
  - repeat constructor; unfold IN_LEN_MAX; lia.
  - repeat constructor; vm_compute; congruence.
  - simpl. lia.
Defined.

(* ================================================================= *)
(** ** The lines of the full run *)

Lemma candidate_same_words (db db' : list db_entry_t) (parts : list nat)
    (q : Z) :
  same_words db db' -> candidate db' parts q = candidate db parts q.
Proof.
  intros Hsame. unfold candidate. f_equal. apply map_ext. intros i.
  unfold bucket, digit.
  rewrite (radix_product_same_words db db' _ Hsame).
  rewrite (same_words_cnt db db' _ Hsame).
  destruct Hsame as [_ Hwords]. rewrite Hwords. reflexivity.
Qed.

Lemma batch_lines_same_words (db db' : list db_entry_t) (e : elem_t) (k : Z) :
  same_words db db' -> batch_lines db' e k = batch_lines db e k.
Proof.
  intros Hsame. unfold batch_lines, line_at. apply map_ext. intros i.
  rewrite (candidate_same_words db db' _ _ Hsame). reflexivity.
Qed.

Lemma map_seq_from {B : Type} (f : nat -> B) (a n : nat) :
  map f (seq a n) = map (fun i => f (a + i)) (seq 0 n).
Proof.
  revert a. induction n as [|n IH]; intros a; [reflexivity|].
  cbn [seq map]. rewrite Nat.add_0_r. f_equal.
  rewrite IH, <- seq_shift, map_map. apply map_ext. intros i.
  f_equal. lia.
Qed.

Lemma batch_lines_app (db : list db_entry_t) (e : elem_t) (k1 k2 : Z) :
  (0 <= k1)%Z -> (0 <= k2)%Z ->
  batch_lines db e (k1 + k2) =
  batch_lines db e k1 ++ batch_lines db (set_ks_pos e (ks_pos e + k1)) k2.
Proof.
  intros H1 H2. unfold batch_lines.
  rewrite Z2Nat.inj_add by assumption. rewrite seq_app, map_app. f_equal.
  cbn [Nat.add]. rewrite map_seq_from. apply map_ext.
  intros i. unfold line_at. cbn [set_ks_pos buf ks_pos]. do 2 f_equal. lia.
Qed.

(** A batch comes off the front of what the entry has still to give. *)
Lemma rest_of_advance (db : list db_entry_t) (d : db_entry_t) (e : elem_t)
    (k : Z) :
  elems_buf d !! elems_pos d = Some e ->
  (0 <= k <= ks_cnt e - ks_pos e)%Z ->
  rest_of db d = batch_lines db e k ++ rest_of db (advance d e k).
Proof.
  intros He Hk. unfold rest_of at 1.
  rewrite (drop_S _ _ _ He). cbn [map concat].
  pose proof (lookup_lt_Some _ _ _ He) as Hlt.
  unfold pending_lines at 1.
  replace (ks_cnt e - ks_pos e)%Z with (k + (ks_cnt e - ks_pos e - k))%Z by lia.
  rewrite batch_lines_app by lia. rewrite <- app_assoc. f_equal.
  unfold advance, rest_of. cbn [set_ks_pos ks_pos ks_cnt buf].
  destruct (Z.eqb_spec (ks_pos e + k) (ks_cnt e)) as [Heq|Hne];
    cbn [elems_buf elems_pos].
  - replace (ks_cnt e - ks_pos e - k)%Z with 0%Z by lia.
    cbn [batch_lines Z.to_nat seq map app].
    rewrite Nat.add_1_r, drop_insert_lt by lia. reflexivity.
  - rewrite drop_insert_ge, Nat.sub_diag by lia.
    rewrite (drop_S _ _ _ He). cbn [insert list_insert map concat].
    f_equal. unfold pending_lines, set_ks_pos. cbn [ks_cnt ks_pos].
    f_equal. lia.
Qed.

Lemma pending_lines_length (db : list db_entry_t) (es : list elem_t) :
  Forall (fun e => ks_pos e = 0%Z /\ (0 < ks_cnt e)%Z) es ->
  Z.of_nat (length (concat (map (pending_lines db) es))) = sum_ks es.
Proof.
  induction 1 as [|e es [Hp Hk] _ IH]; [reflexivity|].
  cbn [map concat sum_ks fold_right]. fold (sum_ks es).
  rewrite length_app, Nat2Z.inj_add, IH.
  unfold pending_lines. rewrite batch_lines_length. lia.
Qed.

Lemma rest_of_length (db : list db_entry_t) (d : db_entry_t) :
  entry_ok d -> Z.of_nat (length (rest_of db d)) = remaining_of d.
Proof.
  intros [Hpos Hks Hcur Hrest]. unfold rest_of, remaining_of.
  assert (Hafter : forall i, elems_pos d < i ->
            Forall (fun e => ks_pos e = 0%Z /\ (0 < ks_cnt e)%Z)
                   (drop i (elems_buf d))).
  { intros i Hi. apply Forall_forall. intros e He.
    apply list_elem_of_lookup in He as [j Hj]. rewrite lookup_drop in Hj.
    split; [apply (Hrest _ _ Hj); lia|].
    rewrite List.Forall_forall in Hks. apply Hks.
    apply list_elem_of_In. eapply list_elem_of_lookup_2. exact Hj. }
  destruct (elems_buf d !! elems_pos d) as [e|] eqn:He.
  - rewrite (drop_S _ _ _ He). cbn [map concat sum_ks fold_right].
    fold (sum_ks (drop (S (elems_pos d)) (elems_buf d))).
    rewrite length_app, Nat2Z.inj_add.
    rewrite (pending_lines_length db _ (Hafter (S (elems_pos d)) ltac:(lia))).
    unfold pending_lines. rewrite batch_lines_length.
    specialize (Hcur e eq_refl). lia.
  - apply lookup_ge_None_1 in He. rewrite drop_ge by exact He. reflexivity.
Qed.

Lemma rest_lines_length (db0 db : list db_entry_t) (lens : list nat) :
  (forall n, In n lens -> entry_ok (db !!! n)) ->
  Z.of_nat (length (rest_lines db0 lens db)) = remaining db lens.
Proof.
  unfold rest_lines, remaining.
  induction lens as [|n lens IH]; intros Hok; [reflexivity|].
  cbn [map concat fold_right]. rewrite length_app, Nat2Z.inj_add.
  rewrite rest_of_length by (apply Hok; left; reflexivity).
  rewrite IH; [reflexivity|]. intros m Hm. apply Hok. right. exact Hm.
Qed.

Lemma rest_lines_insert (db0 db : list db_entry_t) (lens : list nat)
    (n : nat) (d : db_entry_t) (batch : list (list byte)) :
  List.NoDup lens -> In n lens -> n < length db ->
  rest_of db0 (db !!! n) = batch ++ rest_of db0 d ->
  Permutation (rest_lines db0 lens db)
              (batch ++ rest_lines db0 lens (<[n := d]> db)).
Proof.
  intros Hnd Hin Hn Hbatch. unfold rest_lines.
  induction Hnd as [|m lens Hm Hnd IH]; [destruct Hin|].
  cbn [map concat].
  destruct (Nat.eq_dec m n) as [->|Hne].
  - rewrite list_lookup_total_insert_eq by exact Hn.
    rewrite Hbatch, <- app_assoc.
    replace (map (fun n0 => rest_of db0 (<[n := d]> db !!! n0)) lens)
      with (map (fun n0 => rest_of db0 (db !!! n0)) lens); [reflexivity|].
    apply map_ext_in. intros k Hk.
    rewrite list_lookup_total_insert_ne by (intros ->; contradiction).
    reflexivity.
  - destruct Hin as [Heq|Hin]; [contradiction|].
    rewrite list_lookup_total_insert_ne by congruence.
    rewrite (IH Hin). apply Permutation_app_swap_app.
Qed.

Section Lines.
Variables (db0 : list db_entry_t) (wordlen_dist : list Z) (lens : list nat).

Hypothesis db0_length : length db0 = IN_LEN_MAX + 1.
Hypothesis lens_NoDup : List.NoDup lens.
Hypothesis lens_range : forall n, In n lens -> n <= IN_LEN_MAX.
Hypothesis wordlen_dist_nonneg :
  forall n, In n lens -> (0 <= wordlen_dist !!! n)%Z.

(** The lines of a turn are taken from the lines still to give. *)
Lemma visit_lines (total_ks_cnt : Z) (db : list db_entry_t) (pos : Z)
    (o : pw_order_t) :
  db_inv db0 lens db -> In (len o) lens -> (pos <= total_ks_cnt)%Z ->
  let '(db', _, lines, _) := visit wordlen_dist total_ks_cnt (db, pos) o in
  Permutation (rest_lines db0 lens db) (lines ++ rest_lines db0 lens db').
Proof.
  intros Hinv Hin Hpos. unfold visit.
  set (n := len o) in *. set (d := db !!! n).
  pose proof (inv_entry db0 lens db Hinv n Hin) as Hentry. fold d in Hentry.
  destruct (elems_buf d !! elems_pos d) as [e|] eqn:He; [|reflexivity].
  pose proof (entry_current d Hentry e He) as Hcur.
  pose proof (batch_size_bounds e (wordlen_dist !!! n)
                (total_ks_cnt - pos)%Z Hcur
                (wordlen_dist_nonneg n Hin) ltac:(lia)) as Hk.
  cbv zeta in Hk.
  set (k := batch_size e (wordlen_dist !!! n) (total_ks_cnt - pos)%Z) in *.
  destruct Hk as (Hk0 & Hk1 & _).
  assert (Hn : n < length db).
  { rewrite (db_inv_length db0 lens db0_length db Hinv).
    specialize (lens_range n Hin). lia. }
  rewrite (batch_lines_same_words db0 db e k (inv_words db0 lens db Hinv)).
  apply rest_lines_insert; try assumption.
  fold d. apply rest_of_advance; [exact He|lia].
Qed.

Lemma visits_lines (total_ks_cnt : Z) (os : list pw_order_t)
    (db : list db_entry_t) (pos : Z) :
  db_inv db0 lens db -> Forall (fun o => In (len o) lens) os ->
  (pos <= total_ks_cnt)%Z ->
  let '(db', pos', lines) := visits wordlen_dist total_ks_cnt os (db, pos) in
  db_inv db0 lens db' /\ (pos' <= total_ks_cnt)%Z /\
  Permutation (rest_lines db0 lens db) (lines ++ rest_lines db0 lens db').
Proof.
  intros Hinv Hos. revert db pos Hinv.
  induction Hos as [|o os Ho _ IH]; intros db pos Hinv Hpos.
  - cbn [visits app]. auto.
  - cbn [visits].
    pose proof (visit_spec db0 wordlen_dist lens db0_length lens_NoDup
                  lens_range wordlen_dist_nonneg total_ks_cnt db pos o
                  Hinv Ho Hpos) as Hspec.
    pose proof (visit_lines total_ks_cnt db pos o Hinv Ho Hpos) as Hlines.
    destruct (visit wordlen_dist total_ks_cnt (db, pos) o)
      as [[[db1 pos1] lines1] brk].
    destruct Hspec as (Hinv1 & _ & Hpos1 & _).
    destruct brk; [auto|].
    specialize (IH db1 pos1 Hinv1 Hpos1).
    destruct (visits wordlen_dist total_ks_cnt os (db1, pos1))
      as [[db2 pos2] lines2].
    destruct IH as (Hinv2 & Hpos2 & Hlines2).
    split; [exact Hinv2|]. split; [exact Hpos2|].
    rewrite Hlines, Hlines2, app_assoc. reflexivity.
Qed.

Lemma rounds_lines (fuel : nat) (total_ks_cnt : Z) (os : list pw_order_t)
    (db : list db_entry_t) (pos : Z) :
  db_inv db0 lens db -> Forall (fun o => In (len o) lens) os ->
  (pos <= total_ks_cnt)%Z ->
  let '(db', _, lines, _) :=
    rounds fuel wordlen_dist total_ks_cnt os (db, pos) in
  db_inv db0 lens db' /\
  Permutation (rest_lines db0 lens db) (lines ++ rest_lines db0 lens db').
Proof.
  intros Hinv Hos. revert db pos Hinv.
  induction fuel as [|fuel IH]; intros db pos Hinv Hpos;
    cbn [rounds snd]; destruct (Z.ltb_spec pos total_ks_cnt);
    try (cbn [app]; split; [exact Hinv|reflexivity]).
  pose proof (visits_lines total_ks_cnt os db pos Hinv Hos Hpos) as Hv.
  destruct (visits wordlen_dist total_ks_cnt os (db, pos))
    as [[db1 pos1] lines1].
  destruct Hv as (Hinv1 & Hpos1 & Hlines1).
  specialize (IH db1 pos1 Hinv1 Hpos1).
  destruct (rounds fuel wordlen_dist total_ks_cnt os (db1, pos1))
    as [[[db2 pos2] lines2] fin].
  destruct IH as [Hinv2 Hlines2].
  split; [exact Hinv2|].
  rewrite Hlines1, Hlines2, app_assoc. reflexivity.
Qed.
End Lines.

Section FullRun.
Context `{libc}.
Variables (p : params) (stdin : list (list byte)).
Hypothesis p_valid : check_params p = None.
Hypothesis stdin_small : (Z.of_nat (length stdin) < 2 ^ 64)%Z.
Hypothesis progress : priorities_positive p stdin.

Let s := setup p stdin.
Let lens := pw_lens (Z.to_nat (pw_min p)) (Z.to_nat (pw_max p)).

Lemma rest_lines_setup :
  rest_lines (s_db s) lens (s_db s) = all_lines (s_db s) lens.
Proof.
  unfold rest_lines, all_lines. f_equal. apply map_ext_in. intros n Hn.
  apply pw_lens_In in Hn.
  destruct (setup_spec p stdin p_valid) as (_ & _ & Hslot & _).
  destruct (Hslot n Hn) as [_ Hpos]. fold s in Hpos.
  unfold rest_of. rewrite Hpos, drop_0. f_equal.
  apply map_ext_in. intros e He.
  pose proof (setup_chains_ok p stdin p_valid n Hn) as Hok. fold s in Hok.
  rewrite List.Forall_forall in Hok. destruct (Hok e He) as [_ _ _ Hks].
  unfold pending_lines, chain_lines, batch_lines. rewrite Hks, Z.sub_0_r.
  apply map_ext. intros i. f_equal.
Qed.

(** The full run visits every line of every chain once. *)
Lemma visited_full :
  Permutation (visited p stdin (s_total s)) (all_lines (s_db s) lens).
Proof.
  pose proof (setup_total_nonneg p stdin p_valid) as Hnn. fold s in Hnn.
  destruct (rounds_setup p stdin p_valid stdin_small progress
              (Z.to_nat (s_total s)) (s_total s) ltac:(fold s; lia)
              ltac:(lia)) as (db' & lines & Hrounds & Hlen).
  fold s in Hrounds.
  pose proof (rounds_lines (s_db s) (s_wordlen_dist s) lens
                (setup_length p stdin p_valid) (pw_lens_NoDup _ _)
                (lens_range p stdin p_valid)
                (fun n Hn =>
                   proj1 (proj1 (setup_wordlen_dist p stdin p_valid
                                   stdin_small n Hn)))
                (Z.to_nat (s_total s)) (s_total s) (s_orders s) (s_db s)
                0%Z (setup_db_inv p stdin p_valid)
                (setup_orders_Forall p stdin p_valid) Hnn) as Hperm.
  assert (Hvis : visited p stdin (s_total s) = lines).
  { unfold visited. cbv zeta. fold s. rewrite Hrounds. reflexivity. }
  rewrite Hrounds in Hperm. destruct Hperm as [Hinv Hperm].
  rewrite rest_lines_setup in Hperm.
  pose proof (Permutation_length Hperm) as Hl.
  rewrite length_app in Hl.
  pose proof (rest_lines_length (s_db s) (s_db s) lens
                (setup_entry_ok p stdin p_valid)) as Hl0.
  rewrite rest_lines_setup in Hl0.
  pose proof (setup_remaining p stdin p_valid) as Hrem.
  fold s lens in Hrem.
  assert (Hnil : rest_lines (s_db s) lens db' = []).
  { apply length_zero_iff_nil. lia. }
  rewrite Hnil, app_nil_r in Hperm. rewrite Hvis. symmetry. exact Hperm.
Qed.



Lemma window_spec (fuel : nat) (junk : list byte) (sk lim : Z) :
  keyspace p = false ->
  (0 <= sk)%Z -> (0 <= lim)%Z -> (sk + lim <= s_total s)%Z ->
  Z.to_nat (s_total s) <= fuel ->
  main fuel junk (with_window p sk lim) stdin =
  Finished (concat (window sk lim (visited p stdin (s_total s)))).
Proof.
  unfold s. intros Hk Hsk Hlim Hsum Hfuel.
  pose proof (setup_total_nonneg p stdin p_valid) as Hnn.
  pose proof (check_skip_limit_spec sk lim _ Hsk Hlim Hnn) as Hc.
  destruct (Z.ltb_spec (s_total (setup p stdin)) sk); [lia|].
  unfold window. destruct (Z.eqb_spec lim 0) as [->|Hne].
  - apply (main_window p stdin p_valid stdin_small progress fuel junk sk 0
             (s_total (setup p stdin)) Hk Hc); lia.
  - destruct (Z.ltb_spec (s_total (setup p stdin)) lim); [lia|].
    destruct (Z.ltb_spec (s_total (setup p stdin)) (sk + lim)); [lia|].
    rewrite (main_window p stdin p_valid stdin_small progress fuel junk sk
               lim (sk + lim)%Z Hk Hc) by lia.
    rewrite (visited_prefix p stdin p_valid stdin_small progress
               (sk + lim)%Z (s_total (setup p stdin))) by lia.
    rewrite take_drop_commute, Z2Nat.inj_add by lia. reflexivity.
Qed.
End FullRun.


(** X16. The full run writes every candidate of every stored chain
    exactly once: when every length that has chains has a positive
    priority, the run without [--skip] and [--limit] ends, and the lines it
    has written are, up to their order, the lines of all positions of all
    chains of all lengths in [pw_min .. pw_max]. *)
Theorem full_run_writes_every_line_once `{libc} (fuel : nat)
    (junk : list byte) (p : params) (stdin : list (list byte)) :
  check_params p = None -> keyspace p = false ->
  (Z.of_nat (length stdin) < 2 ^ 64)%Z ->
  priorities_positive p stdin ->
  Z.to_nat (s_total (setup p stdin)) <= fuel ->
  exists lines,
    main fuel junk (with_window p 0 0) stdin = Finished (concat lines) /\
    Permutation lines
      (all_lines (s_db (setup p stdin))
                 (pw_lens (Z.to_nat (pw_min p)) (Z.to_nat (pw_max p)))).
Proof.
  intros Hp Hk Hsmall Hprio Hfuel.
  pose proof (setup_total_nonneg p stdin Hp) as Hnn.
  exists (visited p stdin (s_total (setup p stdin))). split.
  - rewrite (window_spec p stdin Hp Hsmall Hprio fuel junk 0 0 Hk) by lia.
    unfold window. cbn [Z.eqb Z.to_nat]. rewrite drop_0. reflexivity.
  - apply visited_full; assumption.
Qed.

Lemma full_run_writes_every_line_once_witness :
  exists lines,
    main (H := glibc) 9 []
         (with_window (mk_params false 2 2 1 8 false 0 0) 0 0)
         (map list_byte_of_string ["a"; "b"; "c"]%string)
      = Finished (concat lines) /\
    Permutation lines
      (all_lines
         (s_db (setup (H := glibc) (mk_params false 2 2 1 8 false 0 0)
                      (map list_byte_of_string ["a"; "b"; "c"]%string)))
         (pw_lens (Z.to_nat 2) (Z.to_nat 2))).
Proof.
  apply (full_run_writes_every_line_once (H := glibc) 9 []
           (mk_params false 2 2 1 8 false 0 0)
           (map list_byte_of_string ["a"; "b"; "c"]%string)).
  - reflexivity.
  - reflexivity.
  - vm_compute. reflexivity.
  - apply default_priorities_positive; reflexivity || (vm_compute; reflexivity).
  - vm_compute. lia.
Defined.





(* ================================================================= *)
(** ** Allocation *)

Lemma ALLOC_NEW_WORDS_pos : 1 <= Alloc.ALLOC_NEW_WORDS.
Proof. unfold Alloc.ALLOC_NEW_WORDS. lia. Qed.

Lemma ALLOC_NEW_ELEMS_pos : 1 <= Alloc.ALLOC_NEW_ELEMS.
Proof. unfold Alloc.ALLOC_NEW_ELEMS. lia. Qed.

Ltac alloc_fields :=
  cbn [Alloc.words_buf Alloc.words_cnt Alloc.words_alloc Alloc.elems_buf
       Alloc.elems_cnt Alloc.elems_pos Alloc.elems_alloc] in *.

(** Growing a full array: the old content, then a chunk of zero slots. *)
Lemma realloc_memset `{Alloc.heap} {A : Type} `{Inhabited A}
    (ptr new : list A) (alloc chunk : nat) (zero : A) :
  length ptr = alloc ->
  Alloc.realloc ptr (alloc + chunk) = Some new ->
  Alloc.memset new alloc chunk zero = Some (ptr ++ replicate chunk zero).
Proof.
  intros Hlen Hnew.
  pose proof (Alloc.realloc_length _ _ _ _ _ Hnew) as Hl.
  pose proof (Alloc.realloc_content _ _ _ _ _ Hnew) as Hc.
  rewrite Hlen, (take_ge ptr) in Hc by lia.
  unfold Alloc.memset. rewrite Hl, Nat.leb_refl, Hc.
  rewrite drop_ge by lia. rewrite app_nil_r. reflexivity.
Qed.

Lemma check_realloc_words_spec `{Alloc.heap} (d : Alloc.db_entry_t) :
  Alloc.entry_ok d ->
  match Alloc.check_realloc_words d with
  | Alloc.Fault => False
  | Alloc.Exit diagnostic =>
      diagnostic = "Out of memory!"%string /\
      exists ptr n, Alloc.realloc (A := word_t) ptr n = None
  | Alloc.Ok d' =>
      length (Alloc.words_buf d') = Alloc.words_alloc d' /\
      Alloc.words_cnt d < Alloc.words_alloc d' /\
      Alloc.words_alloc d' <= Alloc.words_cnt d + Alloc.ALLOC_NEW_WORDS /\
      Nat.divide Alloc.ALLOC_NEW_WORDS (Alloc.words_alloc d') /\
      Forall (fun word_buf => word_buf = word_zero)
             (drop (Alloc.words_cnt d) (Alloc.words_buf d')) /\
      take (Alloc.words_cnt d) (Alloc.words_buf d') =
        take (Alloc.words_cnt d) (Alloc.words_buf d) /\
      Alloc.words_cnt d' = Alloc.words_cnt d /\
      Alloc.elems_buf d' = Alloc.elems_buf d /\
      Alloc.elems_cnt d' = Alloc.elems_cnt d /\
      Alloc.elems_pos d' = Alloc.elems_pos d /\
      Alloc.elems_alloc d' = Alloc.elems_alloc d
  end.
Proof.
  intros [Hwl [Hwb1 Hwb2] Hwc Hwf Hel Heb Hec].
  unfold Alloc.check_realloc_words.
  destruct (Nat.eqb_spec (Alloc.words_cnt d) (Alloc.words_alloc d)) as [Heq|Hne].
  - destruct (Alloc.realloc _ _) as [new|] eqn:Hnew.
    + rewrite (realloc_memset _ _ _ _ _ Hwl Hnew).
      pose proof ALLOC_NEW_WORDS_pos as Hpos. alloc_fields.
      split; [rewrite length_app, length_replicate; lia|].
      split; [lia|]. split; [lia|].
      split; [apply Nat.divide_add_r; [exact Hwc|apply Nat.divide_refl]|].
      split.
      { rewrite drop_app_length' by lia.
        apply Forall_forall. intros w Hw.
        apply elem_of_replicate in Hw as [-> _]. reflexivity. }
      split; [rewrite take_app_le by lia; reflexivity|].
      repeat split.
    + split; [reflexivity|]. eexists _, _. exact Hnew.
  - split; [exact Hwl|]. split; [lia|]. split; [lia|].
    split; [exact Hwc|]. split; [exact Hwf|]. repeat split.
Qed.

Lemma check_realloc_elems_spec `{Alloc.heap} (d : Alloc.db_entry_t) :
  Alloc.entry_ok d ->
  match Alloc.check_realloc_elems d with
  | Alloc.Fault => False
  | Alloc.Exit diagnostic =>
      diagnostic = "Out of memory!"%string /\
      exists ptr n, Alloc.realloc (A := elem_t) ptr n = None
  | Alloc.Ok d' =>
      length (Alloc.elems_buf d') = Alloc.elems_alloc d' /\
      Alloc.elems_cnt d < Alloc.elems_alloc d' /\
      Alloc.elems_alloc d' <= Alloc.elems_cnt d + Alloc.ALLOC_NEW_ELEMS /\
      Nat.divide Alloc.ALLOC_NEW_ELEMS (Alloc.elems_alloc d') /\
      take (Alloc.elems_cnt d) (Alloc.elems_buf d') =
        take (Alloc.elems_cnt d) (Alloc.elems_buf d) /\
      Alloc.elems_cnt d' = Alloc.elems_cnt d /\
      Alloc.words_buf d' = Alloc.words_buf d /\
      Alloc.words_cnt d' = Alloc.words_cnt d /\
      Alloc.words_alloc d' = Alloc.words_alloc d /\
      Alloc.elems_pos d' = Alloc.elems_pos d
  end.
Proof.
  intros [Hwl Hwb Hwc Hwf Hel [Heb1 Heb2] Hec].
  unfold Alloc.check_realloc_elems.
  destruct (Nat.eqb_spec (Alloc.elems_cnt d) (Alloc.elems_alloc d)) as [Heq|Hne].
  - destruct (Alloc.realloc _ _) as [new|] eqn:Hnew.
    + rewrite (realloc_memset _ _ _ _ _ Hel Hnew).
      pose proof ALLOC_NEW_ELEMS_pos as Hpos. alloc_fields.
      split; [rewrite length_app, length_replicate; lia|].
      split; [lia|]. split; [lia|].
      split; [apply Nat.divide_add_r; [exact Hec|apply Nat.divide_refl]|].
      split; [rewrite take_app_le by lia; reflexivity|].
      repeat split.
    + split; [reflexivity|]. eexists _, _. exact Hnew.
  - split; [exact Hel|]. split; [lia|]. split; [lia|].
    split; [exact Hec|]. repeat split.
Qed.

Lemma take_S_insert {A : Type} (l : list A) (i : nat) (x : A) :
  i < length l -> take (S i) (<[i := x]> l) = take i l ++ [x].
Proof.
  intros Hi. rewrite insert_take_drop by exact Hi.
  rewrite take_app_ge by (rewrite length_take; lia).
  rewrite length_take, Nat.min_l by lia.
  replace (S i - i) with 1 by lia. reflexivity.
Qed.

Lemma map_insert {A B : Type} (f : A -> B) (l : list A) (i : nat) (x : A) :
  map f (<[i := x]> l) = <[i := f x]> (map f l).
Proof.
  revert i. induction l as [|y l IH]; intros [|i]; cbn; try reflexivity.
  rewrite IH. reflexivity.
Qed.

Lemma map_lookup_total {A B : Type} `{Inhabited A} `{Inhabited B}
    (f : A -> B) (l : list A) (i : nat) (x : A) :
  l !! i = Some x -> map f l !!! i = f x.
Proof.
  intros Hx. apply list_lookup_total_correct. apply map_lookup_Some. exact Hx.
Qed.

Lemma load_line_alloc `{Alloc.heap} (db : list Alloc.db_entry_t)
    (line : list byte) :
  length db = IN_LEN_MAX + 1 -> Forall Alloc.entry_ok db ->
  match Alloc.load_line db line with
  | Alloc.Fault => False
  | Alloc.Exit diagnostic =>
      diagnostic = "Out of memory!"%string /\
      exists ptr n, Alloc.realloc (A := word_t) ptr n = None
  | Alloc.Ok db' =>
      length db' = IN_LEN_MAX + 1 /\ Forall Alloc.entry_ok db' /\
      map filled db' = load_line (map filled db) line
  end.
Proof.
  intros Hlen Hok. unfold Alloc.load_line, load_line.
  pose proof (in_superchop_length line) as Hchop.
  destruct (in_superchop line) as [input_buf input_len]. cbn [fst snd] in Hchop.
  destruct (Nat.ltb_spec input_len IN_LEN_MIN); [auto|].
  destruct (Nat.ltb_spec IN_LEN_MAX input_len); [auto|].
  destruct (lookup_lt_is_Some_2 db input_len ltac:(lia)) as [d Hd].
  rewrite Hd.
  pose proof (proj1 (Forall_lookup _ _) Hok _ _ Hd) as Hentry.
  pose proof (check_realloc_words_spec d Hentry) as Hcheck.
  destruct (Alloc.check_realloc_words d) as [|diagnostic|d'];
    [exact Hcheck|exact Hcheck|].
  destruct Hcheck as (Hl & Hlt & Hle & Hdiv & Hfresh & Htake & Hcnt & Heb &
                      Hec & Hep & Hea).
  rewrite Hcnt.
  destruct (lookup_lt_is_Some_2 (Alloc.words_buf d') (Alloc.words_cnt d)
              ltac:(lia)) as [slot Hslot].
  rewrite Hslot.
  assert (Hzero : slot = word_zero).
  { rewrite (drop_S _ _ _ Hslot) in Hfresh.
    inversion Hfresh; subst. reflexivity. }
  subst slot.
  assert (Hcopy : memcpy word_zero 0 input_buf input_len =
                  Some (word_of input_buf input_len)).
  { unfold memcpy, word_of, word_zero. rewrite length_replicate.
    destruct (Nat.leb_spec (0 + input_len) IN_LEN_MAX); [|lia].
    destruct (Nat.leb_spec input_len (length input_buf)); [|lia].
    reflexivity. }
  rewrite Hcopy.
  destruct Hentry as [_ _ _ _ Hel Hebd Hecd].
  split; [rewrite length_insert; exact Hlen|]. split.
  - apply Forall_insert; [exact Hok|].
    split; alloc_fields.
    + rewrite length_insert. exact Hl.
    + lia.
    + exact Hdiv.
    + rewrite Nat.add_1_r, drop_insert_lt by lia.
      rewrite (drop_S _ _ _ Hslot) in Hfresh. inversion Hfresh; assumption.
    + rewrite Heb, Hea. exact Hel.
    + rewrite Hec, Hea. exact Hebd.
    + rewrite Hea. exact Hecd.
  - rewrite map_insert. f_equal.
    rewrite (map_lookup_total filled db input_len d Hd).
    unfold filled, add_word. alloc_fields.
    cbn [words_buf elems_buf elems_pos]. rewrite Heb, Hec, Hep. f_equal.
    rewrite Nat.add_1_r, take_S_insert by lia. rewrite Htake. reflexivity.
Qed.

Lemma db_entries_init_alloc :
  length Alloc.db_entries_init = IN_LEN_MAX + 1 /\
  Forall Alloc.entry_ok Alloc.db_entries_init /\
  map filled Alloc.db_entries_init = db_entries_init.
Proof.
  split; [reflexivity|]. split; [|reflexivity].
  unfold Alloc.db_entries_init. apply Forall_replicate.
  pose proof ALLOC_NEW_WORDS_pos. pose proof ALLOC_NEW_ELEMS_pos.
  split; cbn [Alloc.db_entry_zero Alloc.words_buf Alloc.words_cnt
              Alloc.words_alloc Alloc.elems_buf Alloc.elems_cnt
              Alloc.elems_alloc length drop];
    try reflexivity; try lia; try apply Nat.divide_0_r; constructor.
Qed.

Lemma load_words_alloc `{Alloc.heap} (stdin : list (list byte))
    (db : list Alloc.db_entry_t) :
  length db = IN_LEN_MAX + 1 -> Forall Alloc.entry_ok db ->
  match Alloc.load_words stdin db with
  | Alloc.Fault => False
  | Alloc.Exit diagnostic =>
      diagnostic = "Out of memory!"%string /\
      exists ptr n, Alloc.realloc (A := word_t) ptr n = None
  | Alloc.Ok db' =>
      length db' = IN_LEN_MAX + 1 /\ Forall Alloc.entry_ok db' /\
      map filled db' = load_words stdin (map filled db)
  end.
Proof.
  revert db. induction stdin as [|line stdin IH]; intros db Hlen Hok;
    cbn [Alloc.load_words]; [auto|].
  pose proof (load_line_alloc db line Hlen Hok) as Hline.
  destruct (Alloc.load_line db line) as [|diagnostic|db1];
    [exact Hline|exact Hline|].
  destruct Hline as (Hlen1 & Hok1 & Hmap1).
  specialize (IH db1 Hlen1 Hok1).
  unfold load_words in *. cbn [fold_left]. rewrite <- Hmap1. exact IH.
Qed.

(** An allocator that never fails and hands out zeroed memory. *)
#[local] Program Instance plain_heap : Alloc.heap := {|
  Alloc.realloc A I ptr n := Some (take n (ptr ++ replicate n inhabitant))
|}.
Next Obligation.
  intros A I ptr new n [= <-].
  rewrite length_take, length_app, length_replicate. lia.
Qed.
Next Obligation.
  intros A I ptr new n [= <-].
  rewrite take_take.
  destruct (Nat.le_gt_cases (length ptr) n).
  - rewrite Nat.min_l, take_app_length, take_ge by lia. reflexivity.
  - rewrite Nat.min_r, take_app_le by lia. reflexivity.
Qed.

(** X19. The word loader writes inside the memory it has asked for. With
    the allocation counters of the source, for any allocator, reading the
    input either ends with "Out of memory!" because a [realloc] has failed,
    or stores every word in a slot below [words_alloc]: then the first
    [words_cnt] slots of each array are the words of the entry without
    counters, [words_alloc] is the size of the array, a multiple of
    [ALLOC_NEW_WORDS] less than [words_cnt + ALLOC_NEW_WORDS], and the
    slots not yet used are zero. *)
Theorem words_are_stored_in_allocated_memory `{Alloc.heap}
    (stdin : list (list byte)) :
  match Alloc.load_words stdin Alloc.db_entries_init with
  | Alloc.Fault => False
  | Alloc.Exit diagnostic =>
      diagnostic = "Out of memory!"%string /\
      exists ptr n, Alloc.realloc (A := word_t) ptr n = None
  | Alloc.Ok db =>
      map filled db = load_words stdin db_entries_init /\
      Forall Alloc.entry_ok db
  end.
Proof.
  destruct db_entries_init_alloc as (Hlen & Hok & Hmap).
  pose proof (load_words_alloc stdin Alloc.db_entries_init Hlen Hok) as Hload.
  destruct (Alloc.load_words stdin Alloc.db_entries_init)
    as [|diagnostic|db]; [exact Hload|exact Hload|].
  rewrite Hmap in Hload. tauto.
Qed.

Lemma words_are_stored_in_allocated_memory_witness :
  exists db,
    Alloc.load_words (H := plain_heap) [list_byte_of_string "a"]
                     Alloc.db_entries_init = Alloc.Ok db /\
    map filled db = load_words [list_byte_of_string "a"] db_entries_init.
Proof.
  pose proof (words_are_stored_in_allocated_memory (H := plain_heap)
                [list_byte_of_string "a"]) as Hload.
  destruct (Alloc.load_words (H := plain_heap) [list_byte_of_string "a"]
                             Alloc.db_entries_init) as [|diagnostic|db].
  - destruct Hload.
  - destruct Hload as (_ & ptr & n & Hnone). discriminate Hnone.
  - exists db. split; [reflexivity|apply Hload].
Defined.

Lemma filled_words_cnt (db : list Alloc.db_entry_t) (k : nat) :
  Forall Alloc.entry_ok db ->
  words_cnt (map filled db !!! k) = Z.of_nat (Alloc.words_cnt (db !!! k)).
Proof.
  intros Hok. rewrite !list_lookup_total_alt, map_lookup.
  destruct (db !! k) as [d|] eqn:Hd; [|reflexivity].
  cbn [option_map default]. unfold words_cnt, filled, id. cbn [words_buf].
  destruct (proj1 (Forall_lookup _ _) Hok _ _ Hd) as [Hl [Hb _] _ _ _ _ _].
  rewrite length_take. f_equal. lia.
Qed.

Lemma elem_valid_with_db_alloc (e : elem_t) (db : list Alloc.db_entry_t) :
  Forall Alloc.entry_ok db ->
  Alloc.elem_valid_with_db e db = elem_valid_with_db e (map filled db).
Proof.
  intros Hok. unfold Alloc.elem_valid_with_db, elem_valid_with_db.
  induction (buf e) as [|k parts IH]; [reflexivity|].
  cbn [forallb]. rewrite IH, (filled_words_cnt db k Hok). f_equal. f_equal.
  destruct (Nat.eqb_spec (Alloc.words_cnt (db !!! k)) 0) as [->|Hne];
    [reflexivity|].
  symmetry. apply Z.eqb_neq. lia.
Qed.

(** What holds of a state of the generation stage, against the database
    without counters. *)
Lemma init_elems_idx_alloc `{Alloc.heap} (lo hi : Z) (pw_len : nat)
    (db : list Alloc.db_entry_t) (elems_idx : nat) :
  pw_len <= IN_LEN_MAX ->
  length db = IN_LEN_MAX + 1 -> Forall Alloc.entry_ok db ->
  match Alloc.init_elems_idx lo hi pw_len (Alloc.Ok db) elems_idx with
  | Alloc.Fault => False
  | Alloc.Exit diagnostic =>
      diagnostic = "Out of memory!"%string /\
      exists ptr n, Alloc.realloc (A := elem_t) ptr n = None
  | Alloc.Ok db' =>
      length db' = IN_LEN_MAX + 1 /\ Forall Alloc.entry_ok db' /\
      map filled db' = init_elems_idx lo hi pw_len (map filled db) elems_idx
  end.
Proof.
  intros Hpw Hlen Hok. unfold Alloc.init_elems_idx, init_elems_idx.
  rewrite (elem_valid_with_db_alloc _ db Hok).
  set (e := elem_gen_with_idx (pw_len - 1) elems_idx).
  destruct (negb (elem_valid_with_db e (map filled db))); [auto|].
  destruct (negb (elem_valid_with_cnt_min e lo)); [auto|].
  destruct (negb (elem_valid_with_cnt_max e hi)); [auto|].
  destruct (lookup_lt_is_Some_2 db pw_len ltac:(lia)) as [d Hd].
  rewrite Hd.
  pose proof (proj1 (Forall_lookup _ _) Hok _ _ Hd) as Hentry.
  pose proof (check_realloc_elems_spec d Hentry) as Hcheck.
  destruct (Alloc.check_realloc_elems d) as [|diagnostic|d'];
    [exact Hcheck|exact Hcheck|].
  destruct Hcheck as (Hl & Hlt & Hle & Hdiv & Htake & Hcnt & Hwb & Hwc &
                      Hwa & Hep).
  rewrite Hcnt, Hl.
  destruct (Nat.ltb_spec (Alloc.elems_cnt d) (Alloc.elems_alloc d')); [|lia].
  assert (He : set_ks_pos (set_ks_cnt e 0%Z) 0%Z = e).
  { destruct (elem_gen_with_idx_ks (pw_len - 1) elems_idx) as [Hk Hp].
    fold e in Hk, Hp. destruct e as [b k q]. cbn in *. subst. reflexivity. }
  rewrite He.
  destruct Hentry as [Hwl Hwbd Hwcd Hwf _ _ _].
  split; [rewrite length_insert; exact Hlen|]. split.
  - apply Forall_insert; [exact Hok|].
    split; alloc_fields.
    + rewrite Hwb, Hwa. exact Hwl.
    + rewrite Hwc, Hwa. exact Hwbd.
    + rewrite Hwa. exact Hwcd.
    + rewrite Hwc, Hwb. exact Hwf.
    + rewrite length_insert. exact Hl.
    + lia.
    + exact Hdiv.
  - rewrite map_insert. f_equal.
    rewrite (map_lookup_total filled db pw_len d Hd).
    unfold filled, add_elem. alloc_fields.
    cbn [words_buf elems_buf elems_pos]. rewrite Hwb, Hwc, Hep. f_equal.
    rewrite Nat.add_1_r, take_S_insert by lia. rewrite Htake. reflexivity.
Qed.

Lemma init_elems_fold_alloc `{Alloc.heap} (lo hi : Z) (pw_len : nat)
    (idxs : list nat) (st : Alloc.result (list Alloc.db_entry_t))
    (db : list db_entry_t) :
  pw_len <= IN_LEN_MAX ->
  match st with
  | Alloc.Fault => False
  | Alloc.Exit diagnostic =>
      diagnostic = "Out of memory!"%string /\
      exists ptr n, Alloc.realloc (A := elem_t) ptr n = None
  | Alloc.Ok db' =>
      length db' = IN_LEN_MAX + 1 /\ Forall Alloc.entry_ok db' /\
      map filled db' = db
  end ->
  match fold_left (Alloc.init_elems_idx lo hi pw_len) idxs st with
  | Alloc.Fault => False
  | Alloc.Exit diagnostic =>
      diagnostic = "Out of memory!"%string /\
      exists ptr n, Alloc.realloc (A := elem_t) ptr n = None
  | Alloc.Ok db' =>
      length db' = IN_LEN_MAX + 1 /\ Forall Alloc.entry_ok db' /\
      map filled db' = fold_left (init_elems_idx lo hi pw_len) idxs db
  end.
Proof.
  intros Hpw. revert st db.
  induction idxs as [|elems_idx idxs IH]; intros st db Hst; cbn [fold_left];
    [exact Hst|].
  apply IH. destruct st as [|diagnostic|db0]; [exact Hst|exact Hst|].
  destruct Hst as (Hlen & Hok & <-).
  apply init_elems_idx_alloc; assumption.
Qed.

Lemma init_elems_alloc `{Alloc.heap} (lo hi : Z) (lens : list nat)
    (st : Alloc.result (list Alloc.db_entry_t)) (db : list db_entry_t) :
  Forall (fun pw_len => pw_len <= IN_LEN_MAX) lens ->
  match st with
  | Alloc.Fault => False
  | Alloc.Exit diagnostic =>
      diagnostic = "Out of memory!"%string /\
      exists ptr n, Alloc.realloc (A := elem_t) ptr n = None
  | Alloc.Ok db' =>
      length db' = IN_LEN_MAX + 1 /\ Forall Alloc.entry_ok db' /\
      map filled db' = db
  end ->
  match fold_left
          (fun st pw_len =>
             fold_left (Alloc.init_elems_idx lo hi pw_len)
                       (seq 0 (Nat.shiftl 1 (pw_len - 1))) st) lens st with
  | Alloc.Fault => False
  | Alloc.Exit diagnostic =>
      diagnostic = "Out of memory!"%string /\
      exists ptr n, Alloc.realloc (A := elem_t) ptr n = None
  | Alloc.Ok db' =>
      length db' = IN_LEN_MAX + 1 /\ Forall Alloc.entry_ok db' /\
      map filled db' = fold_left (init_elems_len lo hi) lens db
  end.
Proof.
  intros Hlens. revert st db.
  induction Hlens as [|pw_len lens Hpw _ IH]; intros st db Hst;
    cbn [fold_left]; [exact Hst|].
  apply IH. unfold init_elems_len.
  apply init_elems_fold_alloc; assumption.
Qed.

(** X20. The chain generator writes inside the memory it has asked for.
    With the allocation counters of the source and [pw_max <= IN_LEN_MAX],
    for any allocator, generation after loading either ends with "Out of
    memory!" because a [realloc] has failed, or stores every chain in a
    slot below [elems_alloc]: then the first [elems_cnt] slots of each
    array are the chains of the entry without counters, and [elems_alloc]
    is the size of the array, a multiple of [ALLOC_NEW_ELEMS] less than
    [elems_cnt + ALLOC_NEW_ELEMS]. *)
Theorem chains_are_stored_in_allocated_memory `{Alloc.heap}
    (stdin : list (list byte)) (pw_min pw_max : nat) (lo hi : Z) :
  pw_max <= IN_LEN_MAX ->
  match Alloc.load_words stdin Alloc.db_entries_init with
  | Alloc.Ok db =>
      match Alloc.init_elems pw_min pw_max lo hi db with
      | Alloc.Fault => False
      | Alloc.Exit diagnostic =>
          diagnostic = "Out of memory!"%string /\
          exists ptr n, Alloc.realloc (A := elem_t) ptr n = None
      | Alloc.Ok db' =>
          map filled db' =
            init_elems pw_min pw_max lo hi (load_words stdin db_entries_init)
          /\ Forall Alloc.entry_ok db'
      end
  | _ => True
  end.
Proof.
  intros Hmax.
  destruct db_entries_init_alloc as (Hlen & Hok & Hmap).
  pose proof (load_words_alloc stdin Alloc.db_entries_init Hlen Hok) as Hload.
  destruct (Alloc.load_words stdin Alloc.db_entries_init)
    as [|diagnostic|db]; [exact I|exact I|].
  rewrite Hmap in Hload. destruct Hload as (Hlen' & Hok' & Hmap').
  pose proof (init_elems_alloc lo hi (pw_lens pw_min pw_max) (Alloc.Ok db)
                (load_words stdin db_entries_init)) as Hgen.
  unfold Alloc.init_elems, init_elems.
  destruct (fold_left _ (pw_lens pw_min pw_max) (Alloc.Ok db))
    as [|diagnostic|db'].
  - apply Hgen; [|auto].
    apply List.Forall_forall. intros n Hn. apply pw_lens_In in Hn. lia.
  - apply Hgen; [|auto].
    apply List.Forall_forall. intros n Hn. apply pw_lens_In in Hn. lia.
  - destruct Hgen as (_ & Hok'' & Hmap''); [|auto|tauto].
    apply List.Forall_forall. intros n Hn. apply pw_lens_In in Hn. lia.
Qed.

Lemma chains_are_stored_in_allocated_memory_witness :
  match Alloc.load_words (H := plain_heap) [list_byte_of_string "a"]
                         Alloc.db_entries_init with
  | Alloc.Ok db =>
      match Alloc.init_elems (H := plain_heap) 1 2 1 8 db with
      | Alloc.Fault => False
      | Alloc.Exit diagnostic =>
          diagnostic = "Out of memory!"%string /\
          exists ptr n,
            Alloc.realloc (heap := plain_heap) (A := elem_t) ptr n = None
      | Alloc.Ok db' =>
          map filled db' =
            init_elems 1 2 1 8
              (load_words [list_byte_of_string "a"] db_entries_init)
          /\ Forall Alloc.entry_ok db'
      end
  | _ => True
  end.
Proof.
  apply (chains_are_stored_in_allocated_memory (H := plain_heap)
           [list_byte_of_string "a"] 1 2 1 8).
  unfold IN_LEN_MAX. lia.
Defined.

(* ================================================================= *)
(** ** [--keyspace] and the full run *)

(** X6. [--keyspace] prints the number of candidates of the full run. The
    run with [--keyspace] prints, whatever [--skip] and [--limit] are, the
    number of positions of all stored chains, and the run with the same
    options without [--keyspace], [--skip] and [--limit] writes one line
    for each of them: its output is the lines of all positions of all
    chains, in some order (provided every length that has chains has a
    positive priority). *)
Theorem keyspace_counts_the_candidates `{libc} (fuel fuel' : nat)
    (junk : list byte) (p : params) (stdin : list (list byte)) :
  check_params p = None -> keyspace p = true ->
  (Z.of_nat (length stdin) < 2 ^ 64)%Z ->
  priorities_positive p stdin ->
  exists lines,
    Permutation lines
      (all_lines (s_db (setup p stdin))
                 (pw_lens (Z.to_nat (pw_min p)) (Z.to_nat (pw_max p)))) /\
    main fuel junk p stdin = Keyspace (Z.of_nat (length lines)) /\
    (length lines <= fuel' ->
     main fuel' junk
       (mk_params false (pw_min p) (pw_max p) (elem_cnt_min p)
                  (elem_cnt_max p) (wl_dist_len p) 0 0) stdin
     = Finished (concat lines)).
Proof.
  intros Hp Hk Hsmall Hprio.
  set (p' := mk_params false (pw_min p) (pw_max p) (elem_cnt_min p)
                       (elem_cnt_max p) (wl_dist_len p) 0 0).
  destruct (setup_keyspace_flag p stdin false 0 0) as [Hs Ht]. fold p' in Hs.
  assert (Hp' : check_params p' = None) by exact Hp.
  assert (Hprio' : priorities_positive p' stdin).
  { unfold priorities_positive. rewrite Hs. exact Hprio. }
  pose proof (setup_total_nonneg p stdin Hp) as Hnn.
  pose proof (visited_length p' stdin Hp' Hsmall Hprio'
                (s_total (setup p' stdin)) ltac:(rewrite Hs; lia)) as Hlen.
  pose proof (visited_full p' stdin Hp' Hsmall Hprio') as Hperm.
  rewrite Hs in Hlen, Hperm.
  exists (visited p' stdin (s_total (setup p stdin))).
  split; [exact Hperm|]. split.
  - unfold main. rewrite Hp, Hk, Ht, Hlen. reflexivity.
  - intros Hfuel.
    pose proof (window_spec p' stdin Hp' Hsmall Hprio' fuel' junk 0 0 eq_refl
                  ltac:(lia) ltac:(lia) ltac:(rewrite Hs; lia)
                  ltac:(rewrite Hs; lia)) as Hrun.
    change (with_window p' 0 0) with p' in Hrun. rewrite Hrun, Hs.
    unfold window. cbn [Z.eqb Z.to_nat]. rewrite drop_0. reflexivity.
Qed.

Lemma keyspace_counts_the_candidates_witness :
  exists lines,
    Permutation lines
      (all_lines
         (s_db (setup (H := glibc) (mk_params true 2 2 1 8 false 5 7)
                      (map list_byte_of_string ["a"; "b"; "c"]%string)))
         (pw_lens (Z.to_nat 2) (Z.to_nat 2))) /\
    main (H := glibc) 0 [] (mk_params true 2 2 1 8 false 5 7)
         (map list_byte_of_string ["a"; "b"; "c"]%string)
      = Keyspace (Z.of_nat (length lines)) /\
    (length lines <= 9 ->
     main (H := glibc) 9 [] (mk_params false 2 2 1 8 false 0 0)
          (map list_byte_of_string ["a"; "b"; "c"]%string)
     = Finished (concat lines)).
Proof.
  apply (keyspace_counts_the_candidates (H := glibc) 0 9 []
           (mk_params true 2 2 1 8 false 5 7)
           (map list_byte_of_string ["a"; "b"; "c"]%string)).
  - reflexivity.
  - reflexivity.
  - vm_compute. reflexivity.
  - apply default_priorities_positive; reflexivity || (vm_compute; reflexivity).
Defined.

(* ================================================================= *)
(** ** Values of [--skip] and [--limit] the checks let through *)



(* ================================================================= *)
(** ** A length with priority 0 *)

Lemma remaining_of_nonneg (d : db_entry_t) :
  entry_ok d -> (0 <= remaining_of d)%Z.
Proof.
  intros Hok. rewrite <- (rest_of_length [] d Hok). lia.
Qed.

Lemma remaining_ge (db : list db_entry_t) (lens : list nat) (n : nat) :
  (forall m, In m lens -> entry_ok (db !!! m)) -> In n lens ->
  (remaining_of (db !!! n) <= remaining db lens)%Z.
Proof.
  unfold remaining. induction lens as [|m lens IH]; intros Hok Hin;
    [destruct Hin|].
  cbn [fold_right].
  assert (Hrest : (0 <= fold_right
                          (fun n acc => (remaining_of (db !!! n) + acc)%Z)
                          0%Z lens)%Z).
  { clear IH Hin. induction lens as [|k lens IH]; cbn [fold_right]; [lia|].
    pose proof (remaining_of_nonneg _ (Hok k ltac:(right; left; reflexivity))).
    specialize (IH ltac:(intros j [Hj|Hj]; apply Hok;
                           [left; exact Hj|right; right; exact Hj])).
    lia. }
  pose proof (remaining_of_nonneg _ (Hok m ltac:(left; reflexivity))) as Hm.
  destruct Hin as [->|Hin]; [lia|].
  specialize (IH ltac:(intros j Hj; apply Hok; right; exact Hj) Hin). lia.
Qed.

Section Stall.
Variables (db0 : list db_entry_t) (wordlen_dist : list Z) (lens : list nat).

Hypothesis db0_length : length db0 = IN_LEN_MAX + 1.
Hypothesis lens_NoDup : List.NoDup lens.
Hypothesis lens_range : forall n, In n lens -> n <= IN_LEN_MAX.
Hypothesis wordlen_dist_nonneg :
  forall n, In n lens -> (0 <= wordlen_dist !!! n)%Z.

Variable n : nat.
Hypothesis n_lens : In n lens.
Hypothesis n_zero : wordlen_dist !!! n = 0%Z.

(** A turn draws an empty batch from the length [n]. *)
Lemma visit_stalled (total_ks_cnt : Z) (db : list db_entry_t) (pos : Z)
    (o : pw_order_t) :
  db_inv db0 lens db -> In (len o) lens -> (pos <= total_ks_cnt)%Z ->
  remaining_of ((visit wordlen_dist total_ks_cnt (db, pos) o).1.1.1 !!! n)
  = remaining_of (db !!! n).
Proof.
  intros Hinv Hin Hpos. unfold visit.
  set (m := len o) in *. set (d := db !!! m).
  pose proof (inv_entry db0 lens db Hinv m Hin) as Hentry. fold d in Hentry.
  destruct (elems_buf d !! elems_pos d) as [e|] eqn:He; [|reflexivity].
  cbn [fst].
  pose proof (entry_current d Hentry e He) as Hcur.
  pose proof (batch_size_bounds e (wordlen_dist !!! m)
                (total_ks_cnt - pos)%Z Hcur
                (wordlen_dist_nonneg m Hin) ltac:(lia)) as Hk.
  cbv zeta in Hk.
  set (k := batch_size e (wordlen_dist !!! m) (total_ks_cnt - pos)%Z) in *.
  destruct Hk as (Hk0 & Hk1 & Hk2 & _).
  assert (Hm : m < length db).
  { rewrite (db_inv_length db0 lens db0_length db Hinv).
    specialize (lens_range m Hin). lia. }
  destruct (Nat.eq_dec m n) as [Heq|Hne].
  - assert (Hkz : k = 0%Z).
    { assert (Hz : wordlen_dist !!! m = 0%Z) by (rewrite Heq; exact n_zero).
      rewrite Hz in Hk2. lia. }
    rewrite <- Heq. rewrite list_lookup_total_insert_eq by exact Hm.
    destruct (advance_spec d e k Hentry He ltac:(lia)) as (_ & -> & _).
    fold d. lia.
  - rewrite list_lookup_total_insert_ne by exact Hne. reflexivity.
Qed.

Lemma visits_stalled (total_ks_cnt : Z) (os : list pw_order_t)
    (db : list db_entry_t) (pos : Z) :
  db_inv db0 lens db -> Forall (fun o => In (len o) lens) os ->
  (pos <= total_ks_cnt)%Z ->
  remaining_of ((visits wordlen_dist total_ks_cnt os (db, pos)).1.1 !!! n)
  = remaining_of (db !!! n).
Proof.
  intros Hinv Hos. revert db pos Hinv.
  induction Hos as [|o os Ho _ IH]; intros db pos Hinv Hpos;
    cbn [visits fst]; [reflexivity|].
  pose proof (visit_spec db0 wordlen_dist lens db0_length lens_NoDup
                lens_range wordlen_dist_nonneg total_ks_cnt db pos o
                Hinv Ho Hpos) as Hspec.
  pose proof (visit_stalled total_ks_cnt db pos o Hinv Ho Hpos) as Hst.
  destruct (visit wordlen_dist total_ks_cnt (db, pos) o)
    as [[[db1 pos1] lines1] brk].
  cbn [fst] in Hst. destruct Hspec as (Hinv1 & _ & Hpos1 & _).
  destruct brk; [exact Hst|].
  specialize (IH db1 pos1 Hinv1 Hpos1).
  destruct (visits wordlen_dist total_ks_cnt os (db1, pos1))
    as [[db2 pos2] lines2].
  cbn [fst] in *. rewrite IH. exact Hst.
Qed.

(** While the length [n] has something left, the loop does not end. *)
Lemma rounds_stalled (fuel : nat) (total_ks_cnt : Z) (os : list pw_order_t)
    (db : list db_entry_t) (pos : Z) :
  db_inv db0 lens db -> Forall (fun o => In (len o) lens) os ->
  (pos + remaining db lens)%Z = total_ks_cnt ->
  (0 < remaining_of (db !!! n))%Z ->
  (rounds fuel wordlen_dist total_ks_cnt os (db, pos)).2 = false.
Proof.
  intros Hinv Hos. revert db pos Hinv.
  induction fuel as [|fuel IH]; intros db pos Hinv Hsum Hn;
    pose proof (remaining_ge db lens n (inv_entry db0 lens db Hinv) n_lens)
      as Hge;
    cbn [rounds snd]; destruct (Z.ltb_spec pos total_ks_cnt); try lia;
    [reflexivity|].
  pose proof (visits_spec db0 wordlen_dist lens db0_length lens_NoDup
                lens_range wordlen_dist_nonneg total_ks_cnt os db pos
                Hinv Hos ltac:(lia)) as Hspec.
  pose proof (visits_stalled total_ks_cnt os db pos Hinv Hos ltac:(lia))
    as Hst.
  destruct (visits wordlen_dist total_ks_cnt os (db, pos))
    as [[db1 pos1] lines1].
  cbn [fst] in Hst. destruct Hspec as (Hinv1 & Hpos1 & _ & Hrem1).
  specialize (IH db1 pos1 Hinv1 ltac:(lia) ltac:(lia)).
  destruct (rounds fuel wordlen_dist total_ks_cnt os (db1, pos1))
    as [[[db2 pos2] lines2] fin].
  exact IH.
Qed.
End Stall.

(** X22. With [--wl-dist-len], a length in [pw_min .. pw_max] that has a
    chain but no word of its own makes a run without [--limit] loop for
    ever: whatever the number of rounds, the run has not ended. *)
Theorem zero_priority_never_ends `{libc} (fuel : nat) (junk : list byte)
    (p : params) (stdin : list (list byte)) (n : nat) :
  check_params p = None -> keyspace p = false ->
  wl_dist_len p = true -> limit p = 0%Z ->
  (0 <= skip p <= s_total (setup p stdin))%Z ->
  (Z.of_nat (length stdin) < 2 ^ 64)%Z ->
  (pw_min p <= Z.of_nat n <= pw_max p)%Z ->
  elems_buf (s_db (setup p stdin) !!! n) <> [] ->
  words_cnt (s_db (setup p stdin) !!! n) = 0%Z ->
  exists written, main fuel junk p stdin = Running written.
Proof.
  intros Hp Hk Hwl Hlimit Hskip Hsmall Hn Hchain Hwords.
  pose proof (check_params_bounds p Hp) as Hb.
  set (lens := pw_lens (Z.to_nat (pw_min p)) (Z.to_nat (pw_max p))).
  assert (Hin : In n lens) by (apply pw_lens_In; lia).
  pose proof (setup_total_nonneg p stdin Hp) as Hnn.
  unfold main. rewrite Hp, Hk, Hlimit.
  rewrite check_skip_limit_spec by lia.
  destruct (Z.ltb_spec (s_total (setup p stdin)) (skip p)); [lia|].
  cbn [Z.eqb].
  assert (Hzero : s_wordlen_dist (setup p stdin) !!! n = 0%Z).
  { destruct (setup_spec p stdin Hp) as (Hsame & -> & _).
    rewrite init_wordlen_dist_lookup
      by (pose proof (lens_bounds p stdin Hp n Hin); lia).
    unfold wordlen_dist_entry. rewrite Hwl.
    rewrite <- Hwords.
    rewrite (same_words_cnt _ _ n Hsame).
    apply (same_words_cnt _ _ n (generated_same_words p stdin Hp)). }
  pose proof (loop_refines junk (skip p) (s_db (setup p stdin))
                (s_wordlen_dist (setup p stdin)) lens
                (setup_length p stdin Hp) (setup_words_ok p stdin Hp)
                (setup_chains_of p stdin Hp) (pw_lens_NoDup _ _)
                (lens_range p stdin Hp)
                (fun m Hm => proj1 (setup_wordlen_dist p stdin Hp Hsmall m Hm))
                fuel (s_total (setup p stdin)) (s_orders (setup p stdin))
                (mk_loop (s_db (setup p stdin)) 0%Z (out_init junk))) as Hloop.
  cbn [l_db l_pos l_out] in Hloop.
  pose proof (rounds_stalled (s_db (setup p stdin))
                (s_wordlen_dist (setup p stdin)) lens
                (setup_length p stdin Hp) (pw_lens_NoDup _ _)
                (lens_range p stdin Hp)
                (fun m Hm =>
                   proj1 (proj1 (setup_wordlen_dist p stdin Hp Hsmall m Hm)))
                n Hin Hzero fuel (s_total (setup p stdin))
                (s_orders (setup p stdin)) (s_db (setup p stdin)) 0%Z
                (setup_db_inv p stdin Hp) (setup_orders_Forall p stdin Hp))
    as Hfin.
  destruct (rounds _ _ _ _ _) as [[[db' pos'] lines] fin].
  cbn [snd] in Hfin. rewrite Hfin in Hloop.
  - eexists. apply Hloop.
    + split; cbn [l_db l_pos l_out];
        [apply setup_db_inv; exact Hp|lia|apply out_init_ok|reflexivity].
    + apply setup_orders_Forall. exact Hp.
  - rewrite (setup_remaining p stdin Hp). lia.
  - pose proof (setup_entry_ok p stdin Hp n Hin) as Hentry.
    destruct (setup_spec p stdin Hp) as (_ & _ & Hslot & _).
    destruct (Hslot n ltac:(lia)) as [_ Hpos0].
    unfold remaining_of. rewrite Hpos0, drop_0.
    destruct (elems_buf (s_db (setup p stdin) !!! n)) as [|e es] eqn:Hes;
      [contradiction|].
    cbn [lookup list_lookup sum_ks fold_right]. fold (sum_ks es).
    destruct Hentry as [_ Hks Hcur _]. rewrite Hes in Hks, Hcur.
    rewrite Hpos0 in Hcur. specialize (Hcur e eq_refl).
    inversion Hks as [|? ? _ Hrest]; subst.
    pose proof (sum_ks_nonneg es Hrest). lia.
Qed.

Lemma zero_priority_never_ends_witness :
  exists written,
    main (H := glibc) 1000 [] (mk_params false 1 2 1 8 true 0 0)
         [list_byte_of_string "a"] = Running written.
Proof.
  apply (zero_priority_never_ends (H := glibc) 1000 []
           (mk_params false 1 2 1 8 true 0 0) [list_byte_of_string "a"] 2).
  - reflexivity.
  - reflexivity.
  - reflexivity.
  - reflexivity.
  - vm_compute. split; discriminate.
  - vm_compute. reflexivity.
  - simpl. lia.
  - vm_compute. discriminate.
  - vm_compute. reflexivity.
Defined.

(* ================================================================= *)
(** ** The keyspace and the number of words of each length *)

Lemma radix_product_counts (db1 db2 : list db_entry_t) (parts : list nat) :
  (forall k, words_cnt (db1 !!! k) = words_cnt (db2 !!! k)) ->
  radix_product db1 parts = radix_product db2 parts.
Proof.
  intros Hcnt. unfold radix_product.
  induction parts as [|part parts IH]; [reflexivity|].
  cbn [fold_right]. rewrite IH, Hcnt. reflexivity.
Qed.

Lemma kept_elems_counts (db1 db2 : list db_entry_t) (lo hi : Z) (n : nat) :
  (forall k, words_cnt (db1 !!! k) = words_cnt (db2 !!! k)) ->
  kept_elems db1 lo hi n = kept_elems db2 lo hi n.
Proof.
  intros Hcnt. unfold kept_elems. apply List.filter_ext. intros e.
  unfold keepb, elem_valid_with_db. do 2 f_equal.
  induction (buf e) as [|part parts IH]; [reflexivity|].
  cbn [forallb]. rewrite IH, Hcnt. reflexivity.
Qed.

Lemma sum_products_counts (db1 db2 : list db_entry_t) (es : list elem_t) :
  (forall k, words_cnt (db1 !!! k) = words_cnt (db2 !!! k)) ->
  sum_products db1 es = sum_products db2 es.
Proof.
  intros Hcnt. unfold sum_products.
  induction es as [|e es IH]; [reflexivity|].
  cbn [fold_right]. rewrite IH, (radix_product_counts db1 db2 _ Hcnt).
  reflexivity.
Qed.

(** The keyspace in terms of the loaded words alone. *)
Lemma setup_total_loaded `{libc} (p : params) (stdin : list (list byte)) :
  check_params p = None ->
  let loaded := load_words stdin db_entries_init in
  s_total (setup p stdin) =
  fold_right
    (fun n acc =>
       (sum_products loaded
          (kept_elems loaded (elem_cnt_min p) (elem_cnt_max p) n) + acc)%Z)
    0%Z (pw_lens (Z.to_nat (pw_min p)) (Z.to_nat (pw_max p))).
Proof.
  intros Hp loaded.
  destruct (setup_spec p stdin Hp) as (_ & _ & Hslot & -> & _).
  apply fold_right_add_ext. intros n Hn. apply pw_lens_In in Hn.
  destruct (Hslot n Hn) as [-> _].
  rewrite (sum_ks_Permutation _ _ (qsort_Permutation _ _ _)).
  unfold unsorted_elems. fold loaded.
  apply sum_ks_add_ks, kept_elems_ks_cnt.
Qed.

(** X23. The keyspace depends on the wordlist only through the number of
    words of each length: two inputs with as many words in every bucket
    have the same [total_ks_cnt], whatever the words are, their order and
    the C library. *)
Theorem keyspace_depends_on_word_counts (L1 L2 : libc) (p : params)
    (stdin1 stdin2 : list (list byte)) :
  check_params p = None ->
  (forall k,
     length (bucket (load_words stdin1 db_entries_init) k) =
     length (bucket (load_words stdin2 db_entries_init) k)) ->
  s_total (setup (H := L1) p stdin1) = s_total (setup (H := L2) p stdin2).
Proof.
  intros Hp Hlen.
  assert (Hcnt : forall k,
            words_cnt (load_words stdin1 db_entries_init !!! k) =
            words_cnt (load_words stdin2 db_entries_init !!! k)).
  { intros k. specialize (Hlen k). unfold bucket in Hlen.
    rewrite !length_map in Hlen. unfold words_cnt. rewrite Hlen.
    reflexivity. }
  rewrite (setup_total_loaded (H := L1) p stdin1 Hp).
  rewrite (setup_total_loaded (H := L2) p stdin2 Hp).
  apply fold_right_add_ext. intros n _.
  rewrite (kept_elems_counts _ _ _ _ n Hcnt).
  apply sum_products_counts. exact Hcnt.
Qed.

Lemma keyspace_depends_on_word_counts_witness :
  s_total (setup (H := glibc) (mk_params false 1 3 1 8 false 0 0)
                 (map list_byte_of_string ["a"; "bc"; "d"]%string)) =
  s_total (setup (H := small_libc) (mk_params false 1 3 1 8 false 0 0)
                 (map list_byte_of_string ["xy"; "x"; "x"]%string)).
Proof.
  apply (keyspace_depends_on_word_counts glibc small_libc
           (mk_params false 1 3 1 8 false 0 0)
           (map list_byte_of_string ["a"; "bc"; "d"]%string)
           (map list_byte_of_string ["xy"; "x"; "x"]%string)).
  - reflexivity.
  - intros k. destruct (Nat.le_gt_cases k IN_LEN_MAX) as [Hk|Hk].
    + unfold IN_LEN_MAX in Hk.
      do 17 (destruct k as [|k]; [vm_compute; reflexivity|]). lia.
    + unfold bucket. rewrite !load_words_outside by lia. reflexivity.
Defined.

(* ================================================================= *)
(** ** The C library and the candidates *)





